(** * The step sequencer: pattern compiler, MIDI encoder and playback setup

    A shallow embedding of the sequencer page component: the grid of
    cells per track, [extractTrackEvents] (runs of active cells become
    note events), the MIDI export ([handleExportMidi]: on/off sub-events,
    sorting, delta times, the calls made on the jsmidgen track), the cell
    toggle ([toggleCell]) and the playback setup ([setupPlayback]: synths
    and parts per track).

    Conventions of the embedding.
    - JavaScript numbers that are array indices, lengths, steps and ticks
      are integers far below 2^53, where double arithmetic is exact: they
      are [nat] (indices, steps) and [Z] (ticks, deltas, arguments that
      may be negative).  Numbers that are real-valued (velocity, volume,
      tempo, swing) are IEEE 754 binary64 values, the kernel's [float].
    - A value that may be [undefined] is an [option]: [None] is
      [undefined].  [a ?? b] is [default b a].
    - A function that may throw returns a [completion].
    - Objects of the external libraries (a jsmidgen track, a Tone synth
      or part) are the record of what the code did with them.  The one
      way a library call of the export can fail, the note parser of the
      MIDI writer rejecting a label, is a parameter of the export. *)

From Stdlib Require Import ZArith String Ascii List Lia Permutation Sorted.
From Stdlib Require Import Floats.PrimFloat.
From stdpp Require Import base option list gmap strings pretty.

#[local] Set Warnings "-inexact-float".
#[local] Open Scope Z_scope.
#[local] Open Scope nat_scope.

(** ** JavaScript values and built-ins *)

Module JS.

(** How a call ends: with a value, or by throwing. *)
Inductive completion (A : Type) : Type :=
| Normal (a : A)
| Throw (error : string).
Arguments Normal {A} a.
Arguments Throw {A} error.

(** [Math.floor] on a finite double of magnitude below 2^52: adding and
    subtracting 2^52 rounds to an integer (to nearest), which is then
    corrected downwards. *)
Definition two52 : float := 4503599627370496%float.

Definition floor52 (x : float) : float :=
  let t := if PrimFloat.ltb x 0%float
           then PrimFloat.add (PrimFloat.sub x two52) two52
           else PrimFloat.sub (PrimFloat.add x two52) two52 in
  if PrimFloat.ltb x t then PrimFloat.sub t 1%float else t.

(** [Math.round]: the nearest integer, a tie going towards +infinity;
    NaN, the infinities, the zeros and the doubles from 2^52 on (all
    integers) are returned as they are; a negative argument that rounds
    to zero gives -0. *)
Definition Math_round (x : float) : float :=
  if PrimFloat.is_nan x || PrimFloat.is_infinity x || PrimFloat.is_zero x
     || PrimFloat.leb two52 (PrimFloat.abs x)
  then x
  else
    let r := floor52 x in
    let y := if PrimFloat.leb 0.5%float (PrimFloat.sub x r)
             then PrimFloat.add r 1%float else r in
    if PrimFloat.eqb y 0%float && PrimFloat.ltb x 0%float
    then (-0)%float else y.

(** [String.prototype.toLowerCase] on the characters of a pitch label
    (ASCII): the letters A to Z move to a to z, every other character
    stays. *)
Definition toLowerChar (c : ascii) : ascii :=
  let n := nat_of_ascii c in
  if (65 <=? n) && (n <=? 90) then ascii_of_nat (n + 32) else c.

Fixpoint toLowerCase (s : string) : string :=
  match s with
  | EmptyString => EmptyString
  | String c rest => String (toLowerChar c) (toLowerCase rest)
  end.

(** [stripPrefix p s] is what follows [p] in [s] when [s] starts with [p]. *)
Fixpoint stripPrefix (p s : string) : option string :=
  match p with
  | EmptyString => Some s
  | String a p' =>
      match s with
      | EmptyString => None
      | String b s' => if Ascii.eqb a b then stripPrefix p' s' else None
      end
  end.

(** [String.prototype.replace] with a string pattern: the first
    occurrence of the pattern is replaced (the replacement holds no [$]). *)
Fixpoint replace (pattern replacement s : string) : string :=
  match stripPrefix pattern s with
  | Some rest => (replacement ++ rest)%string
  | None =>
      match s with
      | EmptyString => EmptyString
      | String c s' => String c (replace pattern replacement s')
      end
  end.

(** [Array.prototype.sort] with a comparator: a stable sort, [a] before
    [b] when [compare a b < 0].  An element is inserted in the sorted rest
    before the first element it does not compare greater than, so equal
    elements keep their order. *)
Section Sort.
Context {A : Type} (compare : A → A → Z).

Fixpoint insertSorted (x : A) (l : list A) : list A :=
  match l with
  | [] => [x]
  | y :: l' =>
      if (compare x y <=? 0)%Z then x :: y :: l' else y :: insertSorted x l'
  end.

Fixpoint sort (l : list A) : list A :=
  match l with
  | [] => []
  | x :: l' => insertSorted x (sort l')
  end.
End Sort.

End JS.
Import JS.

(** ** Data model *)

(** A grid cell.  The source reads [cell.velocity ?? 0.8] everywhere, so
    the velocity may be absent. *)
Record NoteCell : Type := {
  active : bool;
  cell_velocity : option float;
}.

Abbreviation TrackPattern := (list (list NoteCell)).

Record TrackState : Type := {
  track_id : string;
  track_name : string;
  track_instrument : string;
  track_pattern : TrackPattern;
  track_volume : float;
  track_muted : bool;
}.

Record SequencerEvent : Type := {
  step : nat;
  durationSteps : nat;
  note : option string;
  velocity : float;
}.

(** ** extractTrackEvents *)

Section Extract.
(** The pitch label of each row, top row first (a constant of the music
    library). *)
Variable NOTE_NAMES : list string.

(** [pattern[rowIndex][i].active], for [i] within the row. *)
Definition activeAt (row : list NoteCell) (i : nat) : bool :=
  match row !! i with
  | Some cell => active cell
  | None => false
  end.

(** The inner loop: [length] grows while the next cell of the row exists
    and is active.  [fuel] bounds the number of turns; the loop ends
    within the length of the row ([extendRun_spec]). *)
Fixpoint extendRun (fuel : nat) (row : list NoteCell) (step length : nat) : nat :=
  match fuel with
  | O => length
  | S fuel' =>
      if (step + length <? List.length row) && activeAt row (step + length)
      then extendRun fuel' row step (length + 1)
      else length
  end.

(** The outer loop over one row, pushing onto [events].  [fuel] bounds the
    number of turns; every turn advances [step], so the loop ends within
    the length of the row ([scanRow_fuel]).  Inside the loop [step] is an
    index of the row, so [row[step]] is a cell. *)
Fixpoint scanRow (fuel : nat) (row : list NoteCell) (rowIndex step : nat)
    (events : list SequencerEvent) : list SequencerEvent :=
  match fuel with
  | O => events
  | S fuel' =>
      if step <? List.length row then
        match row !! step with
        | None => events
        | Some cell =>
            if negb (active cell) then scanRow fuel' row rowIndex (step + 1) events
            else
              let length := extendRun (List.length row) row step 1 in
              scanRow fuel' row rowIndex (step + length)
                (events ++ [ {| step := step;
                                durationSteps := length;
                                note := NOTE_NAMES !! rowIndex;
                                velocity := default 0.8%float (cell_velocity cell) |} ])
        end
      else events
  end.

(** [pattern.forEach((row, rowIndex) => ...)], all rows pushing onto the
    one array [events]. *)
Fixpoint forEachRow (rows : list (list NoteCell)) (rowIndex : nat)
    (events : list SequencerEvent) : list SequencerEvent :=
  match rows with
  | [] => events
  | row :: rest =>
      forEachRow rest (S rowIndex) (scanRow (List.length row) row rowIndex 0 events)
  end.

Definition extractTrackEvents (pattern : TrackPattern) : list SequencerEvent :=
  forEachRow pattern 0 [].

(** The events the loop pushes for one row. *)
Definition rowEvents (row : list NoteCell) (rowIndex : nat) : list SequencerEvent :=
  scanRow (List.length row) row rowIndex 0 [].

End Extract.

(** ** MIDI export *)

Inductive SubEventType : Type := on | off.

(** A tick-domain sub-event of the export. *)
Record MidiSubEvent : Type := {
  tick : Z;
  type : SubEventType;
  sub_note : option string;
  sub_velocity : float;
}.

(** What the code calls on a jsmidgen [Track], in order. *)
Inductive MidiCall : Type :=
| setTempo (tempo : float)
| setInstrument (channel : Z) (instrument : Z)
| noteOn (channel : Z) (note : string) (delta : Z) (velocity : float)
| noteOff (channel : Z) (note : string) (delta : Z) (velocity : float).

(** A computation that calls methods of the track under construction:
    the calls made so far are threaded through, and stay made when the
    computation throws; a call that throws is the last of them. *)
Definition Midi (A : Type) : Type := list MidiCall → list MidiCall * completion A.

#[export] Instance Midi_ret : MRet Midi := λ A a calls, (calls, Normal a).

#[export] Instance Midi_bind : MBind Midi := λ A B k m calls,
  match m calls with
  | (calls', Normal a) => k a calls'
  | (calls', Throw e) => (calls', Throw e)
  end.

Definition lift {A} (c : completion A) : Midi A := λ calls, (calls, c).

Definition instrumentPrograms (instrument : string) : option Z :=
  if String.eqb instrument "dream-pad" then Some 89%Z
  else if String.eqb instrument "chiptune" then Some 81%Z
  else if String.eqb instrument "fm-keys" then Some 6%Z
  else if String.eqb instrument "bass" then Some 34%Z
  else None.

(** [label.toLowerCase().replace("#", "#")]; reading [toLowerCase] of
    [undefined] throws a TypeError. *)
Definition noteLabelToMidi (label : option string) : completion string :=
  match label with
  | Some label => Normal (JS.replace "#" "#" (toLowerCase label))
  | None => Throw "TypeError: Cannot read properties of undefined (reading 'toLowerCase')"
  end.

Definition ticksPerBeat : Z := 128.
Definition ticksPerStep : Z := (ticksPerBeat / 4)%Z.

(** The callback of [flatMap]: the two sub-events of one event. *)
Definition toSubEvents (event : SequencerEvent) : list MidiSubEvent :=
  let startTick := (Z.of_nat (step event) * ticksPerStep)%Z in
  let durationTicks := (Z.of_nat (durationSteps event) * ticksPerStep)%Z in
  [ {| tick := startTick;
       type := on;
       sub_note := note event;
       sub_velocity := Math_round (PrimFloat.mul (velocity event) 127) |};
    {| tick := (startTick + durationTicks)%Z;
       type := off;
       sub_note := note event;
       sub_velocity := 0%float |} ].

Definition SubEventType_eqb (a b : SubEventType) : bool :=
  match a, b with
  | on, on | off, off => true
  | _, _ => false
  end.

(** The comparator handed to [events.sort]. *)
Definition compareSubEvents (a b : MidiSubEvent) : Z :=
  if (tick a =? tick b)%Z then
    if SubEventType_eqb (type a) (type b) then 0%Z
    else match type a with off => (-1)%Z | on => 1%Z end
  else (tick a - tick b)%Z.

(** The sub-events of a track in the order they are emitted. *)
Definition sortedSubEvents (events : list SequencerEvent) : list MidiSubEvent :=
  JS.sort compareSubEvents (flat_map toSubEvents events).

Section MidiExport.
(** The MIDI writer is a library outside the sources.  The export depends
    on one thing it does: [noteOn] and [noteOff] parse the note label they
    are given, and throw on a label the parser rejects.  [noteError label]
    is what they throw on [label], if they throw. *)
Variable noteError : string → option string.
Variable NOTE_NAMES : list string.

(** A method call on the track: the call is made, and throws what the
    writer throws on it. *)
Definition call (c : MidiCall) : Midi unit := λ calls,
  (calls ++ [c],
   match c with
   | noteOn _ label _ _ | noteOff _ label _ _ =>
       match noteError label with
       | Some error => Throw error
       | None => Normal tt
       end
   | setTempo _ | setInstrument _ _ => Normal tt
   end).

(** [events.forEach(...)] with the captured [lastTick]; the final cursor
    is returned. *)
Fixpoint emitEvents (events : list MidiSubEvent) (lastTick : Z) : Midi Z :=
  match events with
  | [] => mret lastTick
  | event :: rest =>
      let delta := (tick event - lastTick)%Z in
      match type event with
      | on =>
          label ← lift (noteLabelToMidi (sub_note event));
          call (noteOn 0 label delta (sub_velocity event))
      | off =>
          label ← lift (noteLabelToMidi (sub_note event));
          call (noteOff 0 label delta (sub_velocity event))
      end;;
      emitEvents rest (tick event)
  end.

(** The body of [tracks.forEach((track, index) => ...)] up to
    [file.addTrack]: the calls on the new track. *)
Definition exportTrack (tempo : float) (index : nat) (track : TrackState) : Midi unit :=
  (if index =? 0 then call (setTempo tempo) else mret tt);;
  call (setInstrument 0 (default 89%Z (instrumentPrograms (track_instrument track))));;
  let events := sortedSubEvents (extractTrackEvents NOTE_NAMES (track_pattern track)) in
  emitEvents events 0%Z;;
  mret tt.

(** The loop over the tracks: a finished track is added to the file; a
    throw ends the export. *)
Fixpoint exportTracks (tempo : float) (tracks : list TrackState) (index : nat)
    (file : list (list MidiCall)) : list (list MidiCall) * completion unit :=
  match tracks with
  | [] => (file, Normal tt)
  | track :: rest =>
      match exportTrack tempo index track [] with
      | (midiTrack, Normal _) => exportTracks tempo rest (S index) (file ++ [midiTrack])
      | (_, Throw e) => (file, Throw e)
      end
  end.

(** The outcome of [handleExportMidi]: the tracks of the file handed to
    the download (if any) and the status line. *)
Record Exported : Type := {
  midiFile : option (list (list MidiCall));
  exportStatus : string;
}.

Definition handleExportMidi (midiLoaded : bool) (tempo : float)
    (tracks : list TrackState) : completion Exported :=
  if negb midiLoaded then
    Normal {| midiFile := None; exportStatus := "MIDI exporter not ready yet." |}
  else
    match exportTracks tempo tracks 0 [] with
    | (midiFile, Normal _) =>
        Normal {| midiFile := Some midiFile; exportStatus := "Exported MIDI file." |}
    | (_, Throw e) => Throw e
    end.

End MidiExport.

(** The delta arguments of the note calls of a track, in call order. *)
Definition deltaOf (c : MidiCall) : option Z :=
  match c with
  | noteOn _ _ delta _ | noteOff _ _ delta _ => Some delta
  | _ => None
  end.

Definition deltas (calls : list MidiCall) : list Z := omap deltaOf calls.

(** The label arguments of the note calls of a track, in call order. *)
Definition labelOf (c : MidiCall) : option string :=
  match c with
  | noteOn _ label _ _ | noteOff _ label _ _ => Some label
  | _ => None
  end.

Definition labels (calls : list MidiCall) : list string := omap labelOf calls.

(** Decoding delta times: the running sums from a start cursor. *)
Fixpoint runningSums (cursor : Z) (ds : list Z) : list Z :=
  match ds with
  | [] => []
  | d :: rest => (cursor + d)%Z :: runningSums (cursor + d)%Z rest
  end.

(** ** toggleCell *)

(** The updater handed to [setTracks]: the tracks and the cells are
    mapped; only the cell whose indices equal [row] and [step] is rebuilt. *)
Definition toggleCellUpdater (trackId : string) (row step : Z)
    (forceState : option bool) (prev : list TrackState) : list TrackState :=
  map (λ track,
    if negb (String.eqb (track_id track) trackId) then track
    else
      let pattern :=
        imap (λ rowIdx noteRow,
          imap (λ stepIdx cell,
            if negb (Z.of_nat rowIdx =? row)%Z || negb (Z.of_nat stepIdx =? step)%Z
            then cell
            else
              let nextActive := default (negb (active cell)) forceState in
              let velocity :=
                if nextActive then default 0.8%float (cell_velocity cell)
                else default 0.8%float (cell_velocity cell) in
              {| active := nextActive; cell_velocity := Some velocity |})
            noteRow)
          (track_pattern track) in
      {| track_id := track_id track;
         track_name := track_name track;
         track_instrument := track_instrument track;
         track_pattern := pattern;
         track_volume := track_volume track;
         track_muted := track_muted track |})
    prev.

(** [toggleCell] has no [throw] and calls nothing that throws: it always
    completes normally, with the updated tracks. *)
Definition toggleCell (trackId : string) (row step : Z)
    (forceState : option bool) (prev : list TrackState) : completion (list TrackState) :=
  Normal (toggleCellUpdater trackId row step forceState prev).

(** ** Playback setup *)

(** [stepToTransportTime]: bars:beats:sixteenths. *)
Definition stepToTransportTime (step : nat) : string :=
  let STEPS_PER_BAR := 16 in
  let stepsPerBeat := 4 in
  let measure := step / STEPS_PER_BAR in
  let remainder := step mod STEPS_PER_BAR in
  let beat := remainder / stepsPerBeat in
  let subdivision := remainder mod stepsPerBeat in
  pretty measure +:+ ":" +:+ pretty beat +:+ ":" +:+ pretty subdivision.

(** The synth classes of the audio engine that [buildInstrument]
    constructs, with the oscillator that tells the two PolySynths apart. *)
Inductive Voice : Type :=
| PolySynth_triangle
| PolySynth_square
| FMSynth
| MonoSynth
| Synth.

Definition buildInstrument (instrument : string) : Voice :=
  if String.eqb instrument "dream-pad" then PolySynth_triangle
  else if String.eqb instrument "chiptune" then PolySynth_square
  else if String.eqb instrument "fm-keys" then FMSynth
  else if String.eqb instrument "bass" then MonoSynth
  else Synth.

(** A synth instance: what was built, and its [volume.value]. *)
Record SynthState : Type := {
  voice : Voice;
  synth_volume : float;
}.

(** A [Tone.Part]: its timed events and loop settings. *)
Record Part : Type := {
  part_events : list (string * SequencerEvent);
  part_loop : bool;
  part_loopEnd : string;
  part_start : Z;
}.

Record Transport : Type := {
  bpm : float;
  swing : float;
  swingSubdivision : string;
  loopEnd : string;
  loop : bool;
  position : Z;
  started : bool;
}.

(** [toneRef.current] with the transport, and the two pieces of page
    state that playback setup writes. *)
Record Playback : Type := {
  transport : Transport;
  parts : list Part;
  synths : gmap string SynthState;
  isPlaying : bool;
  status : string;
}.

Section Playback.
Variable NOTE_NAMES : list string.
(** The number of steps of a pattern (a constant of the music library). *)
Variable TOTAL_STEPS : nat.

(** [Math.ceil(TOTAL_STEPS / 16)]. *)
Definition loopBars : nat := (TOTAL_STEPS + 15) / 16.

(** The body of [tracks.forEach((track) => ...)] in [setupPlayback]. *)
Definition setupTrack (s : Playback) (track : TrackState) : Playback :=
  if track_muted track then s
  else
    let synth := {| voice := buildInstrument (track_instrument track);
                    synth_volume := track_volume track |} in
    let synths' := <[track_id track := synth]> (synths s) in
    let events := extractTrackEvents NOTE_NAMES (track_pattern track) in
    if Nat.eqb (List.length events) 0 then
      {| transport := transport s; parts := parts s; synths := synths';
         isPlaying := isPlaying s; status := status s |}
    else
      let part := {| part_events := map (λ event, (stepToTransportTime (step event), event)) events;
                     part_loop := true;
                     part_loopEnd := pretty loopBars +:+ "m";
                     part_start := 0%Z |} in
      {| transport := transport s; parts := parts s ++ [part]; synths := synths';
         isPlaying := isPlaying s; status := status s |}.

(** [setupPlayback(keepTransportRunning)]; [engine] is how
    [await ensureTone(); await Tone.start()] ended. *)
Definition setupPlayback (engine : completion unit) (keepTransportRunning : bool)
    (tempo swingPercent : float) (tracks : list TrackState) (s : Playback) : Playback :=
  match engine with
  | Throw _ =>
      {| transport := transport s; parts := parts s; synths := synths s;
         isPlaying := false;
         status := "Unable to initialize playback. Check browser audio permissions." |}
  | Normal _ =>
      let t := {| bpm := tempo;
                  swing := PrimFloat.div swingPercent 100;
                  swingSubdivision := "8n";
                  loopEnd := pretty loopBars +:+ "m";
                  loop := true;
                  position := position (transport s);
                  started := started (transport s) |} in
      let disposed := {| transport := t; parts := []; synths := ∅;
                         isPlaying := isPlaying s; status := status s |} in
      let s' := foldl setupTrack disposed tracks in
      if keepTransportRunning then s'
      else
        {| transport := {| bpm := bpm (transport s');
                           swing := swing (transport s');
                           swingSubdivision := swingSubdivision (transport s');
                           loopEnd := loopEnd (transport s');
                           loop := loop (transport s');
                           position := 0%Z;
                           started := true |};
           parts := parts s'; synths := synths s';
           isPlaying := isPlaying s'; status := status s' |}
  end.

End Playback.

(** ** Vocabulary of the properties *)

(** The number of active cells at the head of a list of cells. *)
Fixpoint leadingActive (cells : list NoteCell) : nat :=
  match cells with
  | [] => 0
  | cell :: rest => if active cell then S (leadingActive rest) else 0
  end.

(** The number of consecutive active cells of [row] from step [s] on. *)
Definition runLength (row : list NoteCell) (s : nat) : nat :=
  leadingActive (drop s row).

(** [d] cells from step [s] on are a maximal run of active cells of [row]:
    all of them are active, the cell before (if any) is not, and the cell
    after (if any) is not. *)
Definition maximalRun (row : list NoteCell) (s d : nat) : Prop :=
  0 < d ∧
  (∀ i, s ≤ i < s + d → activeAt row i = true) ∧
  (s = 0 ∨ activeAt row (s - 1) = false) ∧
  activeAt row (s + d) = false.

(** The event of the run of [row] that starts at step [s] in cell [cell]. *)
Definition runEvent (NOTE_NAMES : list string) (row : list NoteCell)
    (rowIndex s : nat) (cell : NoteCell) : SequencerEvent :=
  {| step := s;
     durationSteps := S (runLength row (S s));
     note := NOTE_NAMES !! rowIndex;
     velocity := default 0.8%float (cell_velocity cell) |}.

(** No event of a row lies over the next one: every start is more than a
    full run after the start before it. *)
Definition apart (e1 e2 : SequencerEvent) : Prop :=
  step e1 + durationSteps e1 < step e2.

(** Two rows with the same [active] flags, cell by cell. *)
Definition sameShape (row row' : list NoteCell) : Prop :=
  active <$> row = active <$> row'.

(** Under a comparator, [a] does not sort after [b]. *)
Definition notAfter {A : Type} (compare : A → A → Z) (a b : A) : Prop :=
  (compare a b ≤ 0)%Z.

(** The order the comparator of the export sorts by: by tick, and at one
    tick an [off] before an [on]. *)
Definition subLe (a b : MidiSubEvent) : Prop :=
  (tick a < tick b)%Z ∨ (tick a = tick b ∧ (type a = off ∨ type b = on)).

(** The call that emits sub-event [e] under [label] when the sub-event
    before it was at [lastTick]. *)
Definition callFor (lastTick : Z) (e : MidiSubEvent) (label : string) : MidiCall :=
  match type e with
  | on => noteOn 0 label (tick e - lastTick) (sub_velocity e)
  | off => noteOff 0 label (tick e - lastTick) (sub_velocity e)
  end.

(** The calls made for a list of sub-events from cursor [lastTick] on:
    one per sub-event, up to the first sub-event that has no label, and
    up to and with the first whose label the writer rejects. *)
Fixpoint emittedCalls (noteError : string → option string) (lastTick : Z)
    (events : list MidiSubEvent) : list MidiCall :=
  match events with
  | [] => []
  | e :: rest =>
      match sub_note e with
      | None => []
      | Some label =>
          callFor lastTick e (JS.replace "#" "#" (toLowerCase label))
          :: match noteError (JS.replace "#" "#" (toLowerCase label)) with
             | Some _ => []
             | None => emittedCalls noteError (tick e) rest
             end
      end
  end.

(** The sub-events a call is made for: those before the first one that
    has no label, up to and with the first whose label the writer
    rejects. *)
Fixpoint emittedPrefix (noteError : string → option string)
    (events : list MidiSubEvent) : list MidiSubEvent :=
  match events with
  | [] => []
  | e :: rest =>
      match sub_note e with
      | None => []
      | Some label =>
          e :: match noteError (JS.replace "#" "#" (toLowerCase label)) with
               | Some _ => []
               | None => emittedPrefix noteError rest
               end
      end
  end.

(** A sub-event with a label that the writer accepts in lower case. *)
Definition accepted (noteError : string → option string) (e : MidiSubEvent) : Prop :=
  ∃ label, sub_note e = Some label ∧ noteError (toLowerCase label) = None.

(** The writer accepts every pitch label of the page, in lower case. *)
Definition writerAccepts (noteError : string → option string)
    (NOTE_NAMES : list string) : Prop :=
  ∀ label, label ∈ NOTE_NAMES → noteError (toLowerCase label) = None.

(** The calls on a new track before its notes. *)
Definition trackHeader (tempo : float) (index : nat) (track : TrackState) : list MidiCall :=
  (if index =? 0 then [setTempo tempo] else [])
  ++ [setInstrument 0 (default 89%Z (instrumentPrograms (track_instrument track)))].

(** The kind of a note call. *)
Definition kindOf (c : MidiCall) : option SubEventType :=
  match c with
  | noteOn _ _ _ _ => Some on
  | noteOff _ _ _ _ => Some off
  | _ => None
  end.


Definition isUpper (c : ascii) : bool :=
  (65 <=? nat_of_ascii c) && (nat_of_ascii c <=? 90).

Fixpoint hasUpper (s : string) : bool :=
  match s with
  | EmptyString => false
  | String c rest => isUpper c || hasUpper rest
  end.

(** [row] and [step] address no cell of [pattern]. *)
Definition outOfRange (pattern : TrackPattern) (row step : Z) : Prop :=
  ∀ r cells, pattern !! r = Some cells → Z.of_nat r = row →
    (step < 0 ∨ Z.of_nat (List.length cells) ≤ step)%Z.

(** The synth [setupPlayback] builds for a track. *)
Definition synthFor (track : TrackState) : SynthState :=
  {| voice := buildInstrument (track_instrument track);
     synth_volume := track_volume track |}.

(** The part [setupPlayback] creates for a track: none for a muted track
    and none for a track without events. *)
Definition partFor (NOTE_NAMES : list string) (TOTAL_STEPS : nat) (track : TrackState)
    : option Part :=
  if track_muted track then None
  else
    let events := extractTrackEvents NOTE_NAMES (track_pattern track) in
    if Nat.eqb (List.length events) 0 then None
    else Some {| part_events := map (λ event, (stepToTransportTime (step event), event)) events;
                 part_loop := true;
                 part_loopEnd := pretty (loopBars TOTAL_STEPS) +:+ "m";
                 part_start := 0%Z |}.

(** What the loop of [setupPlayback] does to the synth map. *)
Definition addSynth (m : gmap string SynthState) (track : TrackState)
    : gmap string SynthState :=
  if track_muted track then m else <[track_id track := synthFor track]> m.

(** ** Sample inputs *)

Definition cellOn (v : float) : NoteCell := {| active := true; cell_velocity := Some v |}.
Definition cellOff : NoteCell := {| active := false; cell_velocity := Some 0.8%float |}.

(** A row active exactly at the steps 2, 3, 4 and 7. *)
Definition sampleRow : list NoteCell :=
  [cellOff; cellOff; cellOn 0.5; cellOn 0.9; cellOn 1; cellOff; cellOff; cellOn 0.25].

(** The same row with other velocities after the first cell of its long run. *)
Definition sampleRow' : list NoteCell :=
  [cellOff; cellOff; cellOn 0.5; cellOn 0.1; cellOn 0.2; cellOff; cellOff; cellOn 0.25].

Definition sampleNames : list string := ["C4"; "B3"]%string.

(** The two events of [sampleRow] in row 0. *)
Definition sampleEvent2 : SequencerEvent :=
  {| step := 2; durationSteps := 3; note := Some "C4"%string; velocity := 0.5%float |}.
Definition sampleEvent7 : SequencerEvent :=
  {| step := 7; durationSteps := 1; note := Some "C4"%string; velocity := 0.25%float |}.

(** Two events of one label, the second starting where the first ends. *)
Definition tiedEvents : list SequencerEvent :=
  [ {| step := 4; durationSteps := 2; note := Some "C4"%string; velocity := 0.8%float |};
    {| step := 6; durationSteps := 2; note := Some "C4"%string; velocity := 0.8%float |} ].

Definition sampleTrack (pattern : TrackPattern) (muted : bool) : TrackState :=
  {| track_id := "t1";
     track_name := "Track 1";
     track_instrument := "dream-pad";
     track_pattern := pattern;
     track_volume := (-8)%float;
     track_muted := muted |}.

(** A stopped page: no part, no synth. *)
Definition idle : Playback :=
  {| transport := {| bpm := 120; swing := 0; swingSubdivision := "8n";
                     loopEnd := "1m"; loop := true; position := 0%Z; started := false |};
     parts := [];
     synths := ∅;
     isPlaying := false;
     status := "" |}.

(** ** The page: track list, selection and inspector *)

Record SelectedCell : Type := {
  sel_trackId : string;
  sel_row : nat;
  sel_step : nat;
}.

(** The page state the editing handlers read and write. *)
Record Page : Type := {
  page_tracks : list TrackState;
  page_selectedCell : option SelectedCell;
}.

(** [updateTrack]: the updater handed to [setTracks]. *)
Definition updateTrack (trackId : string) (updater : TrackState → TrackState)
    (prev : list TrackState) : list TrackState :=
  map (λ track, if String.eqb (track_id track) trackId then updater track else track) prev.

(** The updaters of the track card: [{ ...current, field: value }]. *)
Definition withName (value : string) (current : TrackState) : TrackState :=
  {| track_id := track_id current; track_name := value;
     track_instrument := track_instrument current;
     track_pattern := track_pattern current;
     track_volume := track_volume current; track_muted := track_muted current |}.

Definition withInstrument (value : string) (current : TrackState) : TrackState :=
  {| track_id := track_id current; track_name := track_name current;
     track_instrument := value;
     track_pattern := track_pattern current;
     track_volume := track_volume current; track_muted := track_muted current |}.

Definition withVolume (value : float) (current : TrackState) : TrackState :=
  {| track_id := track_id current; track_name := track_name current;
     track_instrument := track_instrument current;
     track_pattern := track_pattern current;
     track_volume := value; track_muted := track_muted current |}.

Definition withMuted (value : bool) (current : TrackState) : TrackState :=
  {| track_id := track_id current; track_name := track_name current;
     track_instrument := track_instrument current;
     track_pattern := track_pattern current;
     track_volume := track_volume current; track_muted := value |}.

Definition withPattern (value : TrackPattern) (current : TrackState) : TrackState :=
  {| track_id := track_id current; track_name := track_name current;
     track_instrument := track_instrument current;
     track_pattern := value;
     track_volume := track_volume current; track_muted := track_muted current |}.

(** The handlers of the card of [track], as updaters of the track list. *)
Definition handleNameChange (track : TrackState) (value : string)
    : list TrackState → list TrackState :=
  updateTrack (track_id track) (withName value).

Definition handleInstrumentChange (track : TrackState) (value : string)
    : list TrackState → list TrackState :=
  updateTrack (track_id track) (withInstrument value).

Definition handleVolumeChange (track : TrackState) (value : float)
    : list TrackState → list TrackState :=
  updateTrack (track_id track) (withVolume value).

Definition handleMuteToggle (track : TrackState) : list TrackState → list TrackState :=
  updateTrack (track_id track) (λ current, withMuted (negb (track_muted current)) current).

(** [removeTrack]: the tracks of that id go, and a selection on that id
    is dropped. *)
Definition removeTrack (trackId : string) (page : Page) : Page :=
  {| page_tracks :=
       List.filter (λ track, negb (String.eqb (track_id track) trackId)) (page_tracks page);
     page_selectedCell :=
       match page_selectedCell page with
       | Some prev => if String.eqb (sel_trackId prev) trackId then None else Some prev
       | None => None
       end |}.

Section AddTrack.
(** The ids of the instrument definitions, in their order (a constant of
    the instrument library). *)
Variable INSTRUMENTS : list string.
(** The pattern [createEmptyPattern()] of the music library returns. *)
Variable emptyPattern : TrackPattern.

(** [createTrack(index)]; [newId] is what [createId()] drew. *)
Definition createTrack (newId : string) (index : nat) : TrackState :=
  {| track_id := newId;
     track_name := "Track " +:+ pretty (index + 1);
     track_instrument :=
       default "dream-pad"%string (INSTRUMENTS !! (index mod List.length INSTRUMENTS));
     track_pattern := emptyPattern;
     track_volume := (-8)%float;
     track_muted := false |}.

(** [addTrack]: [[...prev, createTrack(prev.length)]]. *)
Definition addTrack (newId : string) (page : Page) : Page :=
  {| page_tracks :=
       page_tracks page ++ [createTrack newId (List.length (page_tracks page))];
     page_selectedCell := page_selectedCell page |}.

(** [handleClearTrack] of the card of [track]. *)
Definition handleClearTrack (track : TrackState) : list TrackState → list TrackState :=
  updateTrack (track_id track) (withPattern emptyPattern).

End AddTrack.

(** [handleVelocityChange(value)]: the velocity of the selected cell of
    the selected track is replaced. *)
Definition handleVelocityChange (value : float) (page : Page) : Page :=
  match page_selectedCell page with
  | None => page
  | Some selectedCell =>
      {| page_tracks :=
           updateTrack (sel_trackId selectedCell)
             (λ track,
                withPattern
                  (imap (λ rowIdx row,
                     imap (λ stepIdx cell,
                       if (rowIdx =? sel_row selectedCell) && (stepIdx =? sel_step selectedCell)
                       then {| active := active cell; cell_velocity := Some value |}
                       else cell)
                       row)
                     (track_pattern track))
                  track)
             (page_tracks page);
         page_selectedCell := page_selectedCell page |}
  end.

(** What the inspector shows: the selected cell with its pitch label and
    its track. *)
Record SelectedNote : Type := {
  sn_active : bool;
  sn_velocity : option float;
  sn_note : option string;
  sn_track : TrackState;
}.

Section Inspector.
Variable NOTE_NAMES : list string.

(** The memo [selectedNote]: [null] without a selection, without a track
    of the selected id, without a cell at the selected place, and for an
    inactive cell. *)
Definition selectedNote (page : Page) : option SelectedNote :=
  match page_selectedCell page with
  | None => None
  | Some selectedCell =>
      match List.find (λ item, String.eqb (track_id item) (sel_trackId selectedCell))
              (page_tracks page) with
      | None => None
      | Some track =>
          match track_pattern track !! sel_row selectedCell
                  ≫= (λ row, row !! sel_step selectedCell) with
          | None => None
          | Some cell =>
              if negb (active cell) then None
              else Some {| sn_active := active cell;
                           sn_velocity := cell_velocity cell;
                           sn_note := NOTE_NAMES !! sel_row selectedCell;
                           sn_track := track |}
          end
      end
  end.

End Inspector.

(** The number the velocity slider of the inspector shows:
    [Math.round(selectedNote.velocity * 127)]. *)
Definition shownVelocity (velocity : float) : float :=
  Math_round (PrimFloat.mul velocity 127).

(** The integer [n] as a double, as [Number] reads it from the slider. *)
Fixpoint floatOfNat (n : nat) : float :=
  match n with
  | O => 0%float
  | S n' => PrimFloat.add (floatOfNat n') 1
  end.

(** [handleCellInteraction(row, step)] of the card of [track]: the cell
    is read from the card's track (reading a cell of a missing row, or the
    flag of a missing cell, throws), then toggled to the opposite state
    and selected when it became active. *)
Definition handleCellInteraction (track : TrackState) (row step : nat) (page : Page)
    : completion Page :=
  match track_pattern track !! row with
  | None => Throw "TypeError: Cannot read properties of undefined"
  | Some cells =>
      match cells !! step with
      | None => Throw "TypeError: Cannot read properties of undefined (reading 'active')"
      | Some cell =>
          let nextActive := negb (active cell) in
          match toggleCell (track_id track) (Z.of_nat row) (Z.of_nat step)
                  (Some nextActive) (page_tracks page) with
          | Throw e => Throw e
          | Normal tracks' =>
              Normal {| page_tracks := tracks';
                        page_selectedCell :=
                          if nextActive
                          then Some {| sel_trackId := track_id track;
                                       sel_row := row; sel_step := step |}
                          else None |}
          end
      end
  end.

(** The double click on a cell of the card of [track]: the cell is
    switched off and the selection dropped. *)
Definition handleCellDoubleClick (track : TrackState) (row step : nat) (page : Page)
    : completion Page :=
  match toggleCell (track_id track) (Z.of_nat row) (Z.of_nat step) (Some false)
          (page_tracks page) with
  | Throw e => Throw e
  | Normal tracks' => Normal {| page_tracks := tracks'; page_selectedCell := None |}
  end.

(** [stopPlayback]: the transport, if the audio engine was ever loaded,
    is stopped and rewound; every part and synth is disposed. *)
Definition stopPlayback (toneLoaded : bool) (s : Playback) : Playback :=
  {| transport :=
       if toneLoaded
       then {| bpm := bpm (transport s);
               swing := swing (transport s);
               swingSubdivision := swingSubdivision (transport s);
               loopEnd := loopEnd (transport s);
               loop := loop (transport s);
               position := 0%Z;
               started := false |}
       else transport s;
     parts := [];
     synths := ∅;
     isPlaying := false;
     status := "Stopped" |}.

(** ** Further vocabulary *)

(** The number of active cells of a row. *)
Definition activeCount (row : list NoteCell) : nat :=
  List.length (List.filter active row).

(** The sum of the durations of a list of events. *)
Definition totalDuration (events : list SequencerEvent) : nat :=
  foldr (λ e n, durationSteps e + n) 0 events.

(** Step [s] starts a run of [row]: its cell is active and the cell
    before it, if any, is not. *)
Definition runStart (row : list NoteCell) (s : nat) : Prop :=
  activeAt row s = true ∧ (s = 0 ∨ activeAt row (s - 1) = false).

(** The page has a track of every id a selection names. *)
Definition selectionValid (page : Page) : Prop :=
  ∀ c, page_selectedCell page = Some c →
       ∃ track, track ∈ page_tracks page ∧ track_id track = sel_trackId c.

(** The calls of a track that are [setTempo] calls. *)
Definition isSetTempo (c : MidiCall) : bool :=
  match c with
  | setTempo _ => true
  | _ => false
  end.

Definition isSetInstrument (c : MidiCall) : bool :=
  match c with
  | setInstrument _ _ => true
  | _ => false
  end.

(** The note calls of a track with their absolute ticks: kind, label,
    tick, velocity. *)
Fixpoint absoluteNotes (cursor : Z) (calls : list MidiCall)
    : list (SubEventType * string * Z * float) :=
  match calls with
  | [] => []
  | noteOn _ label delta v :: rest =>
      (on, label, (cursor + delta)%Z, v) :: absoluteNotes (cursor + delta)%Z rest
  | noteOff _ label delta v :: rest =>
      (off, label, (cursor + delta)%Z, v) :: absoluteNotes (cursor + delta)%Z rest
  | _ :: rest => absoluteNotes cursor rest
  end.

(** The event [e] of a row with its velocity read again from the cell at
    its first step in [row']. *)
Definition rereadVelocity (row' : list NoteCell) (e : SequencerEvent) : SequencerEvent :=
  {| step := step e;
     durationSteps := durationSteps e;
     note := note e;
     velocity := default 0.8%float (row' !! step e ≫= cell_velocity) |}.

(** An event without its velocity. *)
Definition eventShape (e : SequencerEvent) : nat * nat * option string :=
  (step e, durationSteps e, note e).

(** The cell [toggleCell] builds in place of the cell it addresses. *)
Definition toggledCell (forceState : option bool) (cell : NoteCell) : NoteCell :=
  {| active := default (negb (active cell)) forceState;
     cell_velocity := Some (default 0.8%float (cell_velocity cell)) |}.

(** The pattern with the cell at [row], [step] (if any) toggled. *)
Definition togglePattern (row step : Z) (forceState : option bool)
    (pattern : TrackPattern) : TrackPattern :=
  imap (λ rowIdx noteRow,
    imap (λ stepIdx cell,
      if (Z.of_nat rowIdx =? row)%Z && (Z.of_nat stepIdx =? step)%Z
      then toggledCell forceState cell else cell)
      noteRow)
    pattern.

(** Every cell of every track stores a velocity. *)
Definition velocitiesStored (tracks : list TrackState) : Prop :=
  ∀ track row cell, track ∈ tracks → row ∈ track_pattern track → cell ∈ row →
    is_Some (cell_velocity cell).

(** A second, muted track with one active cell. *)
Definition sampleTrack2 : TrackState :=
  {| track_id := "t2";
     track_name := "Track 2";
     track_instrument := "bass";
     track_pattern := [[cellOff; cellOn 0.8]];
     track_volume := 0%float;
     track_muted := true |}.

(** A labelled sub-event as a note with its absolute tick. *)
Definition noteOfSub (se : MidiSubEvent) : SubEventType * string * Z * float :=
  (type se, toLowerCase (default ""%string (sub_note se)), tick se, sub_velocity se).

(** The sub-events of one tick and one kind. *)
Definition atTick (t : Z) (k : SubEventType) (se : MidiSubEvent) : bool :=
  (tick se =? t)%Z && SubEventType_eqb (type se) k.

(** The message of the error thrown for an event without a pitch label. *)
Definition noLabelError : string :=
  "TypeError: Cannot read properties of undefined (reading 'toLowerCase')".

(** What emitting a list of sub-events throws, if it throws: the error of
    the first sub-event that has no label or a label the writer rejects. *)
Fixpoint firstError (noteError : string → option string) (events : list MidiSubEvent)
    : option string :=
  match events with
  | [] => None
  | e :: rest =>
      match sub_note e with
      | None => Some noLabelError
      | Some label =>
          match noteError (toLowerCase label) with
          | Some error => Some error
          | None => firstError noteError rest
          end
      end
  end.

(** The two notes an event is exported as, with their absolute ticks. *)
Definition notesOf (e : SequencerEvent) : list (SubEventType * string * Z * float) :=
  noteOfSub <$> toSubEvents e.

(** A writer that rejects the label h2 and accepts every other. *)
Definition sampleWriter (label : string) : option string :=
  if String.eqb label "h2"
  then Some "TypeError: Cannot read properties of null (reading '1')"%string
  else None.

(** * Properties of the extraction *)

Example round_default_velocity : Math_round (PrimFloat.mul 0.8 127) = 102%float.
Proof. reflexivity. Qed.

(** Ties go up, also below zero; the largest double below one half goes
    to zero. *)
Example Math_round_samples :
  Math_round 2.5 = 3%float ∧ Math_round (-2.5) = (-2)%float
  ∧ Math_round 0.5 = 1%float ∧ Math_round (-0.5) = (-0)%float
  ∧ Math_round 0x1.fffffffffffffp-2 = 0%float
  ∧ Math_round (PrimFloat.mul 1 127) = 127%float
  ∧ Math_round (PrimFloat.mul 0.08 127) = 10%float.
Proof. repeat split; reflexivity. Qed.

Example extract_sampleRow :
  extractTrackEvents sampleNames [sampleRow]
  = [sampleEvent2; sampleEvent7].
Proof. reflexivity. Qed.

(** Other velocities inside a run change no event. *)
Example extract_sampleRow' :
  extractTrackEvents sampleNames [sampleRow'] = [sampleEvent2; sampleEvent7].
Proof. reflexivity. Qed.

Example stepToTransportTime_samples :
  stepToTransportTime 20 = "1:1:0"%string ∧ stepToTransportTime 0 = "0:0:0"%string.
Proof. split; reflexivity. Qed.


Section ExtractFacts.
Variable NOTE_NAMES : list string.

Lemma activeAt_Some (row : list NoteCell) (i : nat) :
  activeAt row i = true ↔ ∃ cell, row !! i = Some cell ∧ active cell = true.
Proof.
  unfold activeAt. destruct (row !! i) as [cell|]; split.
  - intros H. by exists cell.
  - by intros (c & [= <-] & H).
  - done.
  - by intros (c & ? & _).
Qed.

Lemma activeAt_lt (row : list NoteCell) (i : nat) :
  activeAt row i = true → i < List.length row.
Proof.
  intros (cell & Hc & _)%activeAt_Some. by eapply lookup_lt_Some.
Qed.

Lemma activeAt_drop (row : list NoteCell) (s i : nat) :
  activeAt (drop s row) i = activeAt row (s + i).
Proof. unfold activeAt. by rewrite lookup_drop. Qed.

Lemma leadingActive_all (cells : list NoteCell) (i : nat) :
  i < leadingActive cells → activeAt cells i = true.
Proof.
  revert i. induction cells as [|c cells IH]; intros i Hi; simpl in *; [lia|].
  destruct (active c) eqn:Hc; [|lia].
  destruct i as [|i]; [done|]. apply IH. lia.
Qed.

Lemma leadingActive_end (cells : list NoteCell) :
  activeAt cells (leadingActive cells) = false.
Proof.
  induction cells as [|c cells IH]; simpl; [done|].
  destruct (active c) eqn:Hc; [exact IH|]. unfold activeAt. simpl. done.
Qed.

Lemma runLength_all (row : list NoteCell) (s i : nat) :
  i < runLength row s → activeAt row (s + i) = true.
Proof. intros Hi. rewrite <- activeAt_drop. by apply leadingActive_all. Qed.

Lemma runLength_end (row : list NoteCell) (s : nat) :
  activeAt row (s + runLength row s) = false.
Proof. rewrite <- activeAt_drop. apply leadingActive_end. Qed.

Lemma runLength_active (row : list NoteCell) (s : nat) :
  activeAt row s = true → runLength row s = S (runLength row (S s)).
Proof.
  intros (cell & Hc & Ha)%activeAt_Some. unfold runLength.
  rewrite (drop_S _ _ _ Hc). simpl. by rewrite Ha.
Qed.

Lemma runLength_inactive (row : list NoteCell) (s : nat) :
  activeAt row s = false → runLength row s = 0.
Proof.
  unfold activeAt, runLength. destruct (row !! s) as [cell|] eqn:Hc.
  - intros Ha. rewrite (drop_S _ _ _ Hc). simpl. by rewrite Ha.
  - intros _. rewrite drop_ge; [done|]. by apply lookup_ge_None.
Qed.

(** The inner loop computes the length of the run it starts in. *)
Lemma extendRun_spec (fuel : nat) (row : list NoteCell) (s len : nat) :
  List.length row ≤ s + len + fuel →
  extendRun fuel row s len = len + runLength row (s + len).
Proof.
  revert len. induction fuel as [|fuel IH]; intros len Hfuel; simpl.
  - rewrite runLength_inactive; [lia|].
    unfold activeAt. rewrite lookup_ge_None_2; [done|lia].
  - destruct (s + len <? List.length row) eqn:Hlt; simpl.
    + destruct (activeAt row (s + len)) eqn:Ha.
      * rewrite IH by lia. rewrite (runLength_active _ _ Ha).
        replace (s + (len + 1)) with (S (s + len)) by lia. lia.
      * rewrite (runLength_inactive _ _ Ha). lia.
    + apply Nat.ltb_ge in Hlt. rewrite runLength_inactive; [lia|].
      unfold activeAt. rewrite lookup_ge_None_2; [done|lia].
Qed.

Lemma scanRow_acc (fuel : nat) (row : list NoteCell) (ri s : nat)
    (events : list SequencerEvent) :
  scanRow NOTE_NAMES fuel row ri s events
  = events ++ scanRow NOTE_NAMES fuel row ri s [].
Proof.
  revert s events. induction fuel as [|fuel IH]; intros s events; simpl.
  - by rewrite app_nil_r.
  - destruct (s <? List.length row); [|by rewrite app_nil_r].
    destruct (row !! s) as [cell|]; [|by rewrite app_nil_r].
    destruct (negb (active cell)); [apply IH|].
    rewrite IH. rewrite (IH _ [_]). by rewrite <- app_assoc.
Qed.

Lemma scanRow_end (fuel : nat) (row : list NoteCell) (ri s : nat) :
  List.length row ≤ s → scanRow NOTE_NAMES fuel row ri s [] = [].
Proof.
  intros Hs. destruct fuel; simpl; [done|].
  apply Nat.ltb_ge in Hs. by rewrite Hs.
Qed.

Lemma scanRow_inactive (fuel : nat) (row : list NoteCell) (ri s : nat) (cell : NoteCell) :
  row !! s = Some cell → active cell = false →
  scanRow NOTE_NAMES (S fuel) row ri s [] = scanRow NOTE_NAMES fuel row ri (S s) [].
Proof.
  intros Hc Ha. simpl. pose proof (lookup_lt_Some _ _ _ Hc) as Hlt.
  apply Nat.ltb_lt in Hlt. rewrite Hlt, Hc, Ha. simpl.
  by replace (s + 1) with (S s) by lia.
Qed.

Lemma scanRow_active (fuel : nat) (row : list NoteCell) (ri s : nat) (cell : NoteCell) :
  row !! s = Some cell → active cell = true →
  scanRow NOTE_NAMES (S fuel) row ri s []
  = runEvent NOTE_NAMES row ri s cell
    :: scanRow NOTE_NAMES fuel row ri (s + S (runLength row (S s))) [].
Proof.
  intros Hc Ha. simpl. pose proof (lookup_lt_Some _ _ _ Hc) as Hlt.
  apply Nat.ltb_lt in Hlt. rewrite Hlt, Hc, Ha. simpl.
  rewrite extendRun_spec by lia. rewrite scanRow_acc. simpl.
  unfold runEvent. by replace (s + 1) with (S s) by lia.
Qed.

(** Induction along the scan of a row: the three moves of the loop. *)
Lemma scanRow_ind (row : list NoteCell) (ri : nat)
    (P : nat → list SequencerEvent → Prop) :
  (∀ s, List.length row ≤ s → P s []) →
  (∀ s cell out, row !! s = Some cell → active cell = false →
     P (S s) out → P s out) →
  (∀ s cell out, row !! s = Some cell → active cell = true →
     P (s + S (runLength row (S s))) out → P s (runEvent NOTE_NAMES row ri s cell :: out)) →
  ∀ fuel s, List.length row ≤ s + fuel → P s (scanRow NOTE_NAMES fuel row ri s []).
Proof.
  intros Hend Hskip Hrun. induction fuel as [|fuel IH]; intros s Hfuel.
  - rewrite scanRow_end by lia. apply Hend. lia.
  - destruct (row !! s) as [cell|] eqn:Hc.
    + destruct (active cell) eqn:Ha.
      * rewrite (scanRow_active _ _ _ _ _ Hc Ha). eapply Hrun; [done..|].
        apply IH. lia.
      * rewrite (scanRow_inactive _ _ _ _ _ Hc Ha). eapply Hskip; [done..|].
        apply IH. lia.
    + apply lookup_ge_None in Hc. rewrite scanRow_end by done. by apply Hend.
Qed.

(** The loop over a row has ended when the fuel is the length of the
    row: more fuel gives the same events. *)
Lemma scanRow_fuel (row : list NoteCell) (ri fuel fuel' s : nat) :
  List.length row ≤ s + fuel → List.length row ≤ s + fuel' →
  scanRow NOTE_NAMES fuel' row ri s [] = scanRow NOTE_NAMES fuel row ri s [].
Proof.
  intros Hfuel. revert fuel'.
  apply (scanRow_ind row ri (λ s out, ∀ fuel', List.length row ≤ s + fuel' →
    scanRow NOTE_NAMES fuel' row ri s [] = out)); [| | |done]; clear s fuel Hfuel.
  - intros s Hs fuel' _. by apply scanRow_end.
  - intros s cell out Hc Ha IH fuel' Hfuel'.
    pose proof (lookup_lt_Some _ _ _ Hc).
    destruct fuel' as [|fuel']; [lia|].
    rewrite (scanRow_inactive _ _ _ _ _ Hc Ha). apply IH. lia.
  - intros s cell out Hc Ha IH fuel' Hfuel'.
    pose proof (lookup_lt_Some _ _ _ Hc).
    destruct fuel' as [|fuel']; [lia|].
    rewrite (scanRow_active _ _ _ _ _ Hc Ha). f_equal. apply IH. lia.
Qed.

Lemma scanRow_sound (row : list NoteCell) (ri fuel s : nat) (e : SequencerEvent) :
  List.length row ≤ s + fuel →
  e ∈ scanRow NOTE_NAMES fuel row ri s [] →
  s ≤ step e ∧
  ∃ cell, row !! step e = Some cell ∧ active cell = true ∧
          e = runEvent NOTE_NAMES row ri (step e) cell ∧
          (step e = s ∨ activeAt row (step e - 1) = false).
Proof.
  intros Hfuel. revert e.
  apply (scanRow_ind row ri (λ s out, ∀ e, e ∈ out → s ≤ step e ∧
    ∃ cell, row !! step e = Some cell ∧ active cell = true ∧
            e = runEvent NOTE_NAMES row ri (step e) cell ∧
            (step e = s ∨ activeAt row (step e - 1) = false))); [| | |done];
    clear s fuel Hfuel.
  - intros s _ e He. by apply elem_of_nil in He.
  - intros s cell out Hc Ha IH e He.
    destruct (IH e He) as (Hle & c & Hec & Hac & Heq & Hb).
    split; [lia|]. exists c. repeat split; try done.
    right. destruct Hb as [Hb|Hb]; [|done].
    rewrite Hb. replace (S s - 1) with s by lia.
    unfold activeAt. by rewrite Hc.
  - intros s cell out Hc Ha IH e He.
    apply elem_of_cons in He as [->|He].
    + simpl. split; [done|]. exists cell. repeat split; try done. by left.
    + destruct (IH e He) as (Hle & c & Hec & Hac & Heq & Hb).
      split; [lia|]. exists c. repeat split; try done.
      right. destruct Hb as [Hb|Hb]; [|done].
      pose proof (runLength_end row (S s)) as Hend.
      replace (S s + runLength row (S s)) with (step e) in Hend by lia.
      unfold activeAt in Hend. rewrite Hec, Hac in Hend. done.
Qed.

Lemma scanRow_sorted (row : list NoteCell) (ri fuel s : nat) :
  List.length row ≤ s + fuel →
  Forall (λ e, s ≤ step e ∧ activeAt row (step e) = true)
    (scanRow NOTE_NAMES fuel row ri s [])
  ∧ StronglySorted apart (scanRow NOTE_NAMES fuel row ri s []).
Proof.
  apply (scanRow_ind row ri (λ s out,
    Forall (λ e, s ≤ step e ∧ activeAt row (step e) = true) out
    ∧ StronglySorted apart out)).
  - intros s' _. split; constructor.
  - intros s' cell out Hc Ha [Hall Hsorted]. split; [|done].
    eapply Forall_impl; [exact Hall|]. simpl. intros e [? ?]. split; [lia|done].
  - intros s' cell out Hc Ha [Hall Hsorted].
    pose proof (runLength_end row (S s')) as Hend.
    split.
    + constructor.
      * simpl. split; [done|]. unfold activeAt. by rewrite Hc.
      * eapply Forall_impl; [exact Hall|]. simpl. intros e [? ?]. split; [lia|done].
    + constructor; [done|].
      eapply Forall_impl; [exact Hall|]. simpl. intros e [Hle Hact].
      unfold apart. simpl.
      destruct (decide (step e = s' + S (runLength row (S s')))) as [Heq|Hne]; [|lia].
      replace (S s' + runLength row (S s')) with (step e) in Hend by lia.
      congruence.
Qed.

Lemma scanRow_complete (row : list NoteCell) (ri fuel s t : nat) :
  List.length row ≤ s + fuel →
  s ≤ t → activeAt row t = true → (t = s ∨ activeAt row (t - 1) = false) →
  ∃ e, e ∈ scanRow NOTE_NAMES fuel row ri s [] ∧ step e = t.
Proof.
  intros Hfuel. revert t.
  apply (scanRow_ind row ri (λ s out, ∀ t, s ≤ t → activeAt row t = true →
    (t = s ∨ activeAt row (t - 1) = false) → ∃ e, e ∈ out ∧ step e = t));
    [| | |done]; clear s fuel Hfuel.
  - intros s Hs t Hle Hact _. apply activeAt_lt in Hact. lia.
  - intros s cell out Hc Ha IH t Hle Hact Hb.
    assert (t ≠ s) as Hne.
    { intros ->. unfold activeAt in Hact. rewrite Hc in Hact. congruence. }
    apply IH; [lia|done|]. right. destruct Hb; [done|done].
  - intros s cell out Hc Ha IH t Hle Hact Hb.
    destruct (decide (t = s)) as [->|Hne].
    { exists (runEvent NOTE_NAMES row ri s cell). split; [by left|done]. }
    destruct Hb as [Hb|Hb]; [done|].
    assert (s + S (runLength row (S s)) ≤ t) as Hfar.
    { destruct (decide (s + S (runLength row (S s)) ≤ t)) as [|Hnear]; [done|].
      exfalso. destruct (decide (t - 1 = s)) as [Hs|Hs].
      - rewrite Hs in Hb. unfold activeAt in Hb. rewrite Hc in Hb. congruence.
      - pose proof (runLength_all row (S s) (t - 1 - S s)) as Hall.
        replace (S s + (t - 1 - S s)) with (t - 1) in Hall by lia.
        rewrite Hall in Hb; [done|lia]. }
    destruct (IH t Hfar Hact (or_intror Hb)) as (e & He & Hst).
    exists e. split; [by right|done].
Qed.

Lemma maximalRun_unique (row : list NoteCell) (s d d' : nat) :
  maximalRun row s d → maximalRun row s d' → d = d'.
Proof.
  intros (Hd & Hall & _ & Hend) (Hd' & Hall' & _ & Hend').
  destruct (Nat.lt_trichotomy d d') as [Hlt|[->|Hlt]]; [|done|].
  - rewrite Hall' in Hend; [done|lia].
  - rewrite Hall in Hend'; [done|lia].
Qed.

Lemma runEvent_maximal (row : list NoteCell) (ri s : nat) (cell : NoteCell) :
  row !! s = Some cell → active cell = true →
  (s = 0 ∨ activeAt row (s - 1) = false) →
  maximalRun row s (durationSteps (runEvent NOTE_NAMES row ri s cell)).
Proof.
  intros Hc Ha Hb. simpl. repeat split; [lia| |done|].
  - intros i Hi. destruct (decide (i = s)) as [->|Hne].
    + unfold activeAt. by rewrite Hc.
    + replace i with (S s + (i - S s)) by lia. apply runLength_all. lia.
  - replace (s + S (runLength row (S s))) with (S s + runLength row (S s)) by lia.
    apply runLength_end.
Qed.

Lemma rowEvents_sound (row : list NoteCell) (ri : nat) (e : SequencerEvent) :
  e ∈ rowEvents NOTE_NAMES row ri →
  ∃ cell, row !! step e = Some cell ∧ active cell = true ∧
          e = runEvent NOTE_NAMES row ri (step e) cell ∧
          maximalRun row (step e) (durationSteps e).
Proof.
  intros He. apply scanRow_sound in He as (_ & cell & Hc & Ha & Heq & Hb); [|lia].
  pose proof (runEvent_maximal row ri (step e) cell Hc Ha Hb) as Hmax.
  rewrite <- Heq in Hmax. by exists cell.
Qed.

Lemma rowEvents_sorted (row : list NoteCell) (ri : nat) :
  StronglySorted apart (rowEvents NOTE_NAMES row ri).
Proof. apply scanRow_sorted. lia. Qed.

Lemma rowEvents_complete (row : list NoteCell) (ri s d : nat) :
  maximalRun row s d →
  ∃ e, e ∈ rowEvents NOTE_NAMES row ri ∧ step e = s ∧ durationSteps e = d.
Proof.
  intros Hrun. pose proof Hrun as (Hd & Hall & Hb & Hend).
  destruct (scanRow_complete row ri (List.length row) 0 s) as (e & He & Hs);
    [lia|lia|apply Hall; lia| |].
  { destruct Hb; [by left|by right]. }
  exists e. repeat split; try done.
  apply rowEvents_sound in He as (_ & _ & _ & _ & Hmax).
  rewrite Hs in Hmax. by eapply maximalRun_unique.
Qed.

Lemma sorted_lookup {A} (R : A → A → Prop) (l : list A) (i j : nat) (a b : A) :
  StronglySorted R l → i < j → l !! i = Some a → l !! j = Some b → R a b.
Proof.
  intros Hs. revert i j a b.
  induction Hs as [|x l Hs IH Hall]; intros i j a b Hij Hi Hj.
  - by rewrite lookup_nil in Hi.
  - destruct j as [|j]; [lia|]. simpl in Hj. destruct i as [|i].
    + simpl in Hi. injection Hi as ->.
      rewrite Forall_forall in Hall. apply Hall.
      by eapply list_elem_of_lookup_2.
    + simpl in Hi. apply (IH i j); [lia|done..].
Qed.

Lemma forEachRow_spec (rows : list (list NoteCell)) (ri : nat)
    (events : list SequencerEvent) :
  forEachRow NOTE_NAMES rows ri events
  = events ++ concat (imap (λ i row, rowEvents NOTE_NAMES row (ri + i)) rows).
Proof.
  revert ri events. induction rows as [|row rows IH]; intros ri events; simpl.
  - by rewrite app_nil_r.
  - rewrite IH, scanRow_acc, <- app_assoc. f_equal.
    replace (ri + 0) with ri by lia. unfold rowEvents. f_equal. f_equal.
    apply imap_ext. intros i r _. simpl. f_equal. lia.
Qed.

Lemma extractTrackEvents_rows (pattern : TrackPattern) :
  extractTrackEvents NOTE_NAMES pattern
  = concat (imap (λ i row, rowEvents NOTE_NAMES row i) pattern).
Proof. unfold extractTrackEvents. by rewrite forEachRow_spec. Qed.

Lemma elem_of_forEachRow (rows : list (list NoteCell)) (ri : nat)
    (events : list SequencerEvent) (e : SequencerEvent) :
  e ∈ forEachRow NOTE_NAMES rows ri events ↔
  e ∈ events ∨ ∃ i row, rows !! i = Some row ∧ e ∈ rowEvents NOTE_NAMES row (ri + i).
Proof.
  revert ri events. induction rows as [|row rows IH]; intros ri events; simpl.
  - split; [by left|]. intros [?|(i & r & Hi & _)]; [done|].
    by rewrite lookup_nil in Hi.
  - rewrite IH, scanRow_acc, elem_of_app. fold (rowEvents NOTE_NAMES row ri). split.
    + intros [[?|He]|(i & r & Hi & He)].
      * by left.
      * right. exists 0, row. split; [done|]. by replace (ri + 0) with ri by lia.
      * right. exists (S i), r. split; [done|].
        by replace (ri + S i) with (S ri + i) by lia.
    + intros [?|(i & r & Hi & He)]; [by left; left|].
      destruct i as [|i]; simpl in Hi.
      * injection Hi as ->. left. right. by replace (ri + 0) with ri in He by lia.
      * right. exists i, r. split; [done|].
        by replace (ri + S i) with (S ri + i) in He by lia.
Qed.

Lemma elem_of_extractTrackEvents (pattern : TrackPattern) (e : SequencerEvent) :
  e ∈ extractTrackEvents NOTE_NAMES pattern ↔
  ∃ ri row, pattern !! ri = Some row ∧ e ∈ rowEvents NOTE_NAMES row ri.
Proof.
  unfold extractTrackEvents. rewrite elem_of_forEachRow. split.
  - intros [H|H]; [by apply elem_of_nil in H|done].
  - intros H. by right.
Qed.

Lemma rowEvents_inactive (row : list NoteCell) (ri : nat) :
  (∀ cell, cell ∈ row → active cell = false) → rowEvents NOTE_NAMES row ri = [].
Proof.
  intros Hoff. destruct (rowEvents NOTE_NAMES row ri) as [|e evs] eqn:Hevs; [done|].
  assert (e ∈ rowEvents NOTE_NAMES row ri) as He by (rewrite Hevs; left).
  apply rowEvents_sound in He as (cell & Hc & Ha & _).
  apply list_elem_of_lookup_2 in Hc. rewrite (Hoff _ Hc) in Ha. done.
Qed.

Lemma forEachRow_inactive (rows : list (list NoteCell)) (ri : nat)
    (events : list SequencerEvent) :
  (∀ row cell, row ∈ rows → cell ∈ row → active cell = false) →
  forEachRow NOTE_NAMES rows ri events = events.
Proof.
  revert ri events. induction rows as [|row rows IH]; intros ri events Hoff; simpl.
  - done.
  - rewrite IH.
    + rewrite scanRow_acc. fold (rowEvents NOTE_NAMES row ri).
      rewrite rowEvents_inactive; [by rewrite app_nil_r|].
      intros cell Hcell. apply (Hoff row); [left|done].
    + intros r cell Hr Hcell. apply (Hoff r); [by right|done].
Qed.

Lemma leadingActive_shape (cells cells' : list NoteCell) :
  active <$> cells = active <$> cells' → leadingActive cells = leadingActive cells'.
Proof.
  revert cells'. induction cells as [|c cells IH]; intros [|c' cells'] Heq;
    simpl in *; try done.
  injection Heq as Hc Hrest. rewrite Hc. destruct (active c'); [|done].
  f_equal. by apply IH.
Qed.

Lemma sameShape_runLength (row row' : list NoteCell) (s : nat) :
  sameShape row row' → runLength row s = runLength row' s.
Proof.
  intros Hshape. unfold runLength. apply leadingActive_shape.
  rewrite !fmap_drop. by rewrite Hshape.
Qed.

Lemma sameShape_activeAt (row row' : list NoteCell) (i : nat) :
  sameShape row row' → activeAt row i = activeAt row' i.
Proof.
  intros Hshape. unfold activeAt.
  pose proof (list_lookup_fmap active row i) as H.
  pose proof (list_lookup_fmap active row' i) as H'.
  rewrite Hshape, H' in H.
  destruct (row !! i), (row' !! i); simpl in H; congruence.
Qed.

Lemma sameShape_maximalRun (row row' : list NoteCell) (s d : nat) :
  sameShape row row' → maximalRun row s d → maximalRun row' s d.
Proof.
  intros Hshape (Hd & Hall & Hb & Hend). split; [done|]. split; [|split].
  - intros i Hi. rewrite <- (sameShape_activeAt row row') by done. by apply Hall.
  - destruct Hb as [?|Hb]; [by left|right].
    by rewrite <- (sameShape_activeAt row row').
  - by rewrite <- (sameShape_activeAt row row').
Qed.

(** A row active exactly at the steps 2, 3, 4 and 7. *)
Lemma rowEvents_2347 (row : list NoteCell) (ri : nat) :
  (∀ i, activeAt row i = true ↔ i ∈ [2; 3; 4; 7]) →
  (λ e, (step e, durationSteps e)) <$> rowEvents NOTE_NAMES row ri = [(2, 3); (7, 1)].
Proof.
  intros Hact.
  assert (∀ i, activeAt row i = true ↔ i = 2 ∨ i = 3 ∨ i = 4 ∨ i = 7) as Hon.
  { intros i. rewrite Hact, !elem_of_cons, elem_of_nil. tauto. }
  assert (∀ i, i ≠ 2 → i ≠ 3 → i ≠ 4 → i ≠ 7 → activeAt row i = false) as Hoff.
  { intros i ? ? ? ?. destruct (activeAt row i) eqn:Hi; [|done].
    apply Hon in Hi. lia. }
  assert (maximalRun row 2 3) as Hrun2.
  { split; [lia|]. split; [|split].
    - intros i Hi. apply Hon. lia.
    - right. apply Hoff; lia.
    - apply Hoff; lia. }
  assert (maximalRun row 7 1) as Hrun7.
  { split; [lia|]. split; [|split].
    - intros i Hi. apply Hon. lia.
    - right. apply Hoff; lia.
    - apply Hoff; lia. }
  assert (∀ e, e ∈ rowEvents NOTE_NAMES row ri →
            (step e = 2 ∧ durationSteps e = 3) ∨ (step e = 7 ∧ durationSteps e = 1))
    as Honly.
  { intros e (_ & _ & _ & _ & Hmax)%rowEvents_sound.
    pose proof Hmax as (Hd & Hall & Hb & _).
    assert (activeAt row (step e) = true) as Hs by (apply Hall; lia).
    apply Hon in Hs.
    assert (step e = 2 ∨ step e = 7) as [Hs2|Hs7].
    { destruct Hb as [Hb|Hb]; [lia|].
      destruct Hs as [?|[Hs|[Hs|?]]]; [by left| | |by right].
      - rewrite Hs in Hb. simpl in Hb. assert (activeAt row 2 = true) by (apply Hon; lia).
        congruence.
      - rewrite Hs in Hb. simpl in Hb. assert (activeAt row 3 = true) by (apply Hon; lia).
        congruence. }
    - left. split; [done|]. rewrite Hs2 in Hmax. by eapply maximalRun_unique.
    - right. split; [done|]. rewrite Hs7 in Hmax. by eapply maximalRun_unique. }
  destruct (rowEvents_complete row ri 2 3 Hrun2) as (e2 & He2 & Hs2 & Hd2).
  destruct (rowEvents_complete row ri 7 1 Hrun7) as (e7 & He7 & Hs7 & Hd7).
  pose proof (rowEvents_sorted row ri) as Hsorted.
  destruct (rowEvents NOTE_NAMES row ri) as [|a [|b [|c rest]]].
  - by apply elem_of_nil in He2.
  - apply list_elem_of_singleton in He2, He7. subst. lia.
  - inversion Hsorted as [|? ? _ Hab]; subst.
    apply Forall_cons in Hab as [Hab _]. unfold apart in Hab.
    destruct (Honly a ltac:(left)) as [[? ?]|[? ?]];
      destruct (Honly b ltac:(right; left)) as [[? ?]|[? ?]]; try lia.
    simpl. congruence.
  - inversion Hsorted as [|? ? Hsorted' Hab]; subst.
    inversion Hsorted' as [|? ? _ Hbc]; subst.
    apply Forall_cons in Hab as [Hab _]. apply Forall_cons in Hbc as [Hbc _].
    unfold apart in Hab, Hbc.
    destruct (Honly a ltac:(left)) as [[? ?]|[? ?]];
      destruct (Honly b ltac:(right; left)) as [[? ?]|[? ?]];
      destruct (Honly c ltac:(right; right; left)) as [[? ?]|[? ?]]; lia.
Qed.

End ExtractFacts.

(** C9: the events of a pattern are the events of row 0, then those of
    row 1, and so on; within a row the events are strictly increasing in
    [step] and an event ends at or before the start of every later one. *)
Theorem extract_rows_in_order (NOTE_NAMES : list string) (pattern : TrackPattern) :
  extractTrackEvents NOTE_NAMES pattern
  = concat (imap (λ rowIndex row, rowEvents NOTE_NAMES row rowIndex) pattern)
  ∧ ∀ rowIndex row i j e1 e2,
      pattern !! rowIndex = Some row →
      rowEvents NOTE_NAMES row rowIndex !! i = Some e1 →
      rowEvents NOTE_NAMES row rowIndex !! j = Some e2 →
      i < j →
      step e1 < step e2 ∧ step e1 + durationSteps e1 ≤ step e2.
Proof.
  split; [apply extractTrackEvents_rows|].
  intros rowIndex row i j e1 e2 _ Hi Hj Hij.
  pose proof (sorted_lookup apart _ i j e1 e2
                (rowEvents_sorted NOTE_NAMES row rowIndex) Hij Hi Hj) as Hapart.
  unfold apart in Hapart. lia.
Qed.

Lemma extract_rows_in_order_witness :
  step sampleEvent2 < step sampleEvent7
  ∧ step sampleEvent2 + durationSteps sampleEvent2 ≤ step sampleEvent7.
Proof.
  apply (proj2 (extract_rows_in_order sampleNames [sampleRow])
           0 sampleRow 0 1 sampleEvent2 sampleEvent7);
    [reflexivity|reflexivity|reflexivity|lia].
Defined.

(** C4: the events of a row are its maximal runs of active cells, one
    event per run, with [step] the first step of the run and
    [durationSteps] its length; a row active exactly at the steps 2, 3, 4
    and 7 gives the events (2, 3) and (7, 1), and a pattern with no active
    cell gives no event. *)
Theorem extract_one_event_per_run (NOTE_NAMES : list string) (pattern : TrackPattern) :
  extractTrackEvents NOTE_NAMES pattern
  = concat (imap (λ rowIndex row, rowEvents NOTE_NAMES row rowIndex) pattern)
  ∧ (∀ rowIndex row, pattern !! rowIndex = Some row →
       (∀ e, e ∈ rowEvents NOTE_NAMES row rowIndex →
             maximalRun row (step e) (durationSteps e))
       ∧ (∀ s d, maximalRun row s d →
            ∃ i e, rowEvents NOTE_NAMES row rowIndex !! i = Some e
                   ∧ step e = s ∧ durationSteps e = d
                   ∧ ∀ j e', rowEvents NOTE_NAMES row rowIndex !! j = Some e' →
                             step e' = s → j = i)
       ∧ ((∀ i, activeAt row i = true ↔ i ∈ [2; 3; 4; 7]) →
            (λ e, (step e, durationSteps e)) <$> rowEvents NOTE_NAMES row rowIndex
            = [(2, 3); (7, 1)]))
  ∧ ((∀ row cell, row ∈ pattern → cell ∈ row → active cell = false) →
       extractTrackEvents NOTE_NAMES pattern = []).
Proof.
  split; [apply extractTrackEvents_rows|]. split.
  - intros rowIndex row _. split; [|split].
    + intros e He. by apply rowEvents_sound in He as (_ & _ & _ & _ & Hmax).
    + intros s d Hrun.
      destruct (rowEvents_complete NOTE_NAMES row rowIndex s d Hrun)
        as (e & He & Hs & Hd).
      apply list_elem_of_lookup in He as [i Hi].
      exists i, e. split; [done|]. split; [done|]. split; [done|].
      intros j e' Hj Hs'.
      pose proof (rowEvents_sorted NOTE_NAMES row rowIndex) as Hsorted.
      destruct (Nat.lt_trichotomy j i) as [Hlt|[->|Hlt]]; [|done|].
      * pose proof (sorted_lookup apart _ j i e' e Hsorted Hlt Hj Hi) as Hap.
        unfold apart in Hap. lia.
      * pose proof (sorted_lookup apart _ i j e e' Hsorted Hlt Hi Hj) as Hap.
        unfold apart in Hap. lia.
    + apply rowEvents_2347.
  - intros Hoff. unfold extractTrackEvents. by apply forEachRow_inactive.
Qed.

Lemma sampleRow_active (i : nat) : activeAt sampleRow i = true ↔ i ∈ [2; 3; 4; 7].
Proof.
  rewrite !elem_of_cons, elem_of_nil.
  do 8 (destruct i as [|i]; [vm_compute; intuition (discriminate || lia)|]).
  vm_compute. intuition (discriminate || lia).
Qed.

Lemma extract_one_event_per_run_witness :
  (λ e, (step e, durationSteps e)) <$> rowEvents sampleNames sampleRow 0 = [(2, 3); (7, 1)]
  ∧ extractTrackEvents sampleNames [[cellOff; cellOff]; [cellOff; cellOff]] = [].
Proof.
  split.
  - apply (proj1 (proj2 (extract_one_event_per_run sampleNames [sampleRow])) 0 sampleRow);
      [reflexivity|apply sampleRow_active].
  - apply (proj2 (proj2 (extract_one_event_per_run sampleNames
                           [[cellOff; cellOff]; [cellOff; cellOff]]))).
    intros row cell Hrow Hcell.
    apply elem_of_cons in Hrow as [->|Hrow];
      [|apply list_elem_of_singleton in Hrow as ->];
      (apply elem_of_cons in Hcell as [->|Hcell];
       [reflexivity|apply list_elem_of_singleton in Hcell as ->; reflexivity]).
Defined.

(** * Properties of the sort *)

Section SortFacts.
Context {A : Type} (compare : A → A → Z).

Hypothesis le_total : ∀ a b, (notAfter compare) a b ∨ (notAfter compare) b a.
Hypothesis le_trans : ∀ a b c, (notAfter compare) a b → (notAfter compare) b c → (notAfter compare) a c.

Lemma insertSorted_Permutation (x : A) (l : list A) :
  JS.insertSorted compare x l ≡ₚ x :: l.
Proof.
  induction l as [|y l IH]; simpl; [done|].
  destruct (compare x y <=? 0)%Z; [done|].
  rewrite IH. apply perm_swap.
Qed.

Lemma sort_Permutation (l : list A) : JS.sort compare l ≡ₚ l.
Proof.
  induction l as [|x l IH]; simpl; [done|].
  by rewrite insertSorted_Permutation, IH.
Qed.

Lemma insertSorted_sorted (x : A) (l : list A) :
  StronglySorted (notAfter compare) l → StronglySorted (notAfter compare) (JS.insertSorted compare x l).
Proof.
  induction 1 as [|y l Hsorted IH Hall]; simpl.
  - repeat constructor.
  - destruct (compare x y <=? 0)%Z eqn:Hxy.
    + apply Z.leb_le in Hxy. constructor; [by constructor|].
      constructor; [done|].
      eapply Forall_impl; [exact Hall|]. intros z Hyz. by eapply le_trans.
    + apply Z.leb_gt in Hxy. constructor; [done|].
      rewrite insertSorted_Permutation. constructor; [|done].
      destruct (le_total x y) as [Hle|Hle]; [|done]. unfold notAfter in Hle. lia.
Qed.

Lemma sort_sorted (l : list A) : StronglySorted (notAfter compare) (JS.sort compare l).
Proof.
  induction l as [|x l IH]; simpl; [constructor|]. by apply insertSorted_sorted.
Qed.

End SortFacts.

(** * Properties of the MIDI export *)

Lemma compareSubEvents_le (a b : MidiSubEvent) :
  (compareSubEvents a b ≤ 0)%Z ↔ subLe a b.
Proof.
  unfold compareSubEvents, subLe.
  destruct (tick a =? tick b)%Z eqn:Ht.
  - apply Z.eqb_eq in Ht.
    destruct (type a), (type b); simpl; split; intros H; try lia;
      try (right; split; [done|]; auto; fail).
    destruct H as [H|[_ [H|H]]]; [lia|done|done].
  - apply Z.eqb_neq in Ht. split; intros H; [left; lia|].
    destruct H as [H|[H _]]; lia.
Qed.

Lemma subLe_total (a b : MidiSubEvent) : subLe a b ∨ subLe b a.
Proof.
  unfold subLe. destruct (Z.lt_trichotomy (tick a) (tick b)) as [?|[?|?]]; [by left; left| |by right; left].
  destruct (type a), (type b); auto.
Qed.

Lemma subLe_trans (a b c : MidiSubEvent) : subLe a b → subLe b c → subLe a c.
Proof.
  unfold subLe. intros [?|[? Hab]] [?|[? Hbc]]; try (left; lia).
  right. split; [lia|].
  destruct (type a), (type b), (type c); auto; destruct Hab, Hbc; done.
Qed.

Lemma StronglySorted_weaken {A} (R R' : A → A → Prop) (l : list A) :
  (∀ a b, R a b → R' a b) → StronglySorted R l → StronglySorted R' l.
Proof.
  intros HR. induction 1 as [|x l Hsorted IH Hall]; constructor; [done|].
  eapply Forall_impl; [exact Hall|]. intros y. apply HR.
Qed.

Lemma sortedSubEvents_sorted (events : list SequencerEvent) :
  StronglySorted subLe (sortedSubEvents events).
Proof.
  unfold sortedSubEvents.
  eapply StronglySorted_weaken; [|apply sort_sorted].
  - intros a b. apply compareSubEvents_le.
  - intros a b. destruct (subLe_total a b); [left|right]; by apply compareSubEvents_le.
  - intros a b c ?%compareSubEvents_le ?%compareSubEvents_le.
    apply compareSubEvents_le. by eapply subLe_trans.
Qed.

Lemma sortedSubEvents_Permutation (events : list SequencerEvent) :
  sortedSubEvents events ≡ₚ flat_map toSubEvents events.
Proof. apply sort_Permutation. Qed.

Lemma stripPrefix_Some (p s rest : string) :
  JS.stripPrefix p s = Some rest → s = (p ++ rest)%string.
Proof.
  revert s. induction p as [|a p IH]; intros s H; simpl in *.
  - by injection H as ->.
  - destruct s as [|b s]; [done|].
    destruct (Ascii.eqb a b) eqn:Hab; [|done].
    apply Ascii.eqb_eq in Hab as ->.
    change (String b s = String b (p +:+ rest)). f_equal. by apply IH.
Qed.

(** Replacing a pattern by itself changes nothing. *)
Lemma replace_same (p s : string) : JS.replace p p s = s.
Proof.
  induction s as [|c s IH].
  - simpl. destruct (JS.stripPrefix p "") as [rest|] eqn:Hp; [|done].
    by apply stripPrefix_Some in Hp.
  - simpl. destruct (JS.stripPrefix p (String c s)) as [rest|] eqn:Hp.
    + by apply stripPrefix_Some in Hp.
    + by rewrite IH.
Qed.

Lemma noteLabelToMidi_Some (label : string) :
  noteLabelToMidi (Some label) = Normal (toLowerCase label).
Proof. unfold noteLabelToMidi. by rewrite replace_same. Qed.

Lemma toLowerChar_fixed (c : ascii) : toLowerChar c = c ↔ isUpper c = false.
Proof.
  destruct c as [[] [] [] [] [] [] [] []]; vm_compute; split; congruence.
Qed.

Lemma toLowerCase_fixed (s : string) : toLowerCase s = s ↔ hasUpper s = false.
Proof.
  induction s as [|c s IH]; simpl; [done|].
  rewrite orb_false_iff, <- IH, <- toLowerChar_fixed. split.
  - intros [= Hc Hs]. done.
  - intros [-> ->]. done.
Qed.

Section EmitFacts.
Variable noteError : string → option string.

Lemma emitEvents_calls (events : list MidiSubEvent) (lastTick : Z) (calls : list MidiCall) :
  (emitEvents noteError events lastTick calls).1
  = calls ++ emittedCalls noteError lastTick events.
Proof.
  revert lastTick calls. induction events as [|e events IH]; intros lastTick calls.
  - simpl. by rewrite app_nil_r.
  - simpl. unfold mbind, Midi_bind, lift, call, callFor.
    destruct (sub_note e) as [label|]; simpl.
    + destruct (type e); simpl; destruct (noteError _); simpl;
        rewrite ?IH, <- ?app_assoc; done.
    + destruct (type e); simpl; by rewrite app_nil_r.
Qed.

Lemma emitEvents_throws (events : list MidiSubEvent) (lastTick : Z) (calls : list MidiCall)
    (error : string) :
  firstError noteError events = Some error →
  (emitEvents noteError events lastTick calls).2 = Throw error.
Proof.
  revert lastTick calls. induction events as [|e events IH]; intros lastTick calls; [done|].
  simpl. unfold mbind, Midi_bind, lift, call.
  destruct (sub_note e) as [label|]; simpl.
  - rewrite replace_same.
    destruct (noteError (toLowerCase label)) as [err|] eqn:Herr.
    + intros [= <-]. by destruct (type e).
    + intros Hrest. destruct (type e); simpl; by apply IH.
  - intros [= <-]. by destruct (type e).
Qed.

Lemma emitEvents_returns (events : list MidiSubEvent) (lastTick : Z)
    (calls : list MidiCall) :
  firstError noteError events = None →
  ∃ cursor, (emitEvents noteError events lastTick calls).2 = Normal cursor.
Proof.
  revert lastTick calls. induction events as [|e events IH]; intros lastTick calls.
  - by exists lastTick.
  - simpl. unfold mbind, Midi_bind, lift, call.
    destruct (sub_note e) as [label|]; simpl; [|done].
    rewrite replace_same.
    destruct (noteError (toLowerCase label)) as [err|] eqn:Herr; [done|].
    intros Hrest. destruct (type e); simpl; by apply IH.
Qed.

Lemma firstError_None (events : list MidiSubEvent) :
  firstError noteError events = None ↔ Forall (accepted noteError) events.
Proof.
  induction events as [|e events IH]; simpl.
  - split; [constructor|done].
  - rewrite Forall_cons, <- IH. unfold accepted.
    destruct (sub_note e) as [label|].
    + destruct (noteError (toLowerCase label)) as [err|] eqn:Herr.
      * split; [done|]. intros [(l & [= <-] & Hl) _]. congruence.
      * split; [|by intros [_ ?]]. intros Hrest. split; [|done]. by exists label.
    + split; [done|]. by intros [(l & ? & _) _].
Qed.

Lemma emitEvents_completes (events : list MidiSubEvent) (lastTick : Z)
    (calls : list MidiCall) :
  Forall (accepted noteError) events →
  ∃ cursor, (emitEvents noteError events lastTick calls).2 = Normal cursor.
Proof. intros Hall. by apply emitEvents_returns, firstError_None. Qed.

Lemma emittedPrefix_full (events : list MidiSubEvent) :
  Forall (accepted noteError) events → emittedPrefix noteError events = events.
Proof.
  induction 1 as [|e events (label & Hlabel & Hok) _ IH]; simpl; [done|].
  by rewrite Hlabel, replace_same, Hok, IH.
Qed.

Lemma emittedPrefix_lookup (events : list MidiSubEvent) (i : nat) (e : MidiSubEvent) :
  emittedPrefix noteError events !! i = Some e → events !! i = Some e.
Proof.
  revert i. induction events as [|x events IH]; intros i; simpl; [done|].
  destruct (sub_note x); [|done].
  destruct i as [|i]; simpl; [done|].
  destruct (noteError _); [done|apply IH].
Qed.

Lemma emittedPrefix_labelled (events : list MidiSubEvent) (e : MidiSubEvent) :
  e ∈ emittedPrefix noteError events → is_Some (sub_note e).
Proof.
  induction events as [|x events IH]; simpl; [by intros ?%elem_of_nil|].
  destruct (sub_note x) as [label|] eqn:Hx; [|by intros ?%elem_of_nil].
  intros [->|Hin]%elem_of_cons; [by rewrite Hx|].
  destruct (noteError _); [by apply elem_of_nil in Hin|by apply IH].
Qed.

Lemma emittedCalls_deltas (lastTick : Z) (events : list MidiSubEvent) :
  runningSums lastTick (deltas (emittedCalls noteError lastTick events))
  = tick <$> emittedPrefix noteError events.
Proof.
  revert lastTick. induction events as [|e events IH]; intros lastTick; simpl; [done|].
  destruct (sub_note e) as [label|]; [|done].
  unfold callFor. destruct (type e); simpl;
    (replace (lastTick + (tick e - lastTick))%Z with (tick e) by lia);
    f_equal; (destruct (noteError _); [done|apply IH]).
Qed.

Lemma emittedCalls_kinds (lastTick : Z) (events : list MidiSubEvent) :
  omap kindOf (emittedCalls noteError lastTick events)
  = type <$> emittedPrefix noteError events.
Proof.
  revert lastTick. induction events as [|e events IH]; intros lastTick; simpl; [done|].
  destruct (sub_note e) as [label|]; [|done].
  unfold callFor. destruct (type e) eqn:Ht; simpl; rewrite Ht; f_equal;
    (destruct (noteError _); [done|apply IH]).
Qed.


Lemma emittedCalls_labels (lastTick : Z) (events : list MidiSubEvent) :
  Some <$> labels (emittedCalls noteError lastTick events)
  = (λ e, toLowerCase <$> sub_note e) <$> emittedPrefix noteError events.
Proof.
  revert lastTick. induction events as [|e events IH]; intros lastTick; simpl; [done|].
  destruct (sub_note e) as [label|] eqn:Hlabel; [|done].
  unfold callFor. rewrite replace_same.
  destruct (type e); simpl; rewrite Hlabel; simpl; f_equal;
    (destruct (noteError _); [done|apply IH]).
Qed.

Lemma absoluteNotes_emitted (lastTick : Z) (events : list MidiSubEvent) :
  absoluteNotes lastTick (emittedCalls noteError lastTick events)
  = noteOfSub <$> emittedPrefix noteError events.
Proof.
  revert lastTick. induction events as [|e events IH]; intros lastTick; simpl; [done|].
  destruct (sub_note e) as [label|] eqn:Hlabel; [|done].
  unfold callFor. rewrite replace_same.
  destruct (type e) eqn:Ht; simpl;
    (replace (lastTick + (tick e - lastTick))%Z with (tick e) by lia);
    unfold noteOfSub at 1; rewrite Hlabel, Ht; simpl; f_equal;
    (destruct (noteError _); [done|apply IH]).
Qed.

End EmitFacts.

Lemma absoluteNotes_header (cursor : Z) (tempo : float) (index : nat) (track : TrackState)
    (calls : list MidiCall) :
  absoluteNotes cursor (trackHeader tempo index track ++ calls) = absoluteNotes cursor calls.
Proof. unfold trackHeader. by destruct (index =? 0). Qed.

Lemma toSubEvents_32 (event : SequencerEvent) :
  toSubEvents event
  = [ {| tick := Z.of_nat (step event) * 32; type := on; sub_note := note event;
         sub_velocity := Math_round (PrimFloat.mul (velocity event) 127) |};
      {| tick := Z.of_nat (step event + durationSteps event) * 32; type := off;
         sub_note := note event; sub_velocity := 0%float |} ].
Proof. unfold toSubEvents. change ticksPerStep with 32%Z. repeat f_equal. lia. Qed.

Section ExportFacts.
Variable noteError : string → option string.
Variable NOTE_NAMES : list string.

Lemma exportTrack_run (tempo : float) (index : nat) (track : TrackState) :
  exportTrack noteError NOTE_NAMES tempo index track []
  = ((emitEvents noteError
        (sortedSubEvents (extractTrackEvents NOTE_NAMES (track_pattern track))) 0
        (trackHeader tempo index track)).1,
     match (emitEvents noteError
              (sortedSubEvents (extractTrackEvents NOTE_NAMES (track_pattern track))) 0
              (trackHeader tempo index track)).2 with
     | Normal _ => Normal tt
     | Throw error => Throw error
     end).
Proof.
  unfold exportTrack, trackHeader, mbind, Midi_bind, call, mret, Midi_ret.
  destruct (index =? 0); simpl;
    by destruct (emitEvents _ _ _ _) as [calls [cursor|err]].
Qed.

Lemma exportTrack_calls (tempo : float) (index : nat) (track : TrackState) :
  (exportTrack noteError NOTE_NAMES tempo index track []).1
  = trackHeader tempo index track
    ++ emittedCalls noteError 0
         (sortedSubEvents (extractTrackEvents NOTE_NAMES (track_pattern track))).
Proof. rewrite exportTrack_run. simpl. apply emitEvents_calls. Qed.

Lemma exportTrack_outcome (tempo : float) (index : nat) (track : TrackState) :
  (exportTrack noteError NOTE_NAMES tempo index track []).2
  = match firstError noteError
            (sortedSubEvents (extractTrackEvents NOTE_NAMES (track_pattern track))) with
    | Some error => Throw error
    | None => Normal tt
    end.
Proof.
  rewrite exportTrack_run. simpl.
  destruct (firstError noteError _) as [error|] eqn:Hfirst.
  - by rewrite (emitEvents_throws _ _ _ _ _ Hfirst).
  - by destruct (emitEvents_returns _ _ 0 (trackHeader tempo index track) Hfirst)
      as [cursor ->].
Qed.

Lemma trackHeader_deltas (tempo : float) (index : nat) (track : TrackState) :
  deltas (trackHeader tempo index track) = []
  ∧ omap kindOf (trackHeader tempo index track) = []
  ∧ labels (trackHeader tempo index track) = [].
Proof. unfold trackHeader. by destruct (index =? 0). Qed.


Lemma exportTrack_deltas (tempo : float) (index : nat) (track : TrackState) :
  deltas (exportTrack noteError NOTE_NAMES tempo index track []).1
  = deltas (emittedCalls noteError 0
      (sortedSubEvents (extractTrackEvents NOTE_NAMES (track_pattern track)))).
Proof.
  rewrite exportTrack_calls. unfold deltas. rewrite omap_app.
  pose proof (trackHeader_deltas tempo index track) as [H _].
  unfold deltas in H. by rewrite H.
Qed.

Lemma exportTrack_kinds (tempo : float) (index : nat) (track : TrackState) :
  omap kindOf (exportTrack noteError NOTE_NAMES tempo index track []).1
  = type <$> emittedPrefix noteError
      (sortedSubEvents (extractTrackEvents NOTE_NAMES (track_pattern track))).
Proof.
  rewrite exportTrack_calls, omap_app.
  pose proof (trackHeader_deltas tempo index track) as (_ & H & _).
  rewrite H. apply emittedCalls_kinds.
Qed.

Lemma exportTrack_labels (tempo : float) (index : nat) (track : TrackState) :
  Some <$> labels (exportTrack noteError NOTE_NAMES tempo index track []).1
  = (λ e, toLowerCase <$> sub_note e) <$> emittedPrefix noteError
      (sortedSubEvents (extractTrackEvents NOTE_NAMES (track_pattern track))).
Proof.
  rewrite exportTrack_calls. unfold labels. rewrite omap_app.
  pose proof (trackHeader_deltas tempo index track) as (_ & _ & H).
  unfold labels in H. rewrite H. apply emittedCalls_labels.
Qed.

Lemma exportTrack_absoluteNotes (tempo : float) (index : nat) (track : TrackState) :
  absoluteNotes 0 (exportTrack noteError NOTE_NAMES tempo index track []).1
  = noteOfSub <$> emittedPrefix noteError
      (sortedSubEvents (extractTrackEvents NOTE_NAMES (track_pattern track))).
Proof.
  by rewrite exportTrack_calls, absoluteNotes_header, absoluteNotes_emitted.
Qed.

(** Every sub-event of a track is one of the two sub-events of an
    extracted event. *)
Lemma sortedSubEvents_event (events : list SequencerEvent) (se : MidiSubEvent) :
  se ∈ sortedSubEvents events ↔ ∃ e, e ∈ events ∧ se ∈ toSubEvents e.
Proof.
  rewrite sortedSubEvents_Permutation, list_elem_of_In, in_flat_map.
  split; intros (e & He & Hse); exists e; by rewrite ?list_elem_of_In in *.
Qed.

Lemma toSubEvents_note (e : SequencerEvent) (se : MidiSubEvent) :
  se ∈ toSubEvents e → sub_note se = note e.
Proof.
  unfold toSubEvents. rewrite !elem_of_cons, elem_of_nil. by intros [->|[->|[]]].
Qed.

(** Every sub-event of a track carries the label of an extracted event. *)
Lemma sortedSubEvents_note (events : list SequencerEvent) (se : MidiSubEvent) :
  se ∈ sortedSubEvents events → ∃ e, e ∈ events ∧ sub_note se = note e.
Proof.
  intros (e & He & Hse)%sortedSubEvents_event. exists e.
  split; [done|]. by apply toSubEvents_note.
Qed.

Lemma toSubEvents_in_sorted (events : list SequencerEvent) (e : SequencerEvent)
    (se : MidiSubEvent) :
  e ∈ events → se ∈ toSubEvents e → se ∈ sortedSubEvents events.
Proof. intros He Hse. apply sortedSubEvents_event. by exists e. Qed.

(** A pattern with a pitch label for each of its rows, each accepted by
    the writer: every sub-event is accepted. *)
Lemma extract_accepted (pattern : TrackPattern) :
  List.length pattern ≤ List.length NOTE_NAMES →
  writerAccepts noteError NOTE_NAMES →
  Forall (accepted noteError)
    (sortedSubEvents (extractTrackEvents NOTE_NAMES pattern)).
Proof.
  intros Hrows Hwriter. apply Forall_forall. intros se Hse.
  apply sortedSubEvents_note in Hse as (e & He & Hnote).
  apply elem_of_extractTrackEvents in He as (ri & row & Hrow & He).
  apply rowEvents_sound in He as (cell & _ & _ & Heq & _).
  rewrite Heq in Hnote. simpl in Hnote.
  destruct (lookup_lt_is_Some_2 NOTE_NAMES ri) as [label Hlabel].
  { apply lookup_lt_Some in Hrow. lia. }
  exists label. split; [by rewrite Hnote|].
  apply Hwriter. by eapply list_elem_of_lookup_2.
Qed.

Lemma exportTrack_accepted (tempo : float) (index : nat) (track : TrackState) :
  Forall (accepted noteError)
    (sortedSubEvents (extractTrackEvents NOTE_NAMES (track_pattern track))) →
  (exportTrack noteError NOTE_NAMES tempo index track []).2 = Normal tt.
Proof.
  intros Hall%firstError_None. by rewrite exportTrack_outcome, Hall.
Qed.

Lemma exportTrack_Normal (tempo : float) (index : nat) (track : TrackState) :
  (exportTrack noteError NOTE_NAMES tempo index track []).2 = Normal tt →
  Forall (accepted noteError)
    (sortedSubEvents (extractTrackEvents NOTE_NAMES (track_pattern track))).
Proof.
  rewrite exportTrack_outcome. intros Hdone. apply firstError_None.
  by destruct (firstError noteError _).
Qed.

Lemma exportTrack_completes (tempo : float) (index : nat) (track : TrackState) :
  List.length (track_pattern track) ≤ List.length NOTE_NAMES →
  writerAccepts noteError NOTE_NAMES →
  (exportTrack noteError NOTE_NAMES tempo index track []).2 = Normal tt.
Proof. intros Hrows Hwriter. by apply exportTrack_accepted, extract_accepted. Qed.

End ExportFacts.

Lemma ticksPerStep_32 : ticksPerStep = 32%Z.
Proof. reflexivity. Qed.

Lemma toSubEvents_tick_nonneg (events : list SequencerEvent) :
  Forall (λ se, (0 ≤ tick se)%Z) (flat_map toSubEvents events).
Proof.
  induction events as [|e events IH]; simpl; [constructor|].
  rewrite ticksPerStep_32.
  constructor; [simpl; lia|]. constructor; [simpl; lia|]. done.
Qed.

Lemma emittedCalls_deltas_nonneg (noteError : string → option string) (lastTick : Z)
    (events : list MidiSubEvent) :
  StronglySorted subLe events →
  Forall (λ e, (lastTick ≤ tick e)%Z) events →
  Forall (λ d, (0 ≤ d)%Z) (deltas (emittedCalls noteError lastTick events)).
Proof.
  intros Hsorted. revert lastTick.
  induction Hsorted as [|e events Hsorted IH Hall]; intros lastTick Hlow; simpl.
  - constructor.
  - destruct (sub_note e) as [label|]; [|constructor].
    apply Forall_cons in Hlow as [Hlow _].
    assert (Forall (λ d, (0 ≤ d)%Z) (deltas (emittedCalls noteError (tick e) events)))
      as Hrest.
    { apply IH. eapply Forall_impl; [exact Hall|].
      intros x [?|[? _]]; lia. }
    unfold callFor. destruct (type e); simpl;
      (constructor; [lia|]); (destruct (noteError _); [constructor|exact Hrest]).
Qed.

Lemma off_on_order (events : list SequencerEvent) (i j : nat) (a b : MidiSubEvent) :
  sortedSubEvents events !! i = Some a → sortedSubEvents events !! j = Some b →
  tick a = tick b → type a = off → type b = on → i < j.
Proof.
  intros Hi Hj Ht Ha Hb.
  destruct (Nat.lt_trichotomy i j) as [?|[->|Hlt]]; [done| |].
  - rewrite Hi in Hj. injection Hj as ->. congruence.
  - pose proof (sorted_lookup subLe _ j i b a (sortedSubEvents_sorted events) Hlt Hj Hi)
      as [?|[_ [?|?]]]; [lia|congruence|congruence].
Qed.

(** C5: in the sorted sub-events of a track an [off] stands before every
    [on] of the same tick, and the calls are made in that order; the two
    events (4, 2) and (6, 2) of one label give on 128, off 192, on 192,
    off 256. *)
Theorem off_sorts_before_on :
  (∀ events i j a b,
     sortedSubEvents events !! i = Some a →
     sortedSubEvents events !! j = Some b →
     tick a = tick b → type a = off → type b = on → i < j)
  ∧ (λ e, (tick e, type e)) <$> sortedSubEvents tiedEvents
    = [(128, on); (192, off); (192, on); (256, off)]%Z
  ∧ (∀ noteError, noteError "c4"%string = None →
       (emitEvents noteError (sortedSubEvents tiedEvents) 0 []).1
       = [noteOn 0 "c4" 128 102; noteOff 0 "c4" 64 0;
          noteOn 0 "c4" 0 102; noteOff 0 "c4" 64 0])
  ∧ (∀ noteError NOTE_NAMES tempo index track i j t,
       omap kindOf (exportTrack noteError NOTE_NAMES tempo index track []).1 !! i
       = Some off →
       omap kindOf (exportTrack noteError NOTE_NAMES tempo index track []).1 !! j
       = Some on →
       runningSums 0 (deltas (exportTrack noteError NOTE_NAMES tempo index track []).1) !! i
       = Some t →
       runningSums 0 (deltas (exportTrack noteError NOTE_NAMES tempo index track []).1) !! j
       = Some t →
       i < j).
Proof.
  split; [exact off_on_order|]. split; [reflexivity|]. split.
  { intros noteError Hc4. rewrite emitEvents_calls.
    change (sortedSubEvents tiedEvents)
      with [ {| tick := 128; type := on; sub_note := Some "C4"%string;
                sub_velocity := 102%float |};
             {| tick := 192; type := off; sub_note := Some "C4"%string;
                sub_velocity := 0%float |};
             {| tick := 192; type := on; sub_note := Some "C4"%string;
                sub_velocity := 102%float |};
             {| tick := 256; type := off; sub_note := Some "C4"%string;
                sub_velocity := 0%float |} ].
    simpl.
    change (String (toLowerChar "C") (String (toLowerChar "4") "")) with "c4"%string.
    by rewrite Hc4. }
  intros noteError NOTE_NAMES tempo index track i j t.
  rewrite exportTrack_kinds, exportTrack_deltas, emittedCalls_deltas.
  rewrite !list_lookup_fmap.
  destruct (emittedPrefix _ _ !! i) as [a|] eqn:Hi; [|done].
  destruct (emittedPrefix _ _ !! j) as [b|] eqn:Hj; [|done].
  simpl. intros [= Ha] [= Hb] [= Hta] [= Htb].
  apply emittedPrefix_lookup in Hi, Hj.
  eapply off_on_order; [exact Hi|exact Hj|congruence|done|done].
Qed.

Lemma off_sorts_before_on_witness :
  sortedSubEvents tiedEvents !! 1
  = Some {| tick := 192; type := off; sub_note := Some "C4"%string; sub_velocity := 0%float |}
  ∧ sortedSubEvents tiedEvents !! 2
    = Some {| tick := 192; type := on; sub_note := Some "C4"%string;
              sub_velocity := 102%float |}
  ∧ 1 < 2.
Proof.
  split; [reflexivity|]. split; [reflexivity|].
  apply (proj1 off_sorts_before_on tiedEvents 1 2
           {| tick := 192; type := off; sub_note := Some "C4"%string; sub_velocity := 0%float |}
           {| tick := 192; type := on; sub_note := Some "C4"%string;
              sub_velocity := 102%float |});
    reflexivity.
Defined.

(** C7: the running sums of the emitted deltas, from the cursor the
    emission starts with, are the ticks of the emitted sub-events, for
    every list of sub-events; the cursor of a track starts at 0. *)
Theorem delta_times_round_trip :
  (∀ noteError events lastTick calls,
     ∃ emitted,
       (emitEvents noteError events lastTick calls).1 = calls ++ emitted
       ∧ runningSums lastTick (deltas emitted) = tick <$> emittedPrefix noteError events
       ∧ (Forall (accepted noteError) events →
            runningSums lastTick (deltas emitted) = tick <$> events
            ∧ ∃ cursor, (emitEvents noteError events lastTick calls).2 = Normal cursor))
  ∧ (∀ noteError NOTE_NAMES tempo index track,
       runningSums 0 (deltas (exportTrack noteError NOTE_NAMES tempo index track []).1)
       = tick <$> emittedPrefix noteError
           (sortedSubEvents (extractTrackEvents NOTE_NAMES (track_pattern track)))
       ∧ (List.length (track_pattern track) ≤ List.length NOTE_NAMES →
          writerAccepts noteError NOTE_NAMES →
            runningSums 0 (deltas (exportTrack noteError NOTE_NAMES tempo index track []).1)
            = tick <$> sortedSubEvents
                (extractTrackEvents NOTE_NAMES (track_pattern track))
            ∧ (exportTrack noteError NOTE_NAMES tempo index track []).2 = Normal tt)).
Proof.
  split.
  - intros noteError events lastTick calls. exists (emittedCalls noteError lastTick events).
    split; [apply emitEvents_calls|]. split; [apply emittedCalls_deltas|].
    intros Hall. split; [|by apply emitEvents_completes].
    by rewrite emittedCalls_deltas, emittedPrefix_full.
  - intros noteError NOTE_NAMES tempo index track.
    rewrite exportTrack_deltas, emittedCalls_deltas. split; [done|].
    intros Hrows Hwriter. split; [|by apply exportTrack_completes].
    by rewrite emittedPrefix_full by by apply extract_accepted.
Qed.

Lemma sampleWriter_accepts : writerAccepts sampleWriter sampleNames.
Proof.
  intros label [->|[->|[]%elem_of_nil]%elem_of_cons]%elem_of_cons; reflexivity.
Qed.

Lemma delta_times_round_trip_witness :
  List.length (track_pattern (sampleTrack [sampleRow] false)) ≤ List.length sampleNames
  ∧ runningSums 0
      (deltas (exportTrack sampleWriter sampleNames 122 0 (sampleTrack [sampleRow] false) []).1)
    = tick <$> sortedSubEvents
        (extractTrackEvents sampleNames (track_pattern (sampleTrack [sampleRow] false))).
Proof.
  assert (List.length (track_pattern (sampleTrack [sampleRow] false))
          ≤ List.length sampleNames) as Hrows by (simpl; lia).
  split; [exact Hrows|].
  exact (proj1 (proj2 (proj2 delta_times_round_trip sampleWriter sampleNames 122%float 0
                         (sampleTrack [sampleRow] false)) Hrows sampleWriter_accepts)).
Defined.




(** C10: every delta handed to [noteOn] and [noteOff] while a track is
    exported is non-negative. *)
Theorem export_deltas_nonnegative (noteError : string → option string)
    (NOTE_NAMES : list string) (tempo : float)
    (index : nat) (track : TrackState) (d : Z) :
  d ∈ deltas (exportTrack noteError NOTE_NAMES tempo index track []).1 → (0 ≤ d)%Z.
Proof.
  rewrite exportTrack_deltas. revert d. apply Forall_forall.
  apply emittedCalls_deltas_nonneg; [apply sortedSubEvents_sorted|].
  rewrite sortedSubEvents_Permutation. apply toSubEvents_tick_nonneg.
Qed.

Lemma export_deltas_nonnegative_witness :
  96%Z ∈ deltas (exportTrack sampleWriter sampleNames 122 0
                   (sampleTrack [sampleRow] false) []).1
  ∧ (0 ≤ 96)%Z.
Proof.
  assert (96%Z ∈ deltas (exportTrack sampleWriter sampleNames 122 0
                           (sampleTrack [sampleRow] false) []).1)
    as Hin.
  { apply list_elem_of_In. vm_compute. right. left. reflexivity. }
  split; [exact Hin|].
  exact (export_deltas_nonnegative sampleWriter sampleNames 122%float 0
           (sampleTrack [sampleRow] false) 96%Z Hin).
Defined.

Lemma labels_unchanged_counterexample :
  note <$> extractTrackEvents sampleNames [[cellOn 0.8]] = [Some "C4"%string]
  ∧ labels (exportTrack sampleWriter sampleNames 122 0
              (sampleTrack [[cellOn 0.8]] false) []).1
    = ["c4"; "c4"]%string
  ∧ "c4"%string ≠ "C4"%string.
Proof. split; [reflexivity|]. split; [reflexivity|]. discriminate. Qed.

Lemma notesOf_label (e : SequencerEvent) (label : string) :
  note e = Some label →
  notesOf e
  = [ (on, toLowerCase label, (Z.of_nat (step e) * 32)%Z,
       Math_round (PrimFloat.mul (velocity e) 127));
      (off, toLowerCase label, (Z.of_nat (step e + durationSteps e) * 32)%Z, 0%float) ].
Proof.
  intros Hnote. unfold notesOf. rewrite toSubEvents_32. unfold noteOfSub. simpl.
  by rewrite Hnote.
Qed.

Lemma flat_map_fmap {A B C} (f : A → list B) (g : B → C) (l : list A) :
  g <$> flat_map f l = flat_map (λ x, g <$> f x) l.
Proof.
  induction l as [|x l IH]; simpl; [done|]. by rewrite fmap_app, IH.
Qed.

Section ExportedNotes.
Variable noteError : string → option string.
Variable NOTE_NAMES : list string.

(** Every note call of a track is one of the two notes of an extracted
    event that has a label. *)
Lemma exported_note_event (tempo : float) (index : nat) (track : TrackState)
    (i : nat) (made : SubEventType * string * Z * float) :
  absoluteNotes 0 (exportTrack noteError NOTE_NAMES tempo index track []).1 !! i
  = Some made →
  ∃ e, e ∈ extractTrackEvents NOTE_NAMES (track_pattern track)
       ∧ is_Some (note e) ∧ made ∈ notesOf e.
Proof.
  rewrite exportTrack_absoluteNotes, list_lookup_fmap.
  destruct (emittedPrefix noteError _ !! i) as [se|] eqn:Hse; [|done].
  simpl. intros [= <-].
  pose proof (emittedPrefix_labelled _ _ _ (list_elem_of_lookup_2 _ _ _ Hse)) as Hlabel.
  apply emittedPrefix_lookup, list_elem_of_lookup_2 in Hse.
  apply sortedSubEvents_event in Hse as (e & He & Hse).
  exists e. split; [done|]. split.
  - by rewrite <- (toSubEvents_note e se Hse).
  - unfold notesOf. by apply list_elem_of_fmap_2.
Qed.

(** The notes of a track whose export completes are, up to their order,
    the two notes of every extracted event. *)
Lemma exported_notes_complete (tempo : float) (index : nat) (track : TrackState) :
  (exportTrack noteError NOTE_NAMES tempo index track []).2 = Normal tt →
  absoluteNotes 0 (exportTrack noteError NOTE_NAMES tempo index track []).1
  ≡ₚ flat_map notesOf (extractTrackEvents NOTE_NAMES (track_pattern track))
  ∧ ∀ e, e ∈ extractTrackEvents NOTE_NAMES (track_pattern track) →
         ∃ label, note e = Some label ∧ noteError (toLowerCase label) = None.
Proof.
  intros Hall%exportTrack_Normal. split.
  - rewrite exportTrack_absoluteNotes, emittedPrefix_full by done.
    rewrite sortedSubEvents_Permutation. by rewrite flat_map_fmap.
  - intros e He.
    assert ({| tick := Z.of_nat (step e) * 32; type := on; sub_note := note e;
               sub_velocity := Math_round (PrimFloat.mul (velocity e) 127) |}
            ∈ sortedSubEvents (extractTrackEvents NOTE_NAMES (track_pattern track)))
      as Hon.
    { eapply toSubEvents_in_sorted; [exact He|]. rewrite toSubEvents_32. left. }
    rewrite Forall_forall in Hall. exact (Hall _ Hon).
Qed.

End ExportedNotes.

(** C3, as the code has it: the label handed to [noteOn] and [noteOff]
    for an event is the label of that event in lower case (replacing "#"
    by "#" changes nothing), and it is the label itself exactly when that
    has no upper-case letter.  Every note call of a track is the note-on
    or the note-off of one extracted event, under the lower-cased label of
    that event; when the export of the track completes, the note calls
    are, up to their order, the note-on and the note-off of every
    extracted event, each under the lower-cased label of its event. *)
Theorem labels_are_lowercased :
  (∀ label,
     noteLabelToMidi (Some label) = Normal (toLowerCase label)
     ∧ (toLowerCase label = label ↔ hasUpper label = false))
  ∧ (∀ e label,
       note e = Some label →
       notesOf e
       = [ (on, toLowerCase label, (Z.of_nat (step e) * 32)%Z,
            Math_round (PrimFloat.mul (velocity e) 127));
           (off, toLowerCase label,
            (Z.of_nat (step e + durationSteps e) * 32)%Z, 0%float) ])
  ∧ (∀ noteError NOTE_NAMES tempo index track,
       (∀ i made,
          absoluteNotes 0 (exportTrack noteError NOTE_NAMES tempo index track []).1 !! i
          = Some made →
          ∃ e, e ∈ extractTrackEvents NOTE_NAMES (track_pattern track)
               ∧ is_Some (note e) ∧ made ∈ notesOf e)
       ∧ ((exportTrack noteError NOTE_NAMES tempo index track []).2 = Normal tt →
            absoluteNotes 0 (exportTrack noteError NOTE_NAMES tempo index track []).1
            ≡ₚ flat_map notesOf (extractTrackEvents NOTE_NAMES (track_pattern track))
            ∧ ∀ e, e ∈ extractTrackEvents NOTE_NAMES (track_pattern track) →
                   ∃ label, note e = Some label
                            ∧ noteError (toLowerCase label) = None)).
Proof.
  split; [|split].
  - intros label. split; [apply noteLabelToMidi_Some|apply toLowerCase_fixed].
  - apply notesOf_label.
  - intros noteError NOTE_NAMES tempo index track. split.
    + apply exported_note_event.
    + apply exported_notes_complete.
Qed.

Lemma labels_are_lowercased_witness :
  (exportTrack sampleWriter sampleNames 122 0 (sampleTrack [[cellOn 0.8]] false) []).2
  = Normal tt
  ∧ note <$> extractTrackEvents sampleNames [[cellOn 0.8]] = [Some "C4"%string]
  ∧ absoluteNotes 0
      (exportTrack sampleWriter sampleNames 122 0 (sampleTrack [[cellOn 0.8]] false) []).1
    ≡ₚ [(on, "c4"%string, 0%Z, 102%float); (off, "c4"%string, 32%Z, 0%float)].
Proof.
  assert ((exportTrack sampleWriter sampleNames 122 0
             (sampleTrack [[cellOn 0.8]] false) []).2 = Normal tt) as Hdone
    by reflexivity.
  split; [exact Hdone|]. split; [reflexivity|].
  exact (proj1 (proj2 (proj2 (proj2 labels_are_lowercased) sampleWriter sampleNames
                         122%float 0 (sampleTrack [[cellOn 0.8]] false)) Hdone)).
Defined.

(** * Properties of toggleCell *)

Lemma imap_fixed {A} (f : nat → A → A) (l : list A) :
  (∀ i x, l !! i = Some x → f i x = x) → imap f l = l.
Proof.
  revert f. induction l as [|y l IH]; intros f Hf; simpl; [done|].
  rewrite (Hf 0 y) by done. f_equal. apply IH. intros i x Hi. by apply (Hf (S i)).
Qed.

Lemma toggleCell_out_of_range_counterexample :
  outOfRange (track_pattern (sampleTrack [[cellOff]] false)) 5 0
  ∧ toggleCell "t1" 5 0 None [sampleTrack [[cellOff]] false]
    = Normal [sampleTrack [[cellOff]] false]
  ∧ outOfRange (track_pattern (sampleTrack [[cellOff]] false)) 0 (-1)
  ∧ toggleCell "t1" 0 (-1) (Some true) [sampleTrack [[cellOff]] false]
    = Normal [sampleTrack [[cellOff]] false].
Proof.
  split; [|split; [reflexivity|split; [|reflexivity]]].
  - intros r cells Hr Hrow. assert (r = 5) as -> by lia. done.
  - intros r cells Hr Hrow. left. lia.
Qed.

(** C2, as the code has it: a call of [toggleCell] whose row and step
    address no cell is not rejected; it completes normally and leaves
    every track, and so every pattern, as it was. *)
Theorem toggleCell_out_of_range (trackId : string) (row step : Z)
    (forceState : option bool) (prev : list TrackState) :
  (∀ track, track ∈ prev → track_id track = trackId →
            outOfRange (track_pattern track) row step) →
  toggleCell trackId row step forceState prev = Normal prev.
Proof.
  intros Hout. unfold toggleCell, toggleCellUpdater. f_equal.
  rewrite <- (map_id prev) at 2. apply map_ext_in. intros track Htrack%list_elem_of_In.
  destruct (String.eqb (track_id track) trackId) eqn:Hid; simpl; [|done].
  apply String.eqb_eq in Hid. specialize (Hout track Htrack Hid).
  rewrite imap_fixed.
  - by destruct track.
  - intros rowIdx noteRow Hrow. apply imap_fixed. intros stepIdx cell Hcell.
    destruct (Z.of_nat rowIdx =? row)%Z eqn:Hr; simpl; [|done].
    destruct (Z.of_nat stepIdx =? step)%Z eqn:Hs; simpl; [|done].
    apply Z.eqb_eq in Hr, Hs. apply lookup_lt_Some in Hcell.
    destruct (Hout rowIdx noteRow Hrow Hr); lia.
Qed.

Lemma toggleCell_out_of_range_witness :
  toggleCell "t1" 0 8 (Some true) [sampleTrack [sampleRow; sampleRow'] false]
  = Normal [sampleTrack [sampleRow; sampleRow'] false].
Proof.
  apply toggleCell_out_of_range.
  intros track Htrack _. apply list_elem_of_singleton in Htrack as ->.
  intros r cells Hr Hrow. assert (r = 0) as -> by lia.
  injection Hr as <-. right. simpl. lia.
Defined.

(** * Properties of the playback setup *)

Section PlaybackFacts.
Variable NOTE_NAMES : list string.
Variable TOTAL_STEPS : nat.

Lemma setupTrack_synths (s : Playback) (track : TrackState) :
  synths (setupTrack NOTE_NAMES TOTAL_STEPS s track) = addSynth (synths s) track.
Proof.
  unfold setupTrack, addSynth. destruct (track_muted track); [done|].
  by destruct (Nat.eqb _ 0).
Qed.

Lemma setupTrack_parts (s : Playback) (track : TrackState) :
  parts (setupTrack NOTE_NAMES TOTAL_STEPS s track)
  = parts s ++ option_list (partFor NOTE_NAMES TOTAL_STEPS track).
Proof.
  unfold setupTrack, partFor. destruct (track_muted track); simpl.
  - by rewrite app_nil_r.
  - destruct (Nat.eqb _ 0); simpl; [by rewrite app_nil_r|done].
Qed.

Lemma foldl_setupTrack_synths (tracks : list TrackState) (s : Playback) :
  synths (foldl (setupTrack NOTE_NAMES TOTAL_STEPS) s tracks)
  = foldl addSynth (synths s) tracks.
Proof.
  revert s. induction tracks as [|track tracks IH]; intros s; simpl; [done|].
  by rewrite IH, setupTrack_synths.
Qed.

Lemma foldl_setupTrack_parts (tracks : list TrackState) (s : Playback) :
  parts (foldl (setupTrack NOTE_NAMES TOTAL_STEPS) s tracks)
  = parts s ++ omap (partFor NOTE_NAMES TOTAL_STEPS) tracks.
Proof.
  revert s. induction tracks as [|track tracks IH]; intros s; simpl.
  - by rewrite app_nil_r.
  - rewrite IH, setupTrack_parts, <- app_assoc. f_equal.
    by destruct (partFor NOTE_NAMES TOTAL_STEPS track).
Qed.

Lemma addSynth_is_Some (tracks : list TrackState) (m : gmap string SynthState) (i : string) :
  is_Some (foldl addSynth m tracks !! i) ↔
  is_Some (m !! i) ∨ ∃ track, track ∈ tracks ∧ track_id track = i ∧ track_muted track = false.
Proof.
  revert m. induction tracks as [|t tracks IH]; intros m; simpl.
  - split; [by left|]. intros [?|(track & Hin & _)]; [done|].
    by apply elem_of_nil in Hin.
  - rewrite IH. unfold addSynth. split.
    + intros [Hm|(track & Hin & Hid & Hmuted)].
      * destruct (track_muted t) eqn:Ht; [by left|].
        destruct (decide (track_id t = i)) as [Heq|Hne].
        -- right. exists t. split; [left|done].
        -- rewrite lookup_insert_ne in Hm by done. by left.
      * right. exists track. split; [by right|done].
    + intros [Hm|(track & Hin & Hid & Hmuted)].
      * left. destruct (track_muted t); [done|].
        destruct (decide (track_id t = i)) as [->|Hne].
        -- rewrite lookup_insert_eq. by eexists.
        -- by rewrite lookup_insert_ne.
      * apply elem_of_cons in Hin as [->|Hin].
        -- left. rewrite Hmuted, Hid, lookup_insert_eq. by eexists.
        -- right. by exists track.
Qed.

Lemma addSynth_other (tracks : list TrackState) (m : gmap string SynthState) (i : string) :
  (∀ track, track ∈ tracks → track_id track ≠ i) →
  foldl addSynth m tracks !! i = m !! i.
Proof.
  revert m. induction tracks as [|t tracks IH]; intros m Hother; simpl; [done|].
  rewrite IH.
  - unfold addSynth. destruct (track_muted t); [done|].
    apply lookup_insert_ne. apply Hother. left.
  - intros track Hin. apply Hother. by right.
Qed.

Lemma addSynth_NoDup (tracks : list TrackState) (m : gmap string SynthState)
    (track : TrackState) :
  NoDup (track_id <$> tracks) → track ∈ tracks →
  foldl addSynth m tracks !! track_id track
  = if track_muted track then m !! track_id track else Some (synthFor track).
Proof.
  revert m. induction tracks as [|t tracks IH]; intros m Hnodup Hin; simpl.
  - by apply elem_of_nil in Hin.
  - rewrite fmap_cons in Hnodup. apply NoDup_cons in Hnodup as [Hfresh Hnodup].
    apply elem_of_cons in Hin as [->|Hin].
    + rewrite addSynth_other.
      * unfold addSynth. destruct (track_muted t); [done|]. apply lookup_insert_eq.
      * intros track Htrack Heq. apply Hfresh. rewrite <- Heq.
        by apply list_elem_of_fmap_2.
    + rewrite IH by done. destruct (track_muted track); [|done].
      unfold addSynth. destruct (track_muted t); [done|].
      apply lookup_insert_ne. intros Heq. apply Hfresh. rewrite Heq.
      by apply list_elem_of_fmap_2.
Qed.

Lemma setupPlayback_synths (keep : bool) (tempo swingPercent : float)
    (tracks : list TrackState) (s : Playback) :
  synths (setupPlayback NOTE_NAMES TOTAL_STEPS (Normal tt) keep tempo swingPercent tracks s)
  = foldl addSynth ∅ tracks.
Proof.
  unfold setupPlayback. destruct keep; simpl; by rewrite foldl_setupTrack_synths.
Qed.

Lemma setupPlayback_parts (keep : bool) (tempo swingPercent : float)
    (tracks : list TrackState) (s : Playback) :
  parts (setupPlayback NOTE_NAMES TOTAL_STEPS (Normal tt) keep tempo swingPercent tracks s)
  = omap (partFor NOTE_NAMES TOTAL_STEPS) tracks.
Proof.
  unfold setupPlayback. destruct keep; simpl; by rewrite foldl_setupTrack_parts.
Qed.

End PlaybackFacts.

Lemma voice_only_with_events_counterexample :
  track_muted (sampleTrack [[cellOff; cellOff]] false) = false
  ∧ extractTrackEvents sampleNames (track_pattern (sampleTrack [[cellOff; cellOff]] false)) = []
  ∧ synths (setupPlayback sampleNames 32 (Normal tt) false 122 0
              [sampleTrack [[cellOff; cellOff]] false] idle) !! "t1"%string
    = Some {| voice := PolySynth_triangle; synth_volume := (-8)%float |}.
Proof. split; [reflexivity|]. split; [reflexivity|]. reflexivity. Qed.

(** C1, as the code has it: playback setup builds a synth exactly for the
    tracks that are not muted, with or without events: the synth map has
    an entry under an id exactly when an unmuted track has that id, a
    muted track gets none, and an unmuted track gets the synth of its
    instrument at its volume; a part is created exactly for the unmuted
    tracks that have an event, in track order. *)
Theorem setupPlayback_voices (NOTE_NAMES : list string) (TOTAL_STEPS : nat)
    (keepTransportRunning : bool) (tempo swingPercent : float)
    (tracks : list TrackState) (s : Playback) :
  (∀ i,
     is_Some (synths (setupPlayback NOTE_NAMES TOTAL_STEPS (Normal tt)
                        keepTransportRunning tempo swingPercent tracks s) !! i)
     ↔ ∃ track, track ∈ tracks ∧ track_id track = i ∧ track_muted track = false)
  ∧ (NoDup (track_id <$> tracks) →
     ∀ track, track ∈ tracks →
       synths (setupPlayback NOTE_NAMES TOTAL_STEPS (Normal tt)
                 keepTransportRunning tempo swingPercent tracks s) !! track_id track
       = if track_muted track then None else Some (synthFor track))
  ∧ parts (setupPlayback NOTE_NAMES TOTAL_STEPS (Normal tt)
             keepTransportRunning tempo swingPercent tracks s)
    = omap (partFor NOTE_NAMES TOTAL_STEPS) tracks
  ∧ (∀ track, is_Some (partFor NOTE_NAMES TOTAL_STEPS track)
              ↔ track_muted track = false
                ∧ extractTrackEvents NOTE_NAMES (track_pattern track) ≠ []).
Proof.
  rewrite setupPlayback_synths, setupPlayback_parts. split; [|split; [|split]].
  - intros i. rewrite addSynth_is_Some, lookup_empty. split.
    + intros [[? ?]|?]; done.
    + intros ?. by right.
  - intros Hnodup track Hin. rewrite addSynth_NoDup by done.
    by rewrite lookup_empty.
  - done.
  - intros track. unfold partFor. destruct (track_muted track).
    + split; [by intros [? ?]|by intros [? _]].
    + destruct (extractTrackEvents NOTE_NAMES (track_pattern track)); simpl.
      * split; [by intros [? ?]|by intros [_ ?]].
      * split; [done|]. intros _. by eexists.
Qed.

Lemma setupPlayback_voices_witness :
  NoDup (track_id <$> [sampleTrack [[cellOff; cellOff]] false])
  ∧ synths (setupPlayback sampleNames 32 (Normal tt) false 122 0
              [sampleTrack [[cellOff; cellOff]] false] idle)
      !! track_id (sampleTrack [[cellOff; cellOff]] false)
    = Some (synthFor (sampleTrack [[cellOff; cellOff]] false)).
Proof.
  assert (NoDup (track_id <$> [sampleTrack [[cellOff; cellOff]] false])) as Hnodup.
  { apply NoDup_singleton. }
  split; [exact Hnodup|].
  apply (proj1 (proj2 (setupPlayback_voices sampleNames 32 false 122%float 0%float
                         [sampleTrack [[cellOff; cellOff]] false] idle)) Hnodup).
  left.
Defined.

(** * Further properties *)

(** The transport time of a step: bar [step / 16], beat
    [(step mod 16) / 4], sixteenth [step mod 4]. *)
Theorem stepToTransportTime_spec (step : nat) :
  stepToTransportTime step
  = pretty (step / 16) +:+ ":" +:+ pretty ((step mod 16) / 4) +:+ ":"
    +:+ pretty (step mod 4).
Proof.
  unfold stepToTransportTime.
  replace ((step mod 16) mod 4) with (step mod 4); [done|].
  change 16 with (4 * 4).
  by rewrite Nat.Div0.mod_mul_r, (Nat.mul_comm 4), Nat.Div0.mod_add, Nat.Div0.mod_mod.
Qed.

Section ExportOutcome.
Variable noteError : string → option string.
Variable NOTE_NAMES : list string.

Lemma exportTracks_complete (tempo : float) (tracks : list TrackState) (index : nat)
    (file : list (list MidiCall)) :
  Forall (λ track, List.length (track_pattern track) ≤ List.length NOTE_NAMES) tracks →
  writerAccepts noteError NOTE_NAMES →
  exportTracks noteError NOTE_NAMES tempo tracks index file
  = (file ++ imap (λ i track, (exportTrack noteError NOTE_NAMES tempo (index + i)
                                 track []).1) tracks,
     Normal tt).
Proof.
  intros Hall Hwriter. revert index file.
  induction Hall as [|track tracks Hrows _ IH]; intros index file; simpl.
  - by rewrite app_nil_r.
  - pose proof (exportTrack_completes noteError NOTE_NAMES tempo index track Hrows Hwriter)
      as Hdone.
    destruct (exportTrack noteError NOTE_NAMES tempo index track []) as [midiTrack c]
      eqn:Htrack.
    simpl in Hdone. subst c. rewrite IH, <- app_assoc. simpl.
    replace (index + 0) with index by lia. rewrite Htrack. simpl.
    do 3 f_equal. apply imap_ext. intros i t _. simpl. do 2 f_equal. lia.
Qed.

End ExportOutcome.

(** The export before the MIDI library is loaded sets a status line and
    writes nothing; once it is loaded, and every pattern has a pitch label
    for each of its rows, and the writer accepts every pitch label of the
    page in lower case, the export completes with one MIDI track per
    track, in track order. *)
Theorem handleExportMidi_outcome (noteError : string → option string)
    (NOTE_NAMES : list string) (tempo : float) (tracks : list TrackState) :
  handleExportMidi noteError NOTE_NAMES false tempo tracks
  = Normal {| midiFile := None; exportStatus := "MIDI exporter not ready yet." |}
  ∧ (Forall (λ track, List.length (track_pattern track) ≤ List.length NOTE_NAMES) tracks →
     writerAccepts noteError NOTE_NAMES →
     handleExportMidi noteError NOTE_NAMES true tempo tracks
     = Normal {| midiFile :=
                   Some (imap (λ i track, (exportTrack noteError NOTE_NAMES tempo i
                                             track []).1) tracks);
                 exportStatus := "Exported MIDI file." |}).
Proof.
  split; [done|]. intros Hall Hwriter. unfold handleExportMidi. simpl.
  by rewrite exportTracks_complete.
Qed.

Lemma handleExportMidi_outcome_witness :
  Forall (λ track, List.length (track_pattern track) ≤ List.length sampleNames)
    [sampleTrack [sampleRow] false]
  ∧ handleExportMidi sampleWriter sampleNames true 122 [sampleTrack [sampleRow] false]
    = Normal {| midiFile :=
                  Some [[setTempo 122; setInstrument 0 89;
                         noteOn 0 "c4" 64 64; noteOff 0 "c4" 96 0;
                         noteOn 0 "c4" 64 32; noteOff 0 "c4" 32 0]];
                exportStatus := "Exported MIDI file." |}.
Proof.
  assert (Forall (λ track, List.length (track_pattern track) ≤ List.length sampleNames)
            [sampleTrack [sampleRow] false]) as Hall.
  { constructor; [simpl; lia|constructor]. }
  split; [exact Hall|].
  rewrite (proj2 (handleExportMidi_outcome sampleWriter sampleNames 122%float
                    [sampleTrack [sampleRow] false]) Hall sampleWriter_accepts).
  reflexivity.
Defined.

(** A pattern without a pitch label for one of its rows that has an
    active cell: the export throws, after the calls for the sub-events
    sorted before the first one without a label. *)
Example exportTrack_throws :
  exportTrack sampleWriter ["C4"%string] 122 0
    (sampleTrack [[cellOff; cellOn 0.5]; [cellOff; cellOff; cellOff; cellOn 0.8]] false) []
  = ([setTempo 122; setInstrument 0 89; noteOn 0 "c4" 32 64; noteOff 0 "c4" 32 0],
     Throw "TypeError: Cannot read properties of undefined (reading 'toLowerCase')").
Proof. reflexivity. Qed.

(** A pitch label the writer rejects: the export throws what the writer
    throws, in the first note call, and no track is written. *)
Example exportTrack_writer_throws :
  exportTrack sampleWriter ["H2"%string] 122 0 (sampleTrack [[cellOff; cellOn 0.5]] false) []
  = ([setTempo 122; setInstrument 0 89; noteOn 0 "h2" 32 64],
     Throw "TypeError: Cannot read properties of null (reading '1')")
  ∧ handleExportMidi sampleWriter ["H2"%string] true 122
      [sampleTrack [[cellOff; cellOn 0.5]] false]
    = Throw "TypeError: Cannot read properties of null (reading '1')".
Proof. split; reflexivity. Qed.

Lemma lookup_map {A B} (f : A → B) (l : list A) (i : nat) :
  map f l !! i = f <$> l !! i.
Proof.
  revert i. induction l as [|x l IH]; intros [|i]; simpl; auto.
Qed.

(** The cell that [toggleCell] addresses gets [forceState], or the
    opposite of its [active] flag when no state is forced, and keeps its
    velocity (0.8 if it had none); every other cell stays as it was. *)
Theorem toggleCell_in_range (trackId : string) (row step : Z) (forceState : option bool)
    (prev : list TrackState) (k r s : nat) (track : TrackState)
    (cells : list NoteCell) (cell : NoteCell) :
  prev !! k = Some track →
  track_pattern track !! r = Some cells →
  cells !! s = Some cell →
  ∃ prev' track' cells',
    toggleCell trackId row step forceState prev = Normal prev'
    ∧ List.length prev' = List.length prev
    ∧ prev' !! k = Some track'
    ∧ (track_id track', track_name track', track_instrument track',
       track_volume track', track_muted track')
      = (track_id track, track_name track, track_instrument track,
         track_volume track, track_muted track)
    ∧ List.length (track_pattern track') = List.length (track_pattern track)
    ∧ track_pattern track' !! r = Some cells'
    ∧ List.length cells' = List.length cells
    ∧ cells' !! s
      = Some (if decide (track_id track = trackId ∧ Z.of_nat r = row ∧ Z.of_nat s = step)
              then {| active := default (negb (active cell)) forceState;
                      cell_velocity := Some (default 0.8%float (cell_velocity cell)) |}
              else cell).
Proof.
  intros Hk Hr Hs. exists (toggleCellUpdater trackId row step forceState prev).
  unfold toggleCell, toggleCellUpdater.
  destruct (String.eqb (track_id track) trackId) eqn:Hid.
  - apply String.eqb_eq in Hid as Hid'.
    eexists _, _. split; [reflexivity|]. split; [apply length_map|].
    split. { rewrite lookup_map, Hk. simpl. rewrite Hid. simpl. reflexivity. }
    simpl.
    split; [done|]. split; [apply length_imap|].
    split. { rewrite list_lookup_imap, Hr. reflexivity. }
    split; [apply length_imap|].
    rewrite list_lookup_imap, Hs. simpl. f_equal.
    destruct (Z.of_nat r =? row)%Z eqn:Hrow; simpl.
    + destruct (Z.of_nat s =? step)%Z eqn:Hstep; simpl.
      * apply Z.eqb_eq in Hrow, Hstep. rewrite decide_True by done.
        by destruct (default (negb (active cell)) forceState).
      * apply Z.eqb_neq in Hstep. rewrite decide_False; [done|]. by intros (_ & _ & ?).
    + apply Z.eqb_neq in Hrow. rewrite decide_False; [done|]. by intros (_ & ? & _).
  - apply String.eqb_neq in Hid as Hid'.
    exists track, cells. split; [reflexivity|]. split; [apply length_map|].
    split. { rewrite lookup_map, Hk. simpl. rewrite Hid. simpl. reflexivity. }
    split; [done|]. split; [done|]. split; [exact Hr|].
    split; [done|]. rewrite Hs. f_equal. rewrite decide_False; [done|]. by intros (? & _).
Qed.

Lemma toggleCell_in_range_witness :
  ∃ prev' track' cells',
    toggleCell "t1" 0 1 None [sampleTrack [[cellOff; cellOff]] false] = Normal prev'
    ∧ List.length prev' = 1
    ∧ prev' !! 0 = Some track'
    ∧ (track_id track', track_name track', track_instrument track',
       track_volume track', track_muted track')
      = ("t1", "Track 1", "dream-pad", (-8)%float, false)%string
    ∧ List.length (track_pattern track') = 1
    ∧ track_pattern track' !! 0 = Some cells'
    ∧ List.length cells' = 2
    ∧ cells' !! 1 = Some (cellOn 0.8).
Proof.
  exact (toggleCell_in_range "t1" 0 1 None [sampleTrack [[cellOff; cellOff]] false]
           0 0 1 (sampleTrack [[cellOff; cellOff]] false) [cellOff; cellOff] cellOff
           eq_refl eq_refl eq_refl).
Defined.

(** * Durations and bounds of the extracted events *)

Section RunFacts.
Variable NOTE_NAMES : list string.

Lemma totalDuration_app (l1 l2 : list SequencerEvent) :
  totalDuration (l1 ++ l2) = totalDuration l1 + totalDuration l2.
Proof.
  induction l1 as [|e l1 IH]; simpl; [done|].
  unfold totalDuration in *. simpl. rewrite IH. lia.
Qed.

Lemma activeCount_leading (cells : list NoteCell) :
  activeCount cells
  = leadingActive cells + activeCount (drop (leadingActive cells) cells).
Proof.
  unfold activeCount. induction cells as [|c cells IH]; simpl; [done|].
  destruct (active c) eqn:Hc; simpl; [|by rewrite Hc].
  by rewrite IH.
Qed.

Lemma scanRow_totalDuration (row : list NoteCell) (ri fuel s : nat) :
  List.length row ≤ s + fuel →
  totalDuration (scanRow NOTE_NAMES fuel row ri s []) = activeCount (drop s row).
Proof.
  apply (scanRow_ind NOTE_NAMES row ri
           (λ s out, totalDuration out = activeCount (drop s row))).
  - intros s' Hs. by rewrite drop_ge.
  - intros s' cell out Hc Ha IH. rewrite (drop_S _ _ _ Hc).
    unfold activeCount in *. simpl. by rewrite Ha.
  - intros s' cell out Hc Ha IH. rewrite (drop_S _ _ _ Hc).
    unfold totalDuration, activeCount in *. simpl. rewrite Ha. simpl.
    rewrite IH. pose proof (activeCount_leading (drop (S s') row)) as Hlead.
    unfold activeCount in Hlead. rewrite Hlead, drop_drop. unfold runLength.
    replace (s' + S (leadingActive (drop (S s') row)))
      with (S s' + leadingActive (drop (S s') row)) by lia.
    lia.
Qed.

Lemma rowEvents_totalDuration (row : list NoteCell) (ri : nat) :
  totalDuration (rowEvents NOTE_NAMES row ri) = activeCount row.
Proof. unfold rowEvents. rewrite scanRow_totalDuration by lia. by rewrite drop_0. Qed.

Lemma maximalRun_fits (row : list NoteCell) (s d : nat) :
  maximalRun row s d → 1 ≤ d ∧ s + d ≤ List.length row.
Proof.
  intros (Hd & Hall & _). split; [lia|].
  assert (activeAt row (s + d - 1) = true) as Hlast by (apply Hall; lia).
  apply activeAt_lt in Hlast. lia.
Qed.

Lemma forEachRow_totalDuration (rows : list (list NoteCell)) (ri : nat)
    (events : list SequencerEvent) :
  totalDuration (forEachRow NOTE_NAMES rows ri events)
  = totalDuration events + foldr (λ row n, activeCount row + n) 0 rows.
Proof.
  revert ri events. induction rows as [|row rows IH]; intros ri events; simpl; [lia|].
  rewrite IH, scanRow_acc, totalDuration_app.
  fold (rowEvents NOTE_NAMES row ri). rewrite rowEvents_totalDuration. lia.
Qed.

(** Every active cell lies in a run: some step at or before it starts one,
    and all cells from there to it are active. *)
Lemma active_in_run (row : list NoteCell) (i : nat) :
  activeAt row i = true →
  ∃ s, s ≤ i ∧ runStart row s ∧ ∀ j, s ≤ j ≤ i → activeAt row j = true.
Proof.
  induction i as [|i IH]; intros Hi.
  - exists 0. split; [done|]. split; [split; [done|by left]|].
    intros j Hj. by replace j with 0 by lia.
  - destruct (activeAt row i) eqn:Hprev.
    + destruct (IH eq_refl) as (s & Hs & Hstart & Hall).
      exists s. split; [lia|]. split; [done|].
      intros j Hj. destruct (decide (j = S i)) as [->|]; [done|]. apply Hall. lia.
    + exists (S i). split; [done|]. split.
      * split; [done|]. right. by replace (S i - 1) with i by lia.
      * intros j Hj. by replace j with (S i) by lia.
Qed.

Lemma runStart_event (row : list NoteCell) (ri s : nat) :
  runStart row s → ∃ e, e ∈ rowEvents NOTE_NAMES row ri ∧ step e = s.
Proof.
  intros [Hact Hb]. apply scanRow_complete; [lia|lia|done|].
  destruct Hb; [by left|by right].
Qed.

Lemma rowEvents_runStart (row : list NoteCell) (ri : nat) (e : SequencerEvent) :
  e ∈ rowEvents NOTE_NAMES row ri → runStart row (step e).
Proof.
  intros (cell & Hc & Ha & _ & (_ & _ & Hb & _))%rowEvents_sound.
  split; [|done]. unfold activeAt. by rewrite Hc.
Qed.

End RunFacts.

Lemma extracted_event_fits (NOTE_NAMES : list string) (pattern : TrackPattern)
    (e : SequencerEvent) :
  e ∈ extractTrackEvents NOTE_NAMES pattern →
  ∃ rowIndex row,
    pattern !! rowIndex = Some row
    ∧ 1 ≤ durationSteps e
    ∧ step e + durationSteps e ≤ List.length row
    ∧ note e = NOTE_NAMES !! rowIndex.
Proof.
  intros (ri & row & Hrow & He)%elem_of_extractTrackEvents.
  exists ri, row. split; [done|].
  destruct (rowEvents_sound NOTE_NAMES row ri e He) as (cell & _ & _ & Heq & Hmax).
  apply maximalRun_fits in Hmax as [? ?]. split; [done|]. split; [done|].
  by rewrite Heq.
Qed.

(** The durations of the events of a row add up to the number of its
    active cells, and so do those of a pattern: every active cell is part
    of exactly one event.  An event of a row has at least one step, ends
    within that row and carries the label of that row. *)
Theorem extract_durations (NOTE_NAMES : list string) (pattern : TrackPattern) :
  totalDuration (extractTrackEvents NOTE_NAMES pattern)
  = foldr (λ row n, activeCount row + n) 0 pattern
  ∧ extractTrackEvents NOTE_NAMES pattern
    = concat (imap (λ rowIndex row, rowEvents NOTE_NAMES row rowIndex) pattern)
  ∧ ∀ rowIndex row, pattern !! rowIndex = Some row →
      totalDuration (rowEvents NOTE_NAMES row rowIndex) = activeCount row
      ∧ ∀ e, e ∈ rowEvents NOTE_NAMES row rowIndex →
          1 ≤ durationSteps e
          ∧ step e + durationSteps e ≤ List.length row
          ∧ note e = NOTE_NAMES !! rowIndex.
Proof.
  split; [|split].
  - unfold extractTrackEvents. by rewrite forEachRow_totalDuration.
  - apply extractTrackEvents_rows.
  - intros rowIndex row _. split; [apply rowEvents_totalDuration|].
    intros e He.
    destruct (rowEvents_sound NOTE_NAMES row rowIndex e He) as (cell & _ & _ & Heq & Hmax).
    apply maximalRun_fits in Hmax as [? ?]. split; [done|]. split; [done|].
    by rewrite Heq.
Qed.

Lemma extract_durations_witness :
  [sampleRow] !! 0 = Some sampleRow
  ∧ sampleEvent2 ∈ rowEvents sampleNames sampleRow 0
  ∧ 1 ≤ durationSteps sampleEvent2
  ∧ step sampleEvent2 + durationSteps sampleEvent2 ≤ List.length sampleRow
  ∧ note sampleEvent2 = sampleNames !! 0.
Proof.
  split; [reflexivity|].
  assert (sampleEvent2 ∈ rowEvents sampleNames sampleRow 0) as Hin.
  { apply list_elem_of_In. vm_compute. left. reflexivity. }
  split; [exact Hin|].
  exact (proj2 (proj2 (proj2 (extract_durations sampleNames [sampleRow]))
                  0 sampleRow eq_refl) sampleEvent2 Hin).
Defined.

(** * The velocity of a cell and the events *)

Lemma imap_imap_compose {A B C} (f : nat → B → C) (g : nat → A → B) (l : list A) :
  imap f (imap g l) = imap (λ i x, f i (g i x)) l.
Proof.
  revert f g. induction l as [|x l IH]; intros f g; simpl; [done|].
  f_equal. apply IH.
Qed.

Lemma concat_imap_fmap_ext {A B C} (g : B → C) (F G : nat → A → list B) (l : list A) :
  (∀ i x, l !! i = Some x → g <$> F i x = g <$> G i x) →
  g <$> concat (imap F l) = g <$> concat (imap G l).
Proof.
  revert F G. induction l as [|x l IH]; intros F G Hext; simpl; [done|].
  rewrite !fmap_app. f_equal; [by apply (Hext 0)|].
  apply IH. intros i y Hi. by apply (Hext (S i)).
Qed.

Lemma imap_same_active (f : nat → NoteCell → NoteCell) (row : list NoteCell) :
  (∀ i cell, active (f i cell) = active cell) → sameShape row (imap f row).
Proof.
  unfold sameShape. revert f. induction row as [|c row IH]; intros f Hf; simpl; [done|].
  rewrite Hf. f_equal. apply IH. intros i cell. apply Hf.
Qed.

Section VelocityFacts.
Variable NOTE_NAMES : list string.

Lemma sameShape_length (row row' : list NoteCell) :
  sameShape row row' → List.length row = List.length row'.
Proof.
  intros Hshape. rewrite <- (length_fmap active row), <- (length_fmap active row').
  by rewrite Hshape.
Qed.

(** The events of a row of the same shape are the same events, with the
    velocities of the new row. *)
Lemma rowEvents_reread (row row' : list NoteCell) (ri : nat) :
  sameShape row row' →
  rowEvents NOTE_NAMES row' ri = rereadVelocity row' <$> rowEvents NOTE_NAMES row ri.
Proof.
  intros Hshape. pose proof (sameShape_length _ _ Hshape) as Hlen.
  unfold rowEvents. rewrite <- Hlen.
  assert (∀ fuel s, List.length row ≤ s + fuel →
    ∀ fuel', List.length row ≤ s + fuel' →
      scanRow NOTE_NAMES fuel' row' ri s []
      = rereadVelocity row' <$> scanRow NOTE_NAMES fuel row ri s []) as Hgen.
  { intros fuel s Hfuel.
    apply (scanRow_ind NOTE_NAMES row ri (λ s out, ∀ fuel', List.length row ≤ s + fuel' →
      scanRow NOTE_NAMES fuel' row' ri s [] = rereadVelocity row' <$> out)); [| | |done].
    - intros s' Hs fuel' _. apply scanRow_end. lia.
    - intros s' cell out Hc Ha IH fuel' Hfuel'.
      pose proof (lookup_lt_Some _ _ _ Hc) as Hlt.
      destruct (lookup_lt_is_Some_2 row' s') as [cell' Hc']; [lia|].
      assert (active cell' = false) as Ha'.
      { pose proof (sameShape_activeAt row row' s' Hshape) as Hsame.
        unfold activeAt in Hsame. rewrite Hc, Hc' in Hsame. congruence. }
      destruct fuel' as [|fuel']; [lia|].
      rewrite (scanRow_inactive _ _ _ _ _ _ Hc' Ha'). apply IH. lia.
    - intros s' cell out Hc Ha IH fuel' Hfuel'.
      pose proof (lookup_lt_Some _ _ _ Hc) as Hlt.
      destruct (lookup_lt_is_Some_2 row' s') as [cell' Hc']; [lia|].
      assert (active cell' = true) as Ha'.
      { pose proof (sameShape_activeAt row row' s' Hshape) as Hsame.
        unfold activeAt in Hsame. rewrite Hc, Hc' in Hsame. congruence. }
      destruct fuel' as [|fuel']; [lia|].
      rewrite (scanRow_active _ _ _ _ _ _ Hc' Ha').
      pose proof (sameShape_runLength row row' (S s') Hshape) as Hrun.
      rewrite fmap_cons. f_equal.
      + unfold rereadVelocity, runEvent. simpl. by rewrite Hc', Hrun.
      + rewrite <- Hrun. apply IH. lia. }
  apply (Hgen (List.length row) 0); lia.
Qed.

Lemma rowEvents_same_shape (row row' : list NoteCell) (ri : nat) :
  sameShape row row' →
  eventShape <$> rowEvents NOTE_NAMES row' ri = eventShape <$> rowEvents NOTE_NAMES row ri.
Proof.
  intros Hshape. rewrite (rowEvents_reread row row' ri Hshape), <- list_fmap_compose.
  apply list_fmap_ext. by intros i e _.
Qed.

Lemma rowEvents_same_starts (row row' : list NoteCell) (ri : nat) :
  sameShape row row' →
  (∀ s, runStart row s → row' !! s = row !! s) →
  rowEvents NOTE_NAMES row' ri = rowEvents NOTE_NAMES row ri.
Proof.
  intros Hshape Hstarts. rewrite (rowEvents_reread row row' ri Hshape).
  rewrite <- (list_fmap_id (rowEvents NOTE_NAMES row ri)) at 2.
  apply list_fmap_ext. intros i e He%list_elem_of_lookup_2.
  pose proof (rowEvents_runStart NOTE_NAMES row ri e He) as Hstart.
  destruct (rowEvents_sound NOTE_NAMES row ri e He) as (cell & Hc & _ & Heq & _).
  rewrite Heq at 2. unfold rereadVelocity, runEvent. simpl.
  rewrite (Hstarts _ Hstart), Hc. simpl.
  rewrite Heq. simpl. done.
Qed.

End VelocityFacts.

Lemma concat_imap_insert {A B} (F : nat → A → list B) (l : list A) (i : nat) (x y : A) :
  l !! i = Some x → F i y = F i x →
  concat (imap F (<[i := y]> l)) = concat (imap F l).
Proof.
  revert F i. induction l as [|z l IH]; intros F i Hx HF; [done|].
  destruct i as [|i]; simpl in *.
  - injection Hx as ->. by rewrite HF.
  - f_equal. by apply IH.
Qed.

(** C6: the velocity of the event of a run is the velocity stored in the
    first cell of that run (0.8 when it stores none), for every run of
    every row, whatever the velocities of the other cells: a row with the
    same active flags and the same cells at the starts of its runs gives
    the same events, and so does the pattern with that row in its place. *)
Theorem run_velocity_is_first_cell (NOTE_NAMES : list string) (pattern : TrackPattern) :
  extractTrackEvents NOTE_NAMES pattern
  = concat (imap (λ rowIndex row, rowEvents NOTE_NAMES row rowIndex) pattern)
  ∧ ∀ rowIndex row, pattern !! rowIndex = Some row →
      (∀ e, e ∈ rowEvents NOTE_NAMES row rowIndex →
         ∃ cell,
           row !! step e = Some cell ∧ active cell = true
           ∧ maximalRun row (step e) (durationSteps e)
           ∧ note e = NOTE_NAMES !! rowIndex
           ∧ velocity e = default 0.8%float (cell_velocity cell)
           ∧ (∀ v, cell_velocity cell = Some v → velocity e = v))
      ∧ (∀ s d, maximalRun row s d →
           ∃ cell e,
             row !! s = Some cell ∧ e ∈ rowEvents NOTE_NAMES row rowIndex
             ∧ step e = s ∧ durationSteps e = d
             ∧ velocity e = default 0.8%float (cell_velocity cell))
      ∧ (∀ row', sameShape row row' →
           (∀ s, runStart row s → row' !! s = row !! s) →
           rowEvents NOTE_NAMES row' rowIndex = rowEvents NOTE_NAMES row rowIndex
           ∧ extractTrackEvents NOTE_NAMES (<[rowIndex := row']> pattern)
             = extractTrackEvents NOTE_NAMES pattern).
Proof.
  split; [apply extractTrackEvents_rows|].
  intros rowIndex row Hrow. split; [|split].
  - intros e He.
    destruct (rowEvents_sound NOTE_NAMES row rowIndex e He) as (cell & Hc & Ha & Heq & Hmax).
    exists cell. split; [done|]. split; [done|]. split; [done|].
    split; [by rewrite Heq|]. split; [by rewrite Heq|].
    intros v Hv. rewrite Heq. simpl. by rewrite Hv.
  - intros s d Hrun.
    destruct (rowEvents_complete NOTE_NAMES row rowIndex s d Hrun) as (e & He & Hs & Hd).
    destruct (rowEvents_sound NOTE_NAMES row rowIndex e He) as (cell & Hc & _ & Heq & _).
    exists cell, e. rewrite Hs in Hc. split; [done|]. split; [done|].
    split; [done|]. split; [done|]. by rewrite Heq.
  - intros row' Hshape Hstarts.
    pose proof (rowEvents_same_starts NOTE_NAMES row row' rowIndex Hshape Hstarts) as Hsame.
    split; [done|].
    rewrite !extractTrackEvents_rows.
    by apply (concat_imap_insert (λ i r, rowEvents NOTE_NAMES r i) pattern rowIndex row).
Qed.

Lemma sampleRow_starts (s : nat) : runStart sampleRow s → sampleRow' !! s = sampleRow !! s.
Proof.
  intros [Hactive Hbefore].
  do 8 (destruct s as [|s]; [first [reflexivity
                                   |discriminate Hactive
                                   |by destruct Hbefore as [?|?]]|]).
  discriminate Hactive.
Qed.

Lemma run_velocity_is_first_cell_witness :
  [sampleRow] !! 0 = Some sampleRow
  ∧ sameShape sampleRow sampleRow'
  ∧ rowEvents sampleNames sampleRow' 0 = rowEvents sampleNames sampleRow 0
  ∧ velocity <$> rowEvents sampleNames sampleRow' 0 = [0.5%float; 0.25%float].
Proof.
  split; [reflexivity|]. split; [reflexivity|].
  destruct (proj2 (proj2 (proj2 (run_velocity_is_first_cell sampleNames [sampleRow])
                            0 sampleRow eq_refl))
              sampleRow' eq_refl sampleRow_starts) as [Hsame _].
  split; [exact Hsame|]. rewrite Hsame. reflexivity.
Defined.

Section VelocityChange.
Variable NOTE_NAMES : list string.

(** The pattern after the velocity of the cell at row [r], step [s] was
    replaced: the events keep their places, and they keep their
    velocities too unless that cell starts a run. *)
Lemma setVelocity_events (r s : nat) (value : float) (pattern : TrackPattern) :
  eventShape <$> extractTrackEvents NOTE_NAMES
    (imap (λ rowIdx row,
       imap (λ stepIdx cell,
         if (rowIdx =? r) && (stepIdx =? s)
         then {| active := active cell; cell_velocity := Some value |} else cell) row)
       pattern)
  = eventShape <$> extractTrackEvents NOTE_NAMES pattern
  ∧ ((∀ row, pattern !! r = Some row → ¬ runStart row s) →
     extractTrackEvents NOTE_NAMES
       (imap (λ rowIdx row,
          imap (λ stepIdx cell,
            if (rowIdx =? r) && (stepIdx =? s)
            then {| active := active cell; cell_velocity := Some value |} else cell) row)
          pattern)
     = extractTrackEvents NOTE_NAMES pattern).
Proof.
  rewrite !extractTrackEvents_rows, imap_imap_compose.
  assert (∀ i (row : list NoteCell),
    sameShape row (imap (λ stepIdx cell,
      if (i =? r) && (stepIdx =? s)
      then {| active := active cell; cell_velocity := Some value |} else cell) row))
    as Hshape.
  { intros i row. apply imap_same_active. intros j cell.
    by destruct ((i =? r) && (j =? s)). }
  split.
  - apply concat_imap_fmap_ext. intros i row _.
    apply rowEvents_same_shape, Hshape.
  - intros Hstart.
    rewrite <- (list_fmap_id (concat (imap _ pattern))).
    rewrite <- (list_fmap_id (concat (imap (λ i row, rowEvents NOTE_NAMES row i) pattern))).
    apply concat_imap_fmap_ext. intros i row Hrow. f_equal.
    apply rowEvents_same_starts; [apply Hshape|].
    intros s0 Hs0. rewrite list_lookup_imap.
    destruct (row !! s0) as [cell|] eqn:Hcell; [|done]. simpl.
    destruct (i =? r) eqn:Hi; simpl; [|done].
    destruct (s0 =? s) eqn:Hs; simpl; [|done].
    apply Nat.eqb_eq in Hi, Hs. subst. by destruct (Hstart row Hrow).
Qed.

End VelocityChange.

(** [handleVelocityChange] moves no event: every track keeps its events'
    steps, durations and labels, and all its other fields; when the
    selected cell is not the first cell of a run, the events keep their
    velocities as well, so nothing that is played or exported changes. *)
Theorem handleVelocityChange_events (NOTE_NAMES : list string) (value : float)
    (page : Page) (k : nat) (track : TrackState) :
  page_tracks page !! k = Some track →
  page_selectedCell (handleVelocityChange value page) = page_selectedCell page
  ∧ ∃ track',
      page_tracks (handleVelocityChange value page) !! k = Some track'
      ∧ (track_id track', track_name track', track_instrument track',
         track_volume track', track_muted track')
        = (track_id track, track_name track, track_instrument track,
           track_volume track, track_muted track)
      ∧ eventShape <$> extractTrackEvents NOTE_NAMES (track_pattern track')
        = eventShape <$> extractTrackEvents NOTE_NAMES (track_pattern track)
      ∧ (∀ c, page_selectedCell page = Some c →
           (∀ row, track_pattern track !! sel_row c = Some row →
                   ¬ runStart row (sel_step c)) →
           extractTrackEvents NOTE_NAMES (track_pattern track')
           = extractTrackEvents NOTE_NAMES (track_pattern track)).
Proof.
  intros Hk. unfold handleVelocityChange.
  destruct (page_selectedCell page) as [c|] eqn:Hsel.
  - simpl. split; [done|]. unfold updateTrack. rewrite lookup_map, Hk. simpl.
    destruct (String.eqb (track_id track) (sel_trackId c)).
    + eexists. split; [reflexivity|]. simpl. split; [done|].
      pose proof (setVelocity_events NOTE_NAMES (sel_row c) (sel_step c) value
                    (track_pattern track)) as [Hshape Hsame].
      split; [exact Hshape|]. intros c' [= <-] Hstart. by apply Hsame.
    + exists track. split; [done|]. split; [done|]. split; [done|]. done.
  - rewrite Hsel. split; [done|]. exists track. split; [done|]. split; [done|].
    split; [done|]. done.
Qed.

Lemma handleVelocityChange_events_witness :
  {| page_tracks := [sampleTrack [sampleRow] false];
     page_selectedCell := Some {| sel_trackId := "t1"; sel_row := 0; sel_step := 3 |} |}.(page_tracks)
    !! 0 = Some (sampleTrack [sampleRow] false)
  ∧ extractTrackEvents sampleNames
      (track_pattern (sampleTrack
         [[cellOff; cellOff; cellOn 0.5; cellOn 0.1; cellOn 1; cellOff; cellOff; cellOn 0.25]]
         false))
    = extractTrackEvents sampleNames (track_pattern (sampleTrack [sampleRow] false)).
Proof.
  split; [reflexivity|].
  destruct (handleVelocityChange_events sampleNames 0.1%float
              {| page_tracks := [sampleTrack [sampleRow] false];
                 page_selectedCell :=
                   Some {| sel_trackId := "t1"; sel_row := 0; sel_step := 3 |} |}
              0 (sampleTrack [sampleRow] false) eq_refl)
    as (_ & track' & Hk & _ & _ & Hsame).
  injection Hk as <-.
  apply (Hsame {| sel_trackId := "t1"; sel_row := 0; sel_step := 3 |} eq_refl).
  simpl. intros row Hrow. injection Hrow as <-.
  intros [_ [Hzero|Hprev]]; [discriminate|]. vm_compute in Hprev. discriminate.
Defined.

Lemma find_map_same {A} (p : A → bool) (f : A → A) (l : list A) :
  (∀ x, p (f x) = p x) → List.find p (map f l) = f <$> List.find p l.
Proof.
  intros Hp. induction l as [|x l IH]; simpl; [done|].
  rewrite Hp. by destruct (p x).
Qed.

(** The velocity set through the inspector is the velocity the inspector
    reads back: with a note in the inspector, [handleVelocityChange]
    leaves that note selected, with the new velocity, the same label and
    the same track id. *)
Theorem handleVelocityChange_selectedNote (NOTE_NAMES : list string) (value : float)
    (page : Page) (sn : SelectedNote) :
  selectedNote NOTE_NAMES page = Some sn →
  ∃ sn',
    selectedNote NOTE_NAMES (handleVelocityChange value page) = Some sn'
    ∧ sn_velocity sn' = Some value
    ∧ sn_active sn' = true
    ∧ sn_note sn' = sn_note sn
    ∧ track_id (sn_track sn') = track_id (sn_track sn).
Proof.
  unfold selectedNote, handleVelocityChange.
  destruct (page_selectedCell page) as [c|] eqn:Hsel; [|done]. simpl.
  unfold updateTrack. rewrite find_map_same.
  2:{ intros x. simpl.
      destruct (String.eqb (track_id x) (sel_trackId c)) eqn:Hx; simpl; by rewrite ?Hx. }
  destruct (List.find _ (page_tracks page)) as [track|] eqn:Hfind; [|done]. simpl.
  apply find_some in Hfind as [_ Hid]. rewrite Hid. simpl.
  rewrite list_lookup_imap.
  destruct (track_pattern track !! sel_row c) as [row|] eqn:Hrow; [|done]. simpl.
  rewrite list_lookup_imap.
  destruct (row !! sel_step c) as [cell|] eqn:Hcell; [|done]. simpl.
  rewrite !Nat.eqb_refl. simpl.
  destruct (active cell) eqn:Ha; simpl; [|done].
  intros [= <-]. eexists. split; [reflexivity|]. done.
Qed.

Lemma handleVelocityChange_selectedNote_witness :
  selectedNote sampleNames
    {| page_tracks := [sampleTrack [sampleRow] false];
       page_selectedCell := Some {| sel_trackId := "t1"; sel_row := 0; sel_step := 2 |} |}
  = Some {| sn_active := true; sn_velocity := Some 0.5%float;
            sn_note := Some "C4"%string; sn_track := sampleTrack [sampleRow] false |}
  ∧ ∃ sn',
      selectedNote sampleNames
        (handleVelocityChange 0.75
           {| page_tracks := [sampleTrack [sampleRow] false];
              page_selectedCell :=
                Some {| sel_trackId := "t1"; sel_row := 0; sel_step := 2 |} |})
      = Some sn'
      ∧ sn_velocity sn' = Some 0.75%float
      ∧ sn_active sn' = true
      ∧ sn_note sn' = Some "C4"%string
      ∧ track_id (sn_track sn') = "t1"%string.
Proof.
  split; [reflexivity|].
  exact (handleVelocityChange_selectedNote sampleNames 0.75%float
           {| page_tracks := [sampleTrack [sampleRow] false];
              page_selectedCell :=
                Some {| sel_trackId := "t1"; sel_row := 0; sel_step := 2 |} |}
           _ eq_refl).
Defined.

(** The velocity slider of the inspector is exact: for every position [n]
    from 10 to 127, the velocity [n / 127] it stores is shown again as
    [n] (and exported as MIDI velocity [n]). *)
Theorem slider_round_trip (n : nat) :
  10 ≤ n ≤ 127 →
  shownVelocity (PrimFloat.div (floatOfNat n) 127) = floatOfNat n.
Proof.
  intros [Hlow Hhigh].
  do 128 (destruct n as [|n]; [first [lia|reflexivity]|]).
  lia.
Qed.

Lemma slider_round_trip_witness :
  10 ≤ 100 ≤ 127
  ∧ shownVelocity (PrimFloat.div (floatOfNat 100) 127) = floatOfNat 100.
Proof.
  assert (10 ≤ 100 ≤ 127) as Hrange by lia.
  split; [exact Hrange|]. exact (slider_round_trip 100 Hrange).
Defined.

(** * Editing the track list *)

Lemma updateTrack_lookup (trackId : string) (f : TrackState → TrackState)
    (l : list TrackState) (k : nat) :
  updateTrack trackId f l !! k
  = (λ track, if String.eqb (track_id track) trackId then f track else track) <$> l !! k.
Proof. unfold updateTrack. apply lookup_map. Qed.

Lemma updateTrack_ext (trackId : string) (f g : TrackState → TrackState)
    (l : list TrackState) :
  (∀ track, track ∈ l → track_id track = trackId → f track = g track) →
  updateTrack trackId f l = updateTrack trackId g l.
Proof.
  intros Hfg. unfold updateTrack. apply map_ext_in. intros track Hin%list_elem_of_In.
  destruct (String.eqb (track_id track) trackId) eqn:Hid; [|done].
  apply Hfg; [done|]. by apply String.eqb_eq.
Qed.

Lemma updateTrack_same (trackId : string) (f : TrackState → TrackState)
    (l : list TrackState) :
  (∀ track, track ∈ l → track_id track = trackId → f track = track) →
  updateTrack trackId f l = l.
Proof.
  intros Hf. unfold updateTrack. rewrite <- (map_id l) at 2.
  apply map_ext_in. intros track Hin%list_elem_of_In.
  destruct (String.eqb (track_id track) trackId) eqn:Hid; [|done].
  apply Hf; [done|]. by apply String.eqb_eq.
Qed.

Lemma updateTrack_compose (trackId : string) (f g : TrackState → TrackState)
    (l : list TrackState) :
  (∀ track, track_id (g track) = track_id track) →
  updateTrack trackId f (updateTrack trackId g l)
  = updateTrack trackId (λ track, f (g track)) l.
Proof.
  intros Hg. unfold updateTrack. rewrite map_map. apply map_ext. intros track.
  destruct (String.eqb (track_id track) trackId) eqn:Hid; [|by rewrite Hid].
  by rewrite Hg, Hid.
Qed.

Lemma updateTrack_commute (a b : string) (f g : TrackState → TrackState)
    (l : list TrackState) :
  a ≠ b →
  (∀ track, track_id (f track) = track_id track) →
  (∀ track, track_id (g track) = track_id track) →
  updateTrack a f (updateTrack b g l) = updateTrack b g (updateTrack a f l).
Proof.
  intros Hab Hf Hg. unfold updateTrack. rewrite !map_map. apply map_ext. intros track.
  destruct (String.eqb (track_id track) a) eqn:Ha;
    destruct (String.eqb (track_id track) b) eqn:Hb;
    rewrite ?Hf, ?Hg, ?Ha, ?Hb; try done.
  apply String.eqb_eq in Ha, Hb. congruence.
Qed.

Lemma toggleCellUpdater_eq (trackId : string) (row step : Z) (forceState : option bool)
    (prev : list TrackState) :
  toggleCellUpdater trackId row step forceState prev
  = updateTrack trackId
      (λ track, withPattern (togglePattern row step forceState (track_pattern track)) track)
      prev.
Proof.
  unfold toggleCellUpdater, updateTrack. apply map_ext. intros track.
  destruct (String.eqb (track_id track) trackId); simpl; [|done].
  unfold withPattern, togglePattern. f_equal.
  apply imap_ext. intros ri noteRow _. apply imap_ext. intros si cell _.
  destruct (Z.of_nat ri =? row)%Z, (Z.of_nat si =? step)%Z; simpl; try done.
  unfold toggledCell. by destruct (default (negb (active cell)) forceState).
Qed.

Lemma togglePattern_twice (row step : Z) (f1 f2 : option bool) (pattern : TrackPattern) :
  togglePattern row step f2 (togglePattern row step f1 pattern)
  = imap (λ rowIdx noteRow,
      imap (λ stepIdx cell,
        if (Z.of_nat rowIdx =? row)%Z && (Z.of_nat stepIdx =? step)%Z
        then toggledCell f2 (toggledCell f1 cell) else cell)
        noteRow)
      pattern.
Proof.
  unfold togglePattern. rewrite imap_imap_compose. apply imap_ext.
  intros ri noteRow _. rewrite imap_imap_compose. apply imap_ext. intros si cell _.
  by destruct ((Z.of_nat ri =? row)%Z && (Z.of_nat si =? step)%Z).
Qed.

Section ToggleTwice.
Variable NOTE_NAMES : list string.

Lemma rowEvents_same_velocities (row row' : list NoteCell) (ri : nat) :
  sameShape row row' →
  (∀ s cell cell', row !! s = Some cell → row' !! s = Some cell' →
     default 0.8%float (cell_velocity cell') = default 0.8%float (cell_velocity cell)) →
  rowEvents NOTE_NAMES row' ri = rowEvents NOTE_NAMES row ri.
Proof.
  intros Hshape Hvel. rewrite (rowEvents_reread NOTE_NAMES row row' ri Hshape).
  rewrite <- (list_fmap_id (rowEvents NOTE_NAMES row ri)) at 2.
  apply list_fmap_ext. intros i e He%list_elem_of_lookup_2.
  destruct (rowEvents_sound NOTE_NAMES row ri e He) as (cell & Hc & _ & Heq & _).
  pose proof (lookup_lt_Some _ _ _ Hc) as Hlt.
  rewrite (sameShape_length _ _ Hshape) in Hlt.
  destruct (lookup_lt_is_Some_2 row' (step e) Hlt) as [cell' Hc'].
  rewrite Heq at 2. unfold rereadVelocity, runEvent. simpl.
  rewrite Hc'. simpl. rewrite (Hvel _ _ _ Hc Hc'). rewrite Heq. simpl. done.
Qed.

Lemma extract_pointwise (f : nat → list NoteCell → list NoteCell) (pattern : TrackPattern) :
  (∀ i row, pattern !! i = Some row →
     rowEvents NOTE_NAMES (f i row) i = rowEvents NOTE_NAMES row i) →
  extractTrackEvents NOTE_NAMES (imap f pattern) = extractTrackEvents NOTE_NAMES pattern.
Proof.
  intros Hrows. rewrite !extractTrackEvents_rows, imap_imap_compose.
  rewrite <- (list_fmap_id (concat (imap _ pattern))).
  rewrite <- (list_fmap_id (concat (imap (λ i row, rowEvents NOTE_NAMES row i) pattern))).
  apply concat_imap_fmap_ext. intros i row Hrow. f_equal. by apply Hrows.
Qed.

Lemma toggle_twice_events (row step : Z) (pattern : TrackPattern) :
  extractTrackEvents NOTE_NAMES
    (togglePattern row step None (togglePattern row step None pattern))
  = extractTrackEvents NOTE_NAMES pattern.
Proof.
  rewrite togglePattern_twice. apply extract_pointwise. intros i noteRow _.
  apply rowEvents_same_velocities.
  - apply imap_same_active. intros j cell.
    destruct ((Z.of_nat i =? row)%Z && (Z.of_nat j =? step)%Z); [|done].
    simpl. apply negb_involutive.
  - intros s cell cell' Hc. rewrite list_lookup_imap, Hc. simpl. intros [= <-].
    by destruct ((Z.of_nat i =? row)%Z && (Z.of_nat s =? step)%Z).
Qed.

End ToggleTwice.

(** Toggling a cell twice gives back what is played and exported: every
    track has its events again; and it gives back the tracks themselves
    when every cell stores a velocity.  Forcing a state twice is forcing
    it once. *)
Theorem toggleCell_twice (NOTE_NAMES : list string) (trackId : string) (row step : Z)
    (prev : list TrackState) :
  ∃ once twice,
    toggleCell trackId row step None prev = Normal once
    ∧ toggleCell trackId row step None once = Normal twice
    ∧ (∀ k track, prev !! k = Some track →
         ∃ track', twice !! k = Some track'
           ∧ extractTrackEvents NOTE_NAMES (track_pattern track')
             = extractTrackEvents NOTE_NAMES (track_pattern track))
    ∧ (velocitiesStored prev → twice = prev)
    ∧ ∀ state forced,
        toggleCell trackId row step (Some state) prev = Normal forced →
        toggleCell trackId row step (Some state) forced = Normal forced.
Proof.
  exists (toggleCellUpdater trackId row step None prev),
    (toggleCellUpdater trackId row step None (toggleCellUpdater trackId row step None prev)).
  split; [done|]. split; [done|].
  rewrite !toggleCellUpdater_eq, updateTrack_compose by done. simpl.
  split; [|split].
  - intros k track Hk. rewrite updateTrack_lookup, Hk. simpl.
    destruct (String.eqb (track_id track) trackId); [|by exists track].
    eexists. split; [reflexivity|]. simpl. apply toggle_twice_events.
  - intros Hstored. apply updateTrack_same. intros track Hin _.
    rewrite togglePattern_twice. unfold withPattern.
    rewrite imap_fixed; [by destruct track|].
    intros i noteRow Hrow. apply imap_fixed. intros j cell Hcell.
    destruct ((Z.of_nat i =? row)%Z && (Z.of_nat j =? step)%Z); [|done].
    destruct (Hstored track noteRow cell Hin) as [v Hv];
      [by eapply list_elem_of_lookup_2..|].
    unfold toggledCell. simpl. rewrite Hv. simpl. rewrite negb_involutive.
    destruct cell. simpl in *. by subst.
  - intros state forced [= <-]. unfold toggleCell. f_equal.
    rewrite !toggleCellUpdater_eq, updateTrack_compose by done. simpl.
    apply updateTrack_ext. intros track _ _. unfold withPattern. simpl.
    rewrite togglePattern_twice.
    replace (imap _ (track_pattern track))
      with (togglePattern row step (Some state) (track_pattern track)); [done|].
    unfold togglePattern.
    apply imap_ext. intros i noteRow _. apply imap_ext. intros j cell _.
    by destruct ((Z.of_nat i =? row)%Z && (Z.of_nat j =? step)%Z).
Qed.

Lemma toggleCell_twice_witness :
  velocitiesStored [sampleTrack [sampleRow] false]
  ∧ ∃ once,
      toggleCell "t1" 0 3 None [sampleTrack [sampleRow] false] = Normal once
      ∧ toggleCell "t1" 0 3 None once = Normal [sampleTrack [sampleRow] false].
Proof.
  assert (velocitiesStored [sampleTrack [sampleRow] false]) as Hstored.
  { intros track row cell Htrack Hrow Hcell.
    apply list_elem_of_singleton in Htrack as ->.
    apply list_elem_of_singleton in Hrow as ->.
    unfold sampleRow in Hcell.
    repeat (apply elem_of_cons in Hcell as [->|Hcell]; [by eexists|]).
    by apply elem_of_nil in Hcell. }
  split; [exact Hstored|].
  destruct (toggleCell_twice sampleNames "t1" 0 3 [sampleTrack [sampleRow] false])
    as (once & twice & Honce & Htwice & _ & Hsame & _).
  exists once. split; [exact Honce|]. rewrite Htwice. f_equal. exact (Hsame Hstored).
Defined.

(** Muting twice gives back the tracks; a later volume replaces an
    earlier one; the handlers of the cards of two tracks of different ids
    commute. *)
Theorem track_card_handlers (track other : TrackState) (tracks : list TrackState) :
  handleMuteToggle track (handleMuteToggle track tracks) = tracks
  ∧ (∀ v1 v2, handleVolumeChange track v2 (handleVolumeChange track v1 tracks)
              = handleVolumeChange track v2 tracks)
  ∧ (track_id track ≠ track_id other →
     handleMuteToggle track (handleMuteToggle other tracks)
     = handleMuteToggle other (handleMuteToggle track tracks)
     ∧ (∀ v name, handleVolumeChange track v (handleNameChange other name tracks)
                  = handleNameChange other name (handleVolumeChange track v tracks))
     ∧ (∀ v instrument,
          handleVolumeChange track v (handleInstrumentChange other instrument tracks)
          = handleInstrumentChange other instrument (handleVolumeChange track v tracks))).
Proof.
  unfold handleMuteToggle, handleVolumeChange, handleNameChange, handleInstrumentChange.
  split; [|split].
  - rewrite updateTrack_compose by done. apply updateTrack_same.
    intros t _ _. unfold withMuted. simpl. rewrite negb_involutive. by destruct t.
  - intros v1 v2. rewrite updateTrack_compose by done. by apply updateTrack_ext.
  - intros Hne. split; [|split]; intros; by apply updateTrack_commute.
Qed.

Lemma track_card_handlers_witness :
  track_id (sampleTrack [sampleRow] false) ≠ track_id sampleTrack2
  ∧ handleMuteToggle (sampleTrack [sampleRow] false)
      (handleMuteToggle sampleTrack2 [sampleTrack [sampleRow] false; sampleTrack2])
    = handleMuteToggle sampleTrack2
        (handleMuteToggle (sampleTrack [sampleRow] false)
           [sampleTrack [sampleRow] false; sampleTrack2]).
Proof.
  assert (track_id (sampleTrack [sampleRow] false) ≠ track_id sampleTrack2) as Hne
    by discriminate.
  split; [exact Hne|].
  exact (proj1 (proj2 (proj2 (track_card_handlers (sampleTrack [sampleRow] false)
                                sampleTrack2
                                [sampleTrack [sampleRow] false; sampleTrack2])) Hne)).
Defined.

(** * Removing and adding tracks *)

Lemma filter_keeps_all {A} (p : A → bool) (l : list A) :
  (∀ x, x ∈ l → p x = true) → List.filter p l = l.
Proof.
  induction l as [|x l IH]; intros Hp; simpl; [done|].
  rewrite (Hp x) by left. f_equal. apply IH. intros y Hy. apply Hp. by right.
Qed.

Lemma filter_sublist {A} (p : A → bool) (l : list A) : sublist (List.filter p l) l.
Proof.
  induction l as [|x l IH]; simpl; [constructor|].
  destruct (p x); by constructor.
Qed.

(** [removeTrack] takes out exactly the tracks of the given id and keeps
    the others in their order; a selection stays exactly when it is on
    another id, so a selection that named a track of the page still does. *)
Theorem removeTrack_spec (trackId : string) (page : Page) :
  (∀ track, track ∈ page_tracks (removeTrack trackId page)
            ↔ track ∈ page_tracks page ∧ track_id track ≠ trackId)
  ∧ sublist (page_tracks (removeTrack trackId page)) (page_tracks page)
  ∧ (∀ c, page_selectedCell (removeTrack trackId page) = Some c
          ↔ page_selectedCell page = Some c ∧ sel_trackId c ≠ trackId)
  ∧ (selectionValid page → selectionValid (removeTrack trackId page)).
Proof.
  assert (∀ track, track ∈ page_tracks (removeTrack trackId page)
            ↔ track ∈ page_tracks page ∧ track_id track ≠ trackId) as Hin.
  { intros track. simpl. rewrite !list_elem_of_In, filter_In, negb_true_iff.
    by rewrite String.eqb_neq. }
  assert (∀ c, page_selectedCell (removeTrack trackId page) = Some c
          ↔ page_selectedCell page = Some c ∧ sel_trackId c ≠ trackId) as Hsel.
  { intros c. simpl. destruct (page_selectedCell page) as [prev|].
    - destruct (String.eqb (sel_trackId prev) trackId) eqn:Hid.
      + apply String.eqb_eq in Hid. split; [done|]. intros [[= ->] ?]. done.
      + apply String.eqb_neq in Hid. split.
        * by intros [= <-].
        * by intros [? _].
    - split; [done|]. by intros [? _]. }
  split; [exact Hin|]. split; [apply filter_sublist|]. split; [exact Hsel|].
  intros Hvalid c [Hc Hne]%Hsel.
  destruct (Hvalid c Hc) as (track & Htrack & Hid).
  exists track. split; [|done]. apply Hin. split; [done|]. congruence.
Qed.

Lemma removeTrack_spec_witness :
  selectionValid
    {| page_tracks := [sampleTrack [sampleRow] false; sampleTrack2];
       page_selectedCell := Some {| sel_trackId := "t1"; sel_row := 0; sel_step := 2 |} |}
  ∧ selectionValid
      (removeTrack "t2"
         {| page_tracks := [sampleTrack [sampleRow] false; sampleTrack2];
            page_selectedCell :=
              Some {| sel_trackId := "t1"; sel_row := 0; sel_step := 2 |} |}).
Proof.
  assert (selectionValid
    {| page_tracks := [sampleTrack [sampleRow] false; sampleTrack2];
       page_selectedCell := Some {| sel_trackId := "t1"; sel_row := 0; sel_step := 2 |} |})
    as Hvalid.
  { intros c [= <-]. exists (sampleTrack [sampleRow] false). split; [left|done]. }
  split; [exact Hvalid|].
  exact (proj2 (proj2 (proj2 (removeTrack_spec "t2" _))) Hvalid).
Defined.

(** Removing a track that was just added, under an id no track has yet,
    gives back the page. *)
Theorem addTrack_removeTrack (INSTRUMENTS : list string) (emptyPattern : TrackPattern)
    (newId : string) (page : Page) :
  (newId ∉ track_id <$> page_tracks page) →
  selectionValid page →
  removeTrack newId (addTrack INSTRUMENTS emptyPattern newId page) = page.
Proof.
  intros Hfresh Hvalid. destruct page as [tracks selected]. unfold removeTrack. simpl in *.
  f_equal.
  - rewrite List.filter_app. simpl. rewrite String.eqb_refl. simpl.
    rewrite app_nil_r. apply filter_keeps_all. intros track Hin.
    apply negb_true_iff, String.eqb_neq. intros Heq. apply Hfresh.
    rewrite <- Heq. by apply list_elem_of_fmap_2.
  - destruct selected as [c|]; [|done].
    destruct (String.eqb (sel_trackId c) newId) eqn:Hid; [|done].
    apply String.eqb_eq in Hid. destruct (Hvalid c eq_refl) as (track & Hin & Htrack).
    simpl in *. exfalso. apply Hfresh. rewrite <- Hid, <- Htrack.
    by apply list_elem_of_fmap_2.
Qed.

Lemma addTrack_removeTrack_witness :
  ("t3"%string ∉ track_id <$> [sampleTrack [sampleRow] false; sampleTrack2])
  ∧ removeTrack "t3"
      (addTrack ["dream-pad"; "chiptune"; "fm-keys"; "bass"]%string [[cellOff; cellOff]] "t3"
         {| page_tracks := [sampleTrack [sampleRow] false; sampleTrack2];
            page_selectedCell := None |})
    = {| page_tracks := [sampleTrack [sampleRow] false; sampleTrack2];
         page_selectedCell := None |}.
Proof.
  assert ("t3"%string ∉ (track_id <$> [sampleTrack [sampleRow] false; sampleTrack2]))
    as Hfresh.
  { simpl. intros Hin. repeat (apply elem_of_cons in Hin as [Hin|Hin]; [discriminate|]).
    by apply elem_of_nil in Hin. }
  split; [exact Hfresh|].
  apply addTrack_removeTrack; [exact Hfresh|]. by intros c.
Defined.

(** * Clicking a cell *)

Section CellInteraction.
Variable NOTE_NAMES : list string.

Lemma toggled_lookup (row step : Z) (forceState : option bool) (pattern : TrackPattern)
    (r s : nat) :
  togglePattern row step forceState pattern !! r ≫= (λ cells, cells !! s)
  = (λ cell, if (Z.of_nat r =? row)%Z && (Z.of_nat s =? step)%Z
             then toggledCell forceState cell else cell)
    <$> (pattern !! r ≫= (λ cells, cells !! s)).
Proof.
  unfold togglePattern. rewrite list_lookup_imap.
  destruct (pattern !! r) as [cells|]; [|done]. simpl.
  by rewrite list_lookup_imap.
Qed.

End CellInteraction.

(** A click on a place that is no cell of the card's track throws, and
    nothing is changed.  A click on a cell switches it to the opposite
    state and keeps its velocity; a cell switched on becomes the
    selection, and the inspector then shows it, active, with its velocity
    and the label of its row; a cell switched off clears the selection. *)
Theorem handleCellInteraction_spec (NOTE_NAMES : list string) (track : TrackState)
    (row step : nat) (page : Page) :
  (track_pattern track !! row ≫= (λ cells, cells !! step) = None →
   ∃ error, handleCellInteraction track row step page = Throw error)
  ∧ ∀ cell,
      track_pattern track !! row ≫= (λ cells, cells !! step) = Some cell →
      List.find (λ item, String.eqb (track_id item) (track_id track)) (page_tracks page)
      = Some track →
      ∃ page' track',
        handleCellInteraction track row step page = Normal page'
        ∧ List.find (λ item, String.eqb (track_id item) (track_id track)) (page_tracks page')
          = Some track'
        ∧ track_pattern track' !! row ≫= (λ cells, cells !! step)
          = Some {| active := negb (active cell);
                    cell_velocity := Some (default 0.8%float (cell_velocity cell)) |}
        ∧ page_selectedCell page'
          = (if active cell then None
             else Some {| sel_trackId := track_id track; sel_row := row; sel_step := step |})
        ∧ selectedNote NOTE_NAMES page'
          = (if active cell then None
             else Some {| sn_active := true;
                          sn_velocity := Some (default 0.8%float (cell_velocity cell));
                          sn_note := NOTE_NAMES !! row;
                          sn_track := track' |}).
Proof.
  split.
  - unfold handleCellInteraction. destruct (track_pattern track !! row) as [cells|]; simpl.
    + intros ->. by eexists.
    + intros _. by eexists.
  - intros cell Hcell Hfind. unfold handleCellInteraction.
    destruct (track_pattern track !! row) as [cells|] eqn:Hrow; [|done]. simpl in Hcell.
    rewrite Hcell. unfold toggleCell. rewrite toggleCellUpdater_eq.
    remember (negb (active cell)) as next eqn:Hnext.
    eexists _, _. split; [reflexivity|]. simpl.
    assert (List.find (λ item, String.eqb (track_id item) (track_id track))
              (updateTrack (track_id track)
                 (λ t, withPattern
                         (togglePattern (Z.of_nat row) (Z.of_nat step)
                            (Some next) (track_pattern t)) t)
                 (page_tracks page))
            = Some (withPattern
                      (togglePattern (Z.of_nat row) (Z.of_nat step)
                         (Some next) (track_pattern track)) track))
      as Hfind'.
    { unfold updateTrack. rewrite find_map_same.
      - rewrite Hfind. simpl. by rewrite String.eqb_refl.
      - intros x. destruct (String.eqb (track_id x) (track_id track)) eqn:Hx; simpl;
          by rewrite ?Hx. }
    split; [exact Hfind'|].
    assert (togglePattern (Z.of_nat row) (Z.of_nat step) (Some next)
              (track_pattern track) !! row ≫= (λ cells, cells !! step)
            = Some {| active := next;
                      cell_velocity := Some (default 0.8%float (cell_velocity cell)) |})
      as Hnew.
    { rewrite toggled_lookup, Hrow. simpl. rewrite Hcell. simpl.
      by rewrite !Z.eqb_refl. }
    split; [exact Hnew|].
    unfold selectedNote. simpl.
    destruct next; destruct (active cell); try discriminate Hnext; simpl; [|done].
    split; [done|]. rewrite Hfind'. simpl in *. rewrite Hnew. simpl. done.
Qed.

Lemma handleCellInteraction_spec_witness :
  track_pattern (sampleTrack [sampleRow] false) !! 0 ≫= (λ cells, cells !! 5) = Some cellOff
  ∧ ∃ page' track',
      handleCellInteraction (sampleTrack [sampleRow] false) 0 5
        {| page_tracks := [sampleTrack [sampleRow] false]; page_selectedCell := None |}
      = Normal page'
      ∧ List.find (λ item, String.eqb (track_id item)
                             (track_id (sampleTrack [sampleRow] false)))
          (page_tracks page') = Some track'
      ∧ track_pattern track' !! 0 ≫= (λ cells, cells !! 5)
        = Some {| active := negb (active cellOff);
                  cell_velocity := Some (default 0.8%float (cell_velocity cellOff)) |}
      ∧ page_selectedCell page'
        = (if active cellOff then None
           else Some {| sel_trackId := track_id (sampleTrack [sampleRow] false);
                        sel_row := 0; sel_step := 5 |})
      ∧ selectedNote sampleNames page'
        = (if active cellOff then None
           else Some {| sn_active := true;
                        sn_velocity := Some (default 0.8%float (cell_velocity cellOff));
                        sn_note := sampleNames !! 0;
                        sn_track := track' |}).
Proof.
  split; [reflexivity|].
  exact (proj2 (handleCellInteraction_spec sampleNames (sampleTrack [sampleRow] false) 0 5
                  {| page_tracks := [sampleTrack [sampleRow] false];
                     page_selectedCell := None |})
           cellOff eq_refl eq_refl).
Defined.

(** * The notes of an exported track *)

(** With a label for every row and a writer that accepts the labels,
    every event of a track is in the exported track as a note-on at tick
    [step * 32] and, later in the track, a note-off at tick
    [(step + durationSteps) * 32], both under the lower-cased label of the
    event; the track holds these notes and no other. *)
Theorem export_note_pairs (noteError : string → option string)
    (NOTE_NAMES : list string) (tempo : float) (index : nat) (track : TrackState) :
  List.length (track_pattern track) ≤ List.length NOTE_NAMES →
  writerAccepts noteError NOTE_NAMES →
  List.length (absoluteNotes 0 (exportTrack noteError NOTE_NAMES tempo index track []).1)
  = 2 * List.length (extractTrackEvents NOTE_NAMES (track_pattern track))
  ∧ ∀ e, e ∈ extractTrackEvents NOTE_NAMES (track_pattern track) →
      ∃ label i j,
        note e = Some label ∧ i < j
        ∧ absoluteNotes 0 (exportTrack noteError NOTE_NAMES tempo index track []).1 !! i
          = Some (on, toLowerCase label, (Z.of_nat (step e) * 32)%Z,
                  Math_round (PrimFloat.mul (velocity e) 127))
        ∧ absoluteNotes 0 (exportTrack noteError NOTE_NAMES tempo index track []).1 !! j
          = Some (off, toLowerCase label,
                  (Z.of_nat (step e + durationSteps e) * 32)%Z, 0%float).
Proof.
  intros Hrows Hwriter. rewrite exportTrack_absoluteNotes.
  rewrite emittedPrefix_full by by apply extract_accepted.
  split.
  - rewrite length_fmap, sortedSubEvents_Permutation.
    induction (extractTrackEvents NOTE_NAMES (track_pattern track)) as [|e l IH];
      simpl; [done|]. rewrite IH. lia.
  - intros e He.
    destruct (extracted_event_fits NOTE_NAMES (track_pattern track) e He)
      as (ri & row & Hrow & Hdur & _ & Hnote).
    destruct (lookup_lt_is_Some_2 NOTE_NAMES ri) as [label Hlabel].
    { apply lookup_lt_Some in Hrow. lia. }
    rewrite Hlabel in Hnote.
    pose proof (toSubEvents_32 e) as Hsubs.
    set (on_e := {| tick := Z.of_nat (step e) * 32; type := on; sub_note := note e;
                    sub_velocity := Math_round (PrimFloat.mul (velocity e) 127) |}) in *.
    set (off_e := {| tick := Z.of_nat (step e + durationSteps e) * 32; type := off;
                     sub_note := note e; sub_velocity := 0%float |}) in *.
    assert (on_e ∈ sortedSubEvents (extractTrackEvents NOTE_NAMES (track_pattern track)))
      as [i Hi]%list_elem_of_lookup.
    { eapply toSubEvents_in_sorted; [exact He|]. rewrite Hsubs. left. }
    assert (off_e ∈ sortedSubEvents (extractTrackEvents NOTE_NAMES (track_pattern track)))
      as [j Hj]%list_elem_of_lookup.
    { eapply toSubEvents_in_sorted; [exact He|]. rewrite Hsubs. right. left. }
    exists label, i, j. split; [done|]. split.
    + destruct (Nat.lt_trichotomy i j) as [?|[->|Hlt]]; [done| |].
      * rewrite Hi in Hj. discriminate.
      * pose proof (sorted_lookup subLe _ j i off_e on_e
                      (sortedSubEvents_sorted _) Hlt Hj Hi) as [Hle|[Hle _]];
          simpl in Hle; lia.
    + rewrite !list_lookup_fmap, Hi, Hj. simpl. unfold noteOfSub. simpl.
      by rewrite Hnote.
Qed.

Lemma export_note_pairs_witness :
  List.length (track_pattern (sampleTrack [sampleRow] false)) ≤ List.length sampleNames
  ∧ List.length (absoluteNotes 0
       (exportTrack sampleWriter sampleNames 122 0 (sampleTrack [sampleRow] false) []).1)
    = 2 * List.length (extractTrackEvents sampleNames
                         (track_pattern (sampleTrack [sampleRow] false))).
Proof.
  assert (List.length (track_pattern (sampleTrack [sampleRow] false))
          ≤ List.length sampleNames) as Hrows by (simpl; lia).
  split; [exact Hrows|].
  exact (proj1 (export_note_pairs sampleWriter sampleNames 122%float 0
                  (sampleTrack [sampleRow] false) Hrows sampleWriter_accepts)).
Defined.

(** * The sort keeps the order of equal sub-events *)

Section SortStable.
Context {A : Type} (compare : A → A → Z) (p : A → bool).

(** The elements that satisfy [p] compare equal under [compare]. *)
Hypothesis p_tied : ∀ x y, p x = true → p y = true → (compare x y ≤ 0)%Z.

Lemma insertSorted_filter (x : A) (l : list A) :
  List.filter p (JS.insertSorted compare x l) = List.filter p (x :: l).
Proof.
  induction l as [|y l IH]; simpl; [done|].
  destruct (compare x y <=? 0)%Z eqn:Hxy; simpl; [done|].
  apply Z.leb_gt in Hxy. simpl in IH. rewrite IH.
  destruct (p x) eqn:Hx; [|done]. destruct (p y) eqn:Hy; [|done].
  pose proof (p_tied x y Hx Hy). lia.
Qed.

Lemma sort_filter (l : list A) :
  List.filter p (JS.sort compare l) = List.filter p l.
Proof.
  induction l as [|x l IH]; simpl; [done|].
  rewrite insertSorted_filter. simpl. by rewrite IH.
Qed.

End SortStable.

(** The sort of the export is stable: the sub-events of one tick and one
    kind are emitted in the order of the events they come from, which is
    the order of the rows. *)
Theorem sort_keeps_row_order (events : list SequencerEvent) (t : Z) (k : SubEventType) :
  List.filter (atTick t k) (sortedSubEvents events)
  = List.filter (atTick t k) (flat_map toSubEvents events).
Proof.
  unfold sortedSubEvents. apply sort_filter.
  intros x y Hx Hy. unfold atTick in *.
  apply andb_prop in Hx as [Hxt Hxk]. apply andb_prop in Hy as [Hyt Hyk].
  apply Z.eqb_eq in Hxt, Hyt. unfold compareSubEvents.
  replace (tick x =? tick y)%Z with true by (symmetry; apply Z.eqb_eq; lia).
  destruct (type x), (type y), k; simpl in *; done.
Qed.

(** * What a track of the file starts with *)

Lemma emittedCalls_no_meta (noteError : string → option string) (lastTick : Z)
    (events : list MidiSubEvent) :
  List.filter isSetTempo (emittedCalls noteError lastTick events) = []
  ∧ List.filter isSetInstrument (emittedCalls noteError lastTick events) = [].
Proof.
  revert lastTick. induction events as [|e events IH]; intros lastTick; simpl; [done|].
  destruct (sub_note e); [|done]. unfold callFor.
  destruct (type e); simpl; (destruct (noteError _); [done|apply IH]).
Qed.

Section ExportMeta.
Variable noteError : string → option string.
Variable NOTE_NAMES : list string.

Lemma exportTrack_meta (tempo : float) (index : nat) (track : TrackState) :
  List.filter isSetTempo (exportTrack noteError NOTE_NAMES tempo index track []).1
  = (if index =? 0 then [setTempo tempo] else [])
  ∧ List.filter isSetInstrument (exportTrack noteError NOTE_NAMES tempo index track []).1
    = [setInstrument 0 (default 89%Z (instrumentPrograms (track_instrument track)))]
  ∧ head (exportTrack noteError NOTE_NAMES tempo index track []).1
    = Some (if index =? 0 then setTempo tempo
            else setInstrument 0
                   (default 89%Z (instrumentPrograms (track_instrument track)))).
Proof.
  rewrite exportTrack_calls, !List.filter_app.
  destruct (emittedCalls_no_meta noteError 0
              (sortedSubEvents (extractTrackEvents NOTE_NAMES (track_pattern track))))
    as [-> ->].
  unfold trackHeader. by destruct (index =? 0).
Qed.

Lemma exportTracks_Normal (tempo : float) (tracks : list TrackState) (index : nat)
    (file file' : list (list MidiCall)) (u : unit) :
  exportTracks noteError NOTE_NAMES tempo tracks index file = (file', Normal u) →
  file' = file ++ imap (λ i track, (exportTrack noteError NOTE_NAMES tempo (index + i) track []).1)
                    tracks.
Proof.
  revert index file. induction tracks as [|track tracks IH]; intros index file; simpl.
  - intros [= <-]. by rewrite app_nil_r.
  - destruct (exportTrack noteError NOTE_NAMES tempo index track []) as [midiTrack [[]|err]]
      eqn:Htrack; [|done].
    intros Hrest%IH. rewrite Hrest, <- app_assoc. simpl.
    replace (index + 0) with index by lia. rewrite Htrack. simpl.
    do 2 f_equal. apply imap_ext. intros i t _. simpl. do 2 f_equal. lia.
Qed.

Lemma exported_tempo (tempo : float) (tracks : list TrackState) (index : nat) :
  List.filter isSetTempo
    (concat (imap (λ i track, (exportTrack noteError NOTE_NAMES tempo (index + i) track []).1) tracks))
  = match tracks with
    | [] => []
    | _ :: _ => if index =? 0 then [setTempo tempo] else []
    end.
Proof.
  revert index. induction tracks as [|track tracks IH]; intros index; simpl; [done|].
  rewrite List.filter_app. replace (index + 0) with index by lia.
  rewrite (proj1 (exportTrack_meta tempo index track)).
  rewrite (imap_ext _ (λ i t, (exportTrack noteError NOTE_NAMES tempo (S index + i) t []).1)).
  2:{ intros i t _. simpl. do 2 f_equal. lia. }
  rewrite IH. simpl. destruct tracks; destruct (index =? 0); done.
Qed.

End ExportMeta.

(** A written file has one MIDI track per track, in track order; the
    tempo is set once in the whole file, by the first call on the first
    track; every track sets its program once, from the table of
    instruments, 89 for an instrument that is not in the table. *)
Theorem export_metadata (noteError : string → option string)
    (NOTE_NAMES : list string) (tempo : float)
    (tracks : list TrackState) (file : list (list MidiCall)) (line : string) :
  handleExportMidi noteError NOTE_NAMES true tempo tracks
  = Normal {| midiFile := Some file; exportStatus := line |} →
  List.length file = List.length tracks
  ∧ List.filter isSetTempo (concat file)
    = match tracks with [] => [] | _ :: _ => [setTempo tempo] end
  ∧ ∀ i calls, file !! i = Some calls →
      ∃ track,
        tracks !! i = Some track
        ∧ List.filter isSetInstrument calls
          = [setInstrument 0 (default 89%Z (instrumentPrograms (track_instrument track)))]
        ∧ head calls
          = Some (if i =? 0 then setTempo tempo
                  else setInstrument 0
                         (default 89%Z (instrumentPrograms (track_instrument track)))).
Proof.
  unfold handleExportMidi. simpl.
  destruct (exportTracks noteError NOTE_NAMES tempo tracks 0 []) as [file' [u|err]] eqn:Hexport;
    [|done].
  intros [= <- _]. apply exportTracks_Normal in Hexport.
  change ([] ++ ?l) with l in Hexport. subst file'.
  split; [apply length_imap|]. split.
  - rewrite (exported_tempo noteError NOTE_NAMES tempo tracks 0). by destruct tracks.
  - intros i calls. rewrite list_lookup_imap.
    destruct (tracks !! i) as [track|]; [|done]. simpl. intros [= <-].
    exists track. split; [done|].
    destruct (exportTrack_meta noteError NOTE_NAMES tempo i track)
      as (_ & Hinstrument & Hhead).
    done.
Qed.

Lemma export_metadata_witness :
  handleExportMidi sampleWriter sampleNames true 122 [sampleTrack [sampleRow] false]
  = Normal {| midiFile :=
                Some [[setTempo 122; setInstrument 0 89;
                       noteOn 0 "c4" 64 64; noteOff 0 "c4" 96 0;
                       noteOn 0 "c4" 64 32; noteOff 0 "c4" 32 0]];
              exportStatus := "Exported MIDI file." |}
  ∧ List.length
      [[setTempo 122; setInstrument 0 89;
        noteOn 0 "c4" 64 64; noteOff 0 "c4" 96 0;
        noteOn 0 "c4" 64 32; noteOff 0 "c4" 32 0]]
    = List.length [sampleTrack [sampleRow] false].
Proof.
  assert (handleExportMidi sampleWriter sampleNames true 122 [sampleTrack [sampleRow] false]
          = Normal {| midiFile :=
                        Some [[setTempo 122; setInstrument 0 89;
                               noteOn 0 "c4" 64 64; noteOff 0 "c4" 96 0;
                               noteOn 0 "c4" 64 32; noteOff 0 "c4" 32 0]];
                      exportStatus := "Exported MIDI file." |}) as Hexport
    by reflexivity.
  split; [exact Hexport|].
  exact (proj1 (export_metadata sampleWriter sampleNames 122%float
                  [sampleTrack [sampleRow] false] _ _ Hexport)).
Defined.

(** * The export and the mixer *)

Section ExportMixer.
Variable noteError : string → option string.
Variable NOTE_NAMES : list string.

Lemma exportTracks_same (tempo : float) (tracks tracks' : list TrackState) (index : nat)
    (file : list (list MidiCall)) :
  Forall2 (λ t t', track_instrument t = track_instrument t'
                   ∧ track_pattern t = track_pattern t') tracks tracks' →
  exportTracks noteError NOTE_NAMES tempo tracks index file
  = exportTracks noteError NOTE_NAMES tempo tracks' index file.
Proof.
  intros Hsame. revert index file.
  induction Hsame as [|t t' tracks tracks' [Hi Hp] _ IH]; intros index file; simpl; [done|].
  unfold exportTrack. rewrite Hi, Hp.
  match goal with
  | |- (let (_, _) := ?run in _) = _ => destruct run as [midiTrack [u|err]]
  end; [apply IH|done].
Qed.

Lemma updateTrack_same_music (trackId : string) (f : TrackState → TrackState)
    (tracks : list TrackState) :
  (∀ t, track_instrument (f t) = track_instrument t ∧ track_pattern (f t) = track_pattern t) →
  Forall2 (λ t t', track_instrument t = track_instrument t'
                   ∧ track_pattern t = track_pattern t')
    (updateTrack trackId f tracks) tracks.
Proof.
  intros Hf. unfold updateTrack. induction tracks as [|t tracks IH]; simpl; constructor.
  - destruct (String.eqb (track_id t) trackId); [apply Hf|done].
  - exact IH.
Qed.

End ExportMixer.

(** The export does not look at the mixer: muting a track, changing its
    volume or renaming it leaves the exported file as it was (a muted
    track is exported like any other). *)
Theorem export_ignores_mixer (noteError : string → option string)
    (NOTE_NAMES : list string) (midiLoaded : bool) (tempo : float)
    (track : TrackState) (tracks : list TrackState) :
  handleExportMidi noteError NOTE_NAMES midiLoaded tempo (handleMuteToggle track tracks)
  = handleExportMidi noteError NOTE_NAMES midiLoaded tempo tracks
  ∧ (∀ v, handleExportMidi noteError NOTE_NAMES midiLoaded tempo
            (handleVolumeChange track v tracks)
          = handleExportMidi noteError NOTE_NAMES midiLoaded tempo tracks)
  ∧ (∀ name, handleExportMidi noteError NOTE_NAMES midiLoaded tempo
               (handleNameChange track name tracks)
             = handleExportMidi noteError NOTE_NAMES midiLoaded tempo tracks).
Proof.
  unfold handleExportMidi, handleMuteToggle, handleVolumeChange, handleNameChange.
  split; [|split]; intros; destruct midiLoaded; simpl; try done;
    by rewrite (exportTracks_same noteError NOTE_NAMES tempo _ tracks 0 [])
      by by apply updateTrack_same_music.
Qed.

(** * When the export throws *)

Lemma firstError_Some (noteError : string → option string) (events : list MidiSubEvent)
    (error : string) :
  firstError noteError events = Some error →
  error = noLabelError
  ∨ ∃ e label, e ∈ events ∧ sub_note e = Some label
               ∧ noteError (toLowerCase label) = Some error.
Proof.
  induction events as [|e events IH]; simpl; [done|].
  destruct (sub_note e) as [label|] eqn:Hlabel.
  - destruct (noteError (toLowerCase label)) as [err|] eqn:Herr.
    + intros [= <-]. right. exists e, label. split; [left|done].
    + intros [?|(e' & label' & He' & ?)]%IH; [by left|].
      right. exists e', label'. split; [by right|done].
  - intros [= <-]. by left.
Qed.

Section ExportThrows.
Variable noteError : string → option string.
Variable NOTE_NAMES : list string.

(** Every sub-event of a pattern is accepted exactly when every row with
    an active cell has a label that the writer accepts. *)
Lemma accepted_rows (pattern : TrackPattern) :
  Forall (accepted noteError) (sortedSubEvents (extractTrackEvents NOTE_NAMES pattern))
  ↔ ∀ ri row cell, pattern !! ri = Some row → cell ∈ row → active cell = true →
      ∃ label, NOTE_NAMES !! ri = Some label ∧ noteError (toLowerCase label) = None.
Proof.
  rewrite Forall_forall. split.
  - intros Hall ri row cell Hrow [i Hi]%list_elem_of_lookup Ha.
    destruct (active_in_run row i) as (s & _ & Hstart & _).
    { unfold activeAt. by rewrite Hi. }
    destruct (runStart_event NOTE_NAMES row ri s Hstart) as (e & He & _).
    assert (note e = NOTE_NAMES !! ri) as Hnote.
    { by apply rowEvents_sound in He as (c & _ & _ & -> & _). }
    destruct (Hall {| tick := Z.of_nat (step e) * 32; type := on; sub_note := note e;
                      sub_velocity := Math_round (PrimFloat.mul (velocity e) 127) |})
      as (label & Hlabel & Hok).
    { eapply toSubEvents_in_sorted.
      - apply elem_of_extractTrackEvents. by exists ri, row.
      - rewrite toSubEvents_32. left. }
    simpl in Hlabel. exists label. by rewrite <- Hnote.
  - intros Hrows se (e & He & Hnote)%sortedSubEvents_note.
    apply elem_of_extractTrackEvents in He as (ri & row & Hrow & He).
    apply rowEvents_sound in He as (cell & Hc & Ha & Heq & _).
    destruct (Hrows ri row cell Hrow (list_elem_of_lookup_2 _ _ _ Hc) Ha)
      as (label & Hlabel & Hok).
    exists label. split; [|done]. by rewrite Hnote, Heq.
Qed.

Lemma sortedSubEvents_label (pattern : TrackPattern) (se : MidiSubEvent) (label : string) :
  se ∈ sortedSubEvents (extractTrackEvents NOTE_NAMES pattern) →
  sub_note se = Some label → label ∈ NOTE_NAMES.
Proof.
  intros (e & He & Hnote)%sortedSubEvents_note Hlabel.
  apply elem_of_extractTrackEvents in He as (ri & row & Hrow & He).
  apply rowEvents_sound in He as (cell & _ & _ & Heq & _).
  rewrite Hnote, Heq in Hlabel. simpl in Hlabel.
  by eapply list_elem_of_lookup_2.
Qed.

End ExportThrows.

(** The export of a track completes exactly when every row that has an
    active cell has a pitch label that the writer accepts in lower case.
    Otherwise it throws the TypeError of reading [toLowerCase] of
    [undefined], or what the writer throws on the lower-cased label of a
    row, and [handleExportMidi] of that one track throws the same and
    writes no file.  With a writer that accepts every label of the page,
    an active cell in a row without a label makes it throw the former. *)
Theorem exportTrack_throws_iff (noteError : string → option string)
    (NOTE_NAMES : list string) (tempo : float) (index : nat) (track : TrackState) :
  ((exportTrack noteError NOTE_NAMES tempo index track []).2 = Normal tt
   ↔ ∀ ri row cell, track_pattern track !! ri = Some row → cell ∈ row →
       active cell = true →
       ∃ label, NOTE_NAMES !! ri = Some label ∧ noteError (toLowerCase label) = None)
  ∧ (∀ error,
       (exportTrack noteError NOTE_NAMES tempo index track []).2 = Throw error →
       (error = noLabelError
        ∨ ∃ label, label ∈ NOTE_NAMES ∧ noteError (toLowerCase label) = Some error)
       ∧ handleExportMidi noteError NOTE_NAMES true tempo [track] = Throw error)
  ∧ (writerAccepts noteError NOTE_NAMES →
     (∃ ri row cell, track_pattern track !! ri = Some row ∧ cell ∈ row
                     ∧ active cell = true ∧ List.length NOTE_NAMES ≤ ri) →
     (exportTrack noteError NOTE_NAMES tempo index track []).2 = Throw noLabelError
     ∧ handleExportMidi noteError NOTE_NAMES true tempo [track] = Throw noLabelError).
Proof.
  assert ((exportTrack noteError NOTE_NAMES tempo index track []).2 = Normal tt
          ↔ ∀ ri row cell, track_pattern track !! ri = Some row → cell ∈ row →
              active cell = true →
              ∃ label, NOTE_NAMES !! ri = Some label
                       ∧ noteError (toLowerCase label) = None) as Hdone.
  { rewrite <- accepted_rows. split; [apply exportTrack_Normal|apply exportTrack_accepted]. }
  assert (∀ error,
            (exportTrack noteError NOTE_NAMES tempo index track []).2 = Throw error →
            (error = noLabelError
             ∨ ∃ label, label ∈ NOTE_NAMES ∧ noteError (toLowerCase label) = Some error)
            ∧ handleExportMidi noteError NOTE_NAMES true tempo [track] = Throw error)
    as Hthrows.
  { intros error. rewrite exportTrack_outcome.
    destruct (firstError noteError _) as [err|] eqn:Hfirst; [|done].
    intros [= ->]. split.
    - apply firstError_Some in Hfirst as [?|(se & label & Hse & Hlabel & Herr)]; [by left|].
      right. exists label. split; [|done]. by eapply sortedSubEvents_label.
    - unfold handleExportMidi. simpl.
      pose proof (exportTrack_outcome noteError NOTE_NAMES tempo 0 track) as Hzero.
      rewrite Hfirst in Hzero.
      destruct (exportTrack noteError NOTE_NAMES tempo 0 track []) as [midiTrack c].
      simpl in Hzero. by rewrite Hzero. }
  split; [exact Hdone|]. split; [exact Hthrows|].
  intros Hwriter (ri & row & cell & Hrow & Hcell & Ha & Hri).
  destruct (exportTrack noteError NOTE_NAMES tempo index track []).2 as [[]|error]
    eqn:Houtcome.
  - destruct (proj1 Hdone eq_refl ri row cell Hrow Hcell Ha) as (label & Hlabel & _).
    apply lookup_lt_Some in Hlabel. lia.
  - destruct (Hthrows error eq_refl) as [[->|(label & Hin & Herr)] Hexport]; [done|].
    rewrite (Hwriter label Hin) in Herr. done.
Qed.

Lemma exportTrack_throws_iff_witness :
  (exportTrack sampleWriter ["H2"%string] 122 0
     (sampleTrack [[cellOff; cellOn 0.5]] false) []).2
  = Throw "TypeError: Cannot read properties of null (reading '1')"
  ∧ handleExportMidi sampleWriter ["H2"%string] true 122
      [sampleTrack [[cellOff; cellOn 0.5]] false]
    = Throw "TypeError: Cannot read properties of null (reading '1')".
Proof.
  assert ((exportTrack sampleWriter ["H2"%string] 122 0
             (sampleTrack [[cellOff; cellOn 0.5]] false) []).2
          = Throw "TypeError: Cannot read properties of null (reading '1')") as Hthrow
    by reflexivity.
  split; [exact Hthrow|].
  exact (proj2 (proj1 (proj2 (exportTrack_throws_iff sampleWriter ["H2"%string]
                                122%float 0 (sampleTrack [[cellOff; cellOn 0.5]] false)))
                  _ Hthrow)).
Defined.

(** * Setting playback up again *)

Section PlaybackAgain.
Variable NOTE_NAMES : list string.
Variable TOTAL_STEPS : nat.

Lemma foldl_setupTrack (tracks : list TrackState) (s : Playback) :
  foldl (setupTrack NOTE_NAMES TOTAL_STEPS) s tracks
  = {| transport := transport s;
       parts := parts s ++ omap (partFor NOTE_NAMES TOTAL_STEPS) tracks;
       synths := foldl addSynth (synths s) tracks;
       isPlaying := isPlaying s;
       status := status s |}.
Proof.
  revert s. induction tracks as [|track tracks IH]; intros s; simpl.
  - rewrite app_nil_r. by destruct s.
  - rewrite IH, setupTrack_synths, setupTrack_parts, <- app_assoc.
    f_equal.
    + unfold setupTrack. destruct (track_muted track); [done|]. by destruct (Nat.eqb _ 0).
    + f_equal. by destruct (partFor NOTE_NAMES TOTAL_STEPS track).
    + unfold setupTrack. destruct (track_muted track); [done|]. by destruct (Nat.eqb _ 0).
    + unfold setupTrack. destruct (track_muted track); [done|]. by destruct (Nat.eqb _ 0).
Qed.

Lemma partFor_events (track : TrackState) (part : Part) :
  partFor NOTE_NAMES TOTAL_STEPS track = Some part →
  part_loop part = true
  ∧ part_loopEnd part = pretty (loopBars TOTAL_STEPS) +:+ "m"
  ∧ part_events part
    = map (λ event, (stepToTransportTime (step event), event))
        (extractTrackEvents NOTE_NAMES (track_pattern track))
  ∧ extractTrackEvents NOTE_NAMES (track_pattern track) ≠ [].
Proof.
  unfold partFor. destruct (track_muted track); [done|].
  destruct (extractTrackEvents NOTE_NAMES (track_pattern track)) as [|e events]; [done|].
  simpl. by intros [= <-].
Qed.

End PlaybackAgain.

Lemma bar_within_loop (TOTAL_STEPS s : nat) :
  s < TOTAL_STEPS → s / 16 < loopBars TOTAL_STEPS.
Proof.
  intros Hs. unfold loopBars.
  assert (s / 16 + 1 ≤ (TOTAL_STEPS + 15) / 16); [|lia].
  replace (s / 16 + 1) with ((s + 1 * 16) / 16) by (rewrite Nat.div_add; lia).
  apply Nat.Div0.div_le_mono. lia.
Qed.

(** Setting playback up again while it runs, as the page does after every
    change of the tracks, the tempo or the swing, is idempotent: a second
    setup that keeps the transport running, with the same inputs, leaves
    the session exactly as the first one made it.  A setup that starts
    the transport builds the same transport, parts and synths after
    [stopPlayback] as without it: nothing of an earlier session is left
    over. *)
Theorem setupPlayback_again (NOTE_NAMES : list string) (TOTAL_STEPS : nat)
    (tempo swingPercent : float) (tracks : list TrackState) (s : Playback) :
  (∀ keepTransportRunning,
     setupPlayback NOTE_NAMES TOTAL_STEPS (Normal tt) true tempo swingPercent tracks
       (setupPlayback NOTE_NAMES TOTAL_STEPS (Normal tt) keepTransportRunning
          tempo swingPercent tracks s)
     = setupPlayback NOTE_NAMES TOTAL_STEPS (Normal tt) keepTransportRunning
         tempo swingPercent tracks s)
  ∧ (∀ toneLoaded,
       let restarted :=
         setupPlayback NOTE_NAMES TOTAL_STEPS (Normal tt) false tempo swingPercent tracks
           (stopPlayback toneLoaded s) in
       let started :=
         setupPlayback NOTE_NAMES TOTAL_STEPS (Normal tt) false tempo swingPercent tracks s in
       transport restarted = transport started
       ∧ parts restarted = parts started
       ∧ synths restarted = synths started).
Proof.
  split.
  - intros keep. unfold setupPlayback. rewrite !foldl_setupTrack.
    destruct keep; simpl; by rewrite ?foldl_setupTrack.
  - intros toneLoaded. unfold setupPlayback. rewrite !foldl_setupTrack. simpl.
    by destruct toneLoaded.
Qed.

(** Every part that playback setup creates loops over the loop of the
    transport, is not empty, and schedules each event of its track at the
    transport time of the event's first step.  In a pattern whose rows
    have at most [TOTAL_STEPS] steps, every scheduled event starts in a
    bar of the loop and ends within the pattern. *)
Theorem setupPlayback_parts_in_loop (NOTE_NAMES : list string) (TOTAL_STEPS : nat)
    (keepTransportRunning : bool) (tempo swingPercent : float)
    (tracks : list TrackState) (s : Playback) :
  (∀ part,
     part ∈ parts (setupPlayback NOTE_NAMES TOTAL_STEPS (Normal tt) keepTransportRunning
                     tempo swingPercent tracks s) →
     part_loop part = true
     ∧ part_loopEnd part
       = loopEnd (transport (setupPlayback NOTE_NAMES TOTAL_STEPS (Normal tt)
                               keepTransportRunning tempo swingPercent tracks s))
     ∧ part_events part ≠ []
     ∧ ∃ track,
         track ∈ tracks ∧ track_muted track = false
         ∧ part_events part
           = map (λ event, (stepToTransportTime (step event), event))
               (extractTrackEvents NOTE_NAMES (track_pattern track)))
  ∧ ((∀ track row, track ∈ tracks → row ∈ track_pattern track →
                   List.length row ≤ TOTAL_STEPS) →
     ∀ part time e,
       part ∈ parts (setupPlayback NOTE_NAMES TOTAL_STEPS (Normal tt) keepTransportRunning
                       tempo swingPercent tracks s) →
       (time, e) ∈ part_events part →
       time = stepToTransportTime (step e)
       ∧ step e / 16 < loopBars TOTAL_STEPS
       ∧ step e + durationSteps e ≤ TOTAL_STEPS).
Proof.
  rewrite setupPlayback_parts. split.
  - intros part (track & Htrack & Hpart)%list_elem_of_omap.
    assert (track_muted track = false) as Hmuted.
    { unfold partFor in Hpart. by destruct (track_muted track). }
    apply partFor_events in Hpart as (Hloop & HloopEnd & Hevents & Hsome).
    split; [done|]. split.
    { rewrite HloopEnd. unfold setupPlayback. rewrite foldl_setupTrack.
      by destruct keepTransportRunning. }
    split.
    { rewrite Hevents. by destruct (extractTrackEvents NOTE_NAMES (track_pattern track)). }
    by exists track.
  - intros Hrows part time e (track & Htrack & Hpart)%list_elem_of_omap.
    apply partFor_events in Hpart as (_ & _ & Hevents & _).
    rewrite Hevents.
    intros Hin%list_elem_of_In. apply in_map_iff in Hin as (e' & [= <- <-] & He).
    split; [done|].
    destruct (extracted_event_fits NOTE_NAMES (track_pattern track) e')
      as (ri & row & Hrow & Hdur & Hfit & _); [by apply list_elem_of_In|].
    assert (List.length row ≤ TOTAL_STEPS) as Hlen.
    { apply (Hrows track row Htrack). by eapply list_elem_of_lookup_2. }
    split; [apply bar_within_loop|]; lia.
Qed.

Lemma setupPlayback_parts_in_loop_witness :
  {| part_events := [("0:0:2"%string, sampleEvent2); ("0:1:3"%string, sampleEvent7)];
     part_loop := true; part_loopEnd := "2m"; part_start := 0 |}
  ∈ parts (setupPlayback sampleNames 32 (Normal tt) false 122 0
             [sampleTrack [sampleRow] false] idle)
  ∧ step sampleEvent2 / 16 < loopBars 32
  ∧ step sampleEvent2 + durationSteps sampleEvent2 ≤ 32.
Proof.
  assert ({| part_events := [("0:0:2"%string, sampleEvent2);
                             ("0:1:3"%string, sampleEvent7)];
             part_loop := true; part_loopEnd := "2m"; part_start := 0 |}
          ∈ parts (setupPlayback sampleNames 32 (Normal tt) false 122 0
                     [sampleTrack [sampleRow] false] idle)) as Hpart.
  { vm_compute. left. }
  split; [exact Hpart|].
  assert (∀ track row, track ∈ [sampleTrack [sampleRow] false] →
            row ∈ track_pattern track → List.length row ≤ 32) as Hrows.
  { intros track row ->%list_elem_of_singleton ->%list_elem_of_singleton. simpl. lia. }
  destruct (proj2 (setupPlayback_parts_in_loop sampleNames 32 false 122%float 0%float
                     [sampleTrack [sampleRow] false] idle) Hrows _
              "0:0:2"%string sampleEvent2 Hpart)
    as (_ & Hbar & Hend); [left|].
  split; [exact Hbar|exact Hend].
Defined.

(** * Double-clicking a cell *)

Lemma toggledCell_forced_twice (b : bool) (cell : NoteCell) :
  toggledCell (Some b) (toggledCell (Some b) cell) = toggledCell (Some b) cell.
Proof. done. Qed.

Lemma toggleCellUpdater_forced_twice (trackId : string) (row step : Z) (b : bool)
    (prev : list TrackState) :
  toggleCellUpdater trackId row step (Some b) (toggleCellUpdater trackId row step (Some b) prev)
  = toggleCellUpdater trackId row step (Some b) prev.
Proof.
  rewrite !toggleCellUpdater_eq, updateTrack_compose by done.
  apply updateTrack_ext. intros track _ _. unfold withPattern. simpl.
  by rewrite togglePattern_twice.
Qed.

Lemma toggled_off (row step : nat) (pattern : TrackPattern) (cells : list NoteCell) :
  togglePattern (Z.of_nat row) (Z.of_nat step) (Some false) pattern !! row = Some cells →
  activeAt cells step = false.
Proof.
  intros Hcells. unfold activeAt.
  pose proof (toggled_lookup (Z.of_nat row) (Z.of_nat step) (Some false) pattern row step)
    as Hcell.
  rewrite Hcells in Hcell. simpl in Hcell. rewrite Hcell, !Z.eqb_refl. simpl.
  by destruct (pattern !! row ≫= λ cells0, cells0 !! step).
Qed.

(** A double click on a cell of a card removes the note there and drops
    the selection: the handler completes for every row and step, the
    inspector is empty afterwards, every track with the card's id has the
    cell inactive, so that no event of its row lies over that step, and
    every other track is as it was.  A second double click changes
    nothing. *)
Theorem handleCellDoubleClick_spec (NOTE_NAMES : list string) (track : TrackState)
    (rowIdx stepIdx : nat) (page : Page) :
  ∃ page',
    handleCellDoubleClick track rowIdx stepIdx page = Normal page'
    ∧ page_selectedCell page' = None
    ∧ selectedNote NOTE_NAMES page' = None
    ∧ handleCellDoubleClick track rowIdx stepIdx page' = Normal page'
    ∧ ∀ k,
        match page_tracks page !! k with
        | None => page_tracks page' !! k = None
        | Some t =>
            ∃ t', page_tracks page' !! k = Some t'
              ∧ if String.eqb (track_id t) (track_id track)
                then ∀ cells, track_pattern t' !! rowIdx = Some cells →
                       activeAt cells stepIdx = false
                       ∧ ∀ e, e ∈ rowEvents NOTE_NAMES cells rowIdx →
                              stepIdx < step e ∨ step e + durationSteps e ≤ stepIdx
                else t' = t
        end.
Proof.
  unfold handleCellDoubleClick, toggleCell. eexists. split; [done|]. simpl.
  split; [done|]. split; [done|]. split.
  { by rewrite toggleCellUpdater_forced_twice. }
  intros k. rewrite toggleCellUpdater_eq, updateTrack_lookup.
  destruct (page_tracks page !! k) as [t|]; [|done]. simpl.
  eexists. split; [done|].
  destruct (String.eqb (track_id t) (track_id track)); [|done].
  simpl. intros cells Hcells.
  pose proof (toggled_off rowIdx stepIdx _ cells Hcells) as Hoff.
  split; [done|]. intros e (_ & _ & _ & _ & (_ & Hall & _))%rowEvents_sound.
  destruct (decide (stepIdx < step e)) as [?|Hge]; [by left|].
  destruct (decide (step e + durationSteps e ≤ stepIdx)) as [?|Hlt]; [by right|].
  rewrite Hall in Hoff by lia. done.
Qed.

(** * Changing the instrument of a track *)

Lemma updateTrack_ids (trackId : string) (f : TrackState → TrackState)
    (tracks : list TrackState) :
  (∀ t, track_id (f t) = track_id t) →
  track_id <$> updateTrack trackId f tracks = track_id <$> tracks.
Proof.
  intros Hf. unfold updateTrack. induction tracks as [|t tracks IH]; simpl; [done|].
  f_equal; [|exact IH]. destruct (String.eqb (track_id t) trackId); [apply Hf|done].
Qed.

Lemma updateTrack_elem (trackId : string) (f : TrackState → TrackState)
    (tracks : list TrackState) (t : TrackState) :
  t ∈ tracks →
  (if String.eqb (track_id t) trackId then f t else t) ∈ updateTrack trackId f tracks.
Proof.
  intros Hin%list_elem_of_In. apply list_elem_of_In. unfold updateTrack.
  apply in_map_iff. by exists t.
Qed.

Lemma updateTrack_parts (NOTE_NAMES : list string) (TOTAL_STEPS : nat) (trackId : string)
    (f : TrackState → TrackState) (tracks : list TrackState) :
  (∀ t, track_muted (f t) = track_muted t ∧ track_pattern (f t) = track_pattern t) →
  omap (partFor NOTE_NAMES TOTAL_STEPS) (updateTrack trackId f tracks)
  = omap (partFor NOTE_NAMES TOTAL_STEPS) tracks.
Proof.
  intros Hf. unfold updateTrack. induction tracks as [|t tracks IH]; simpl; [done|].
  replace (partFor NOTE_NAMES TOTAL_STEPS
             (if String.eqb (track_id t) trackId then f t else t))
    with (partFor NOTE_NAMES TOTAL_STEPS t).
  - destruct (partFor NOTE_NAMES TOTAL_STEPS t); [f_equal|]; exact IH.
  - destruct (String.eqb (track_id t) trackId); [|done].
    unfold partFor. destruct (Hf t) as [-> ->]. done.
Qed.

(** Choosing another instrument on the card of a track changes the voice
    of that track and nothing else of the playback: after
    [handleInstrumentChange], playback setup builds the synth of the new
    instrument for the track, at the track's volume (none if the track is
    muted), the synths of the tracks of other ids are as before, and the
    parts schedule the same events.  The instruments that get the plain
    synth are exactly those without a program in the table of the export. *)
Theorem handleInstrumentChange_effect (NOTE_NAMES : list string) (TOTAL_STEPS : nat)
    (keepTransportRunning : bool) (tempo swingPercent : float)
    (tracks : list TrackState) (s : Playback) (track : TrackState) (value : string) :
  NoDup (track_id <$> tracks) → track ∈ tracks →
  synths (setupPlayback NOTE_NAMES TOTAL_STEPS (Normal tt) keepTransportRunning
            tempo swingPercent (handleInstrumentChange track value tracks) s)
    !! track_id track
  = (if track_muted track then None
     else Some {| voice := buildInstrument value; synth_volume := track_volume track |})
  ∧ (∀ other, other ∈ tracks → track_id other ≠ track_id track →
       synths (setupPlayback NOTE_NAMES TOTAL_STEPS (Normal tt) keepTransportRunning
                 tempo swingPercent (handleInstrumentChange track value tracks) s)
         !! track_id other
       = synths (setupPlayback NOTE_NAMES TOTAL_STEPS (Normal tt) keepTransportRunning
                   tempo swingPercent tracks s) !! track_id other)
  ∧ parts (setupPlayback NOTE_NAMES TOTAL_STEPS (Normal tt) keepTransportRunning
             tempo swingPercent (handleInstrumentChange track value tracks) s)
    = parts (setupPlayback NOTE_NAMES TOTAL_STEPS (Normal tt) keepTransportRunning
               tempo swingPercent tracks s)
  ∧ (buildInstrument value = Synth ↔ instrumentPrograms value = None).
Proof.
  intros Hnodup Hin. rewrite !setupPlayback_synths, !setupPlayback_parts.
  unfold handleInstrumentChange.
  assert (NoDup (track_id <$> updateTrack (track_id track) (withInstrument value) tracks))
    as Hnodup' by by rewrite updateTrack_ids.
  split; [|split; [|split]].
  - pose proof (updateTrack_elem (track_id track) (withInstrument value) tracks track Hin)
      as Hin'.
    rewrite String.eqb_refl in Hin'.
    pose proof (addSynth_NoDup _ ∅ _ Hnodup' Hin') as Hsynth. simpl in Hsynth.
    rewrite Hsynth, lookup_empty. done.
  - intros other Hother Hne.
    pose proof (updateTrack_elem (track_id track) (withInstrument value) tracks other Hother)
      as Hother'.
    replace (String.eqb (track_id other) (track_id track)) with false in Hother'
      by (symmetry; by apply String.eqb_neq).
    by rewrite (addSynth_NoDup _ ∅ _ Hnodup' Hother'), (addSynth_NoDup _ ∅ _ Hnodup Hother).
  - by apply updateTrack_parts.
  - unfold buildInstrument, instrumentPrograms.
    destruct (String.eqb value "dream-pad"); [done|].
    destruct (String.eqb value "chiptune"); [done|].
    destruct (String.eqb value "fm-keys"); [done|].
    by destruct (String.eqb value "bass").
Qed.

Lemma handleInstrumentChange_effect_witness :
  NoDup (track_id <$> [sampleTrack [sampleRow] false; sampleTrack2])
  ∧ synths (setupPlayback sampleNames 32 (Normal tt) false 122 0
              (handleInstrumentChange (sampleTrack [sampleRow] false) "fm-keys"
                 [sampleTrack [sampleRow] false; sampleTrack2]) idle)
      !! track_id (sampleTrack [sampleRow] false)
    = Some {| voice := FMSynth; synth_volume := (-8)%float |}.
Proof.
  assert (NoDup (track_id <$> [sampleTrack [sampleRow] false; sampleTrack2])) as Hnodup.
  { simpl. apply NoDup_cons. split; [|apply NoDup_singleton].
    intros Hin%list_elem_of_singleton. discriminate Hin. }
  split; [exact Hnodup|].
  apply (handleInstrumentChange_effect sampleNames 32 false 122%float 0%float
           [sampleTrack [sampleRow] false; sampleTrack2] idle
           (sampleTrack [sampleRow] false) "fm-keys" Hnodup).
  left.
Defined.

(** * Clearing a track *)

(** With an empty pattern that has no active cell, [handleClearTrack]
    silences the tracks of the card's id and only them: such a track has
    no event left, playback setup creates no part for it, its exported
    MIDI track holds the header calls alone, and its name, instrument,
    volume and mute flag are kept; every other track is as it was. *)
Theorem handleClearTrack_silences (noteError : string → option string)
    (NOTE_NAMES : list string) (TOTAL_STEPS : nat)
    (emptyPattern : TrackPattern) (tempo : float)
    (track : TrackState) (tracks : list TrackState) :
  (∀ row cell, row ∈ emptyPattern → cell ∈ row → active cell = false) →
  ∀ k t, tracks !! k = Some t →
    ∃ t', handleClearTrack emptyPattern track tracks !! k = Some t'
      ∧ if String.eqb (track_id t) (track_id track)
        then extractTrackEvents NOTE_NAMES (track_pattern t') = []
             ∧ partFor NOTE_NAMES TOTAL_STEPS t' = None
             ∧ exportTrack noteError NOTE_NAMES tempo k t' [] = (trackHeader tempo k t, Normal tt)
             ∧ withPattern (track_pattern t) t' = t
        else t' = t.
Proof.
  intros Hempty k t Ht. unfold handleClearTrack.
  rewrite updateTrack_lookup, Ht. simpl. eexists. split; [done|].
  destruct (String.eqb (track_id t) (track_id track)); [|done].
  assert (extractTrackEvents NOTE_NAMES emptyPattern = []) as Hnone.
  { unfold extractTrackEvents. by apply forEachRow_inactive. }
  simpl. split; [done|]. split; [|split].
  - unfold partFor. simpl. rewrite Hnone. by destruct (track_muted t).
  - unfold exportTrack, trackHeader. simpl. rewrite Hnone.
    by destruct (k =? 0).
  - by destruct t.
Qed.

Lemma handleClearTrack_silences_witness :
  [sampleTrack [sampleRow] false] !! 0 = Some (sampleTrack [sampleRow] false)
  ∧ ∃ t', handleClearTrack [[cellOff; cellOff]] (sampleTrack [sampleRow] false)
            [sampleTrack [sampleRow] false] !! 0 = Some t'
      ∧ extractTrackEvents sampleNames (track_pattern t') = []
      ∧ partFor sampleNames 32 t' = None.
Proof.
  split; [reflexivity|].
  assert (∀ row cell, row ∈ [[cellOff; cellOff]] → cell ∈ row → active cell = false)
    as Hempty.
  { intros row cell ->%list_elem_of_singleton Hcell.
    apply elem_of_cons in Hcell as [->|Hcell]; [done|].
    by apply list_elem_of_singleton in Hcell as ->. }
  destruct (handleClearTrack_silences sampleWriter sampleNames 32 [[cellOff; cellOff]]
              122%float
              (sampleTrack [sampleRow] false) [sampleTrack [sampleRow] false] Hempty
              0 (sampleTrack [sampleRow] false) eq_refl)
    as (t' & Ht' & Hcleared).
  exists t'. split; [exact Ht'|].
  change (String.eqb (track_id (sampleTrack [sampleRow] false))
            (track_id (sampleTrack [sampleRow] false))) with true in Hcleared.
  destruct Hcleared as (Hevents & Hpart & _).
  split; [exact Hevents|exact Hpart].
Defined.
